(** * A résumé parsing pipeline: the profile-only parser and the CV text extractors

    Shallow embedding of [profile-only-parser.js] (the profile-only parser of
    the browser extension) and of the text helpers of the CV upload handler
    ([decodePDFString], [extractTextFromPDF], [extractTextFromDOCX],
    [getWorkExperienceFocusedText], [isTextReadable]) with the steps of the
    handler around them: the choice of the text given to the model, the code
    fence of its answer, the choice of the provider.

    JavaScript strings are sequences of UTF-16 code units; a code unit is a
    natural number ([N]).  The regular expressions of the source are kept as
    syntax trees and run by a backtracking matcher written after the
    continuation-passing matchers of the ECMAScript specification. *)

From Stdlib Require Import String Ascii DecimalString List NArith ZArith Bool Lia.
Import ListNotations.

(** ** Strings *)

Definition char := N.
Definition jsstring := list char.

Definition ch (a : ascii) : char := N_of_ascii a.
Definition lit (s : string) : jsstring := map ch (list_ascii_of_string s).

(** Code units outside ASCII that the source mentions. *)
Definition en_dash : char := 8211%N.       (* U+2013 *)
Definition bullet_dot : char := 8226%N.    (* U+2022 *)
Definition small_square : char := 9642%N.  (* U+25AA *)
Definition small_tri : char := 9656%N.     (* U+25B8 *)
Definition pointer_tri : char := 9658%N.   (* U+25BA *)

Definition in_range (lo hi c : char) : bool := (N.leb lo c && N.leb c hi)%bool.
Definition eqc c (x : char) : bool := N.eqb x c.
Definition one_of (l : list char) (x : char) : bool := existsb (N.eqb x) l.

(** [\d], [\w] and [\s] of a non-unicode regular expression. *)
Definition isDigit (c : char) : bool := in_range 48%N 57%N c.
Definition isLower (c : char) : bool := in_range 97%N 122%N c.
Definition isUpper (c : char) : bool := in_range 65%N 90%N c.
Definition isLetter (c : char) : bool := (isLower c || isUpper c)%bool.
Definition isWordChar (c : char) : bool := (isLetter c || isDigit c || eqc 95%N c)%bool.

(** WhiteSpace and LineTerminator code points: what [\s] matches and what
    [String.prototype.trim] removes. *)
Definition isSpace (c : char) : bool :=
  (in_range 9%N 13%N c || eqc 32%N c || eqc 160%N c || eqc 5760%N c
   || in_range 8192%N 8202%N c || eqc 8232%N c || eqc 8233%N c || eqc 8239%N c
   || eqc 8287%N c || eqc 12288%N c || eqc 65279%N c)%bool.

(** Equality of two code units under the [i] flag.  The canonical form of a
    non-unicode pattern never maps a code unit above 127 to an ASCII one, so
    a pattern letter of ASCII matches exactly its two ASCII cases. *)
Definition ci (a : ascii) (x : char) : bool :=
  let c := ch a in
  if isLower c then (N.eqb x c || N.eqb x (c - 32)%N)%bool
  else if isUpper c then (N.eqb x c || N.eqb x (c + 32)%N)%bool
  else N.eqb x c.

Definition substring (s : jsstring) (i j : nat) : jsstring := firstn (j - i) (skipn i s).

Fixpoint dropWhile (p : char -> bool) (s : jsstring) : jsstring :=
  match s with
  | [] => []
  | c :: t => if p c then dropWhile p t else s
  end.

Definition trimStart (s : jsstring) : jsstring := dropWhile isSpace s.
Definition trimEnd (s : jsstring) : jsstring := rev (dropWhile isSpace (rev s)).
Definition trim (s : jsstring) : jsstring := trimEnd (trimStart s).

Fixpoint startsWith (p s : jsstring) : bool :=
  match p, s with
  | [], _ => true
  | a :: p', b :: s' => (N.eqb a b && startsWith p' s')%bool
  | _ :: _, [] => false
  end.

Fixpoint join (sep : jsstring) (l : list jsstring) : jsstring :=
  match l with
  | [] => []
  | [x] => x
  | x :: t => x ++ sep ++ join sep t
  end.

(** ** Regular expressions *)

Inductive regex : Type :=
| Empty
| Char (p : char -> bool)
| Seq (r1 r2 : regex)
| Alt (r1 r2 : regex)
| Star (greedy : bool) (r : regex)
| Group (n : nat) (r : regex)
| Bol
| Eol
| WordB.

Definition Plus (r : regex) : regex := Seq r (Star true r).
Definition Opt (r : regex) : regex := Alt r Empty.
Definition StarG (r : regex) : regex := Star true r.
Definition StarL (r : regex) : regex := Star false r.

Fixpoint Str (l : list (char -> bool)) : regex :=
  match l with
  | [] => Empty
  | p :: t => Seq (Char p) (Str t)
  end.

(** A literal of the pattern, case-sensitive and under the [i] flag. *)
Definition Lit (s : string) : regex := Str (map (fun a => eqc (ch a)) (list_ascii_of_string s)).
Definition LitI (s : string) : regex := Str (map ci (list_ascii_of_string s)).

Fixpoint Alts (l : list regex) : regex :=
  match l with
  | [] => Empty
  | [r] => r
  | r :: t => Alt r (Alts t)
  end.

Definition caps := list (nat * (nat * nat)).
Definition cont := nat -> caps -> option (nat * caps).

Definition isWordAt (s : jsstring) (i : nat) : bool :=
  match nth_error s i with
  | Some c => isWordChar c
  | None => false
  end.

Definition wordBoundary (s : jsstring) (i : nat) : bool :=
  xorb (match i with 0 => false | S i' => isWordAt s i' end) (isWordAt s i).

(** The repeat matcher of [r*] and [r*?]: an iteration that consumes nothing
    is refused, so the fuel [S (length s - i)] is never used up. *)
Fixpoint star_loop (step : nat -> caps -> cont -> option (nat * caps))
    (greedy : bool) (k : cont) (fuel i : nat) (c : caps) : option (nat * caps) :=
  match fuel with
  | 0 => k i c
  | S fuel' =>
      if greedy then
        match step i c (fun j c' => if i <? j then star_loop step greedy k fuel' j c' else None) with
        | Some res => Some res
        | None => k i c
        end
      else
        match k i c with
        | Some res => Some res
        | None => step i c (fun j c' => if i <? j then star_loop step greedy k fuel' j c' else None)
        end
  end.

Fixpoint rmatch (s : jsstring) (r : regex) (i : nat) (c : caps) (k : cont)
    : option (nat * caps) :=
  match r with
  | Empty => k i c
  | Char p =>
      match nth_error s i with
      | Some x => if p x then k (S i) c else None
      | None => None
      end
  | Seq r1 r2 => rmatch s r1 i c (fun j c' => rmatch s r2 j c' k)
  | Alt r1 r2 =>
      match rmatch s r1 i c k with
      | Some res => Some res
      | None => rmatch s r2 i c k
      end
  | Star g r1 => star_loop (rmatch s r1) g k (S (length s - i)) i c
  | Group n r1 => rmatch s r1 i c (fun j c' => k j ((n, (i, j)) :: c'))
  | Bol => if i =? 0 then k i c else None
  | Eol => if i =? length s then k i c else None
  | WordB => if wordBoundary s i then k i c else None
  end.

Definition accept : cont := fun j c => Some (j, c).

(** A match: where it starts, where it ends, and the groups it captured. *)
Record rmatch_result : Type := MkMatch { m_start : nat; m_end : nat; m_caps : caps }.

Fixpoint exec_from (s : jsstring) (r : regex) (fuel i : nat) : option rmatch_result :=
  match rmatch s r i [] accept with
  | Some (j, c) => Some (MkMatch i j c)
  | None =>
      match fuel with
      | 0 => None
      | S fuel' => exec_from s r fuel' (S i)
      end
  end.

(** [RegExp.prototype.exec] with [lastIndex]: the leftmost match at or after
    [lastIndex], or nothing. *)
Definition exec (r : regex) (s : jsstring) (lastIndex : nat) : option rmatch_result :=
  if length s <? lastIndex then None
  else exec_from s r (length s - lastIndex) lastIndex.

Fixpoint lookup_cap (n : nat) (c : caps) : option (nat * nat) :=
  match c with
  | [] => None
  | (m, ij) :: t => if n =? m then Some ij else lookup_cap n t
  end.

(** The text of group [n], the empty string when the group took no part. *)
Definition group (s : jsstring) (m : rmatch_result) (n : nat) : jsstring :=
  match lookup_cap n (m_caps m) with
  | Some (i, j) => substring s i j
  | None => []
  end.

Definition test (r : regex) (s : jsstring) : bool :=
  match exec r s 0 with Some _ => true | None => false end.

(** A replacement: a function of the subject and the match.  A replacement
    string without [$] is a constant function. *)
Definition replacer := jsstring -> rmatch_result -> jsstring.
Definition const_rep (t : jsstring) : replacer := fun _ _ => t.

(** [s.replace(r, f)] for a regular expression without the [g] flag. *)
Definition replace (r : regex) (f : replacer) (s : jsstring) : jsstring :=
  match exec r s 0 with
  | None => s
  | Some m => firstn (m_start m) s ++ f s m ++ skipn (m_end m) s
  end.

(** [s.replace(r, f)] with the [g] flag: [p] is [lastIndex], [q] the end of the
    previous match; after an empty match [lastIndex] moves on by one. *)
Fixpoint replace_loop (r : regex) (f : replacer) (s : jsstring) (fuel p q : nat) : jsstring :=
  match fuel with
  | 0 => skipn q s
  | S fuel' =>
      match exec r s p with
      | None => skipn q s
      | Some m =>
          substring s q (m_start m) ++ f s m
          ++ replace_loop r f s fuel' (if m_end m =? m_start m then S (m_end m) else m_end m) (m_end m)
      end
  end.

Definition replaceAll (r : regex) (f : replacer) (s : jsstring) : jsstring :=
  replace_loop r f s (S (S (length s))) 0 0.

(** [while ((m = r.exec(s)) !== null)] for a regular expression with the [g]
    flag: the successive matches.  Every regular expression the source runs
    this way consumes at least one code unit, so [lastIndex] grows. *)
Fixpoint exec_loop (r : regex) (s : jsstring) (fuel p : nat) : list rmatch_result :=
  match fuel with
  | 0 => []
  | S fuel' =>
      match exec r s p with
      | None => []
      | Some m => m :: exec_loop r s fuel' (Nat.max (m_end m) (S p))
      end
  end.

Definition execAll (r : regex) (s : jsstring) : list rmatch_result :=
  exec_loop r s (S (S (length s))) 0.

Fixpoint Seqs (l : list regex) : regex :=
  match l with
  | [] => Empty
  | [r] => r
  | r :: t => Seq r (Seqs t)
  end.

(** [r{0,n}], greedy. *)
Fixpoint Upto (n : nat) (r : regex) : regex :=
  match n with
  | 0 => Empty
  | S n' => Opt (Seq r (Upto n' r))
  end.

Definition ws : regex := Char isSpace.
Definition digit : regex := Char isDigit.
Definition C (a : ascii) : regex := Char (eqc (ch a)).

(** ** The profile-only parser: string helpers *)

(** [/[^\d+]/g] *)
Definition re_not_digit_plus : regex :=
  Char (fun c => negb (isDigit c || eqc (ch "+") c)).

(** [/^\+(\d{1,3})(\d+)$/] *)
Definition re_phone : regex :=
  Seqs [Bol; C "+"; Group 1 (Seq digit (Upto 2 digit)); Group 2 (Plus digit); Eol].

Definition formatPhone (phone : jsstring) : jsstring :=
  match phone with
  | [] => []
  | _ =>
      let cleaned := replaceAll re_not_digit_plus (const_rep []) phone in
      if startsWith (lit "+") cleaned then
        match exec re_phone cleaned 0 with
        | Some m => lit "+" ++ group cleaned m 1 ++ lit " " ++ group cleaned m 2
        | None => phone
        end
      else phone
  end.

(** What [formatPhone] keeps of the phone before it looks at it. *)
Definition keepPhoneChar (c : char) : bool := (isDigit c || eqc (ch "+") c)%bool.

(** The part of [re_phone] after the first group: [(\d+)$]. *)
Definition phone_tail : regex := Seq (Group 2 (Plus digit)) Eol.
Definition phone_body : regex := Seq (Group 1 (Seq digit (Upto 2 digit))) phone_tail.

(** The split the matcher returns: the first group takes three digits when
    at least four follow the sign, otherwise all but the last. *)
Definition countryLen (ds : jsstring) : nat := Nat.min 3 (length ds - 1).

(** [(\||,|\/|–|-)] as group [n] *)
Definition sep_group (n : nat) : regex :=
  Group n (Alts [C "|"; C ","; C "/"; Char (eqc en_dash); C "-"]).

(** [/\b(remote|work from home|wfh|virtual|fully remote)\b/gi] *)
Definition re_remote_word : regex :=
  Seqs [WordB;
        Group 1 (Alts [LitI "remote"; LitI "work from home"; LitI "wfh";
                       LitI "virtual"; LitI "fully remote"]);
        WordB].

(** [/\s*[\(\[]?\s*(remote|wfh|virtual)\s*[\)\]]?\s*/gi] *)
Definition re_remote_paren : regex :=
  Seqs [StarG ws; Opt (Char (one_of (lit "([")));
        StarG ws; Group 1 (Alts [LitI "remote"; LitI "wfh"; LitI "virtual"]);
        StarG ws; Opt (Char (one_of (lit ")]"))); StarG ws].

(** [/\s*(\||,|\/|–|-)\s*(\||,|\/|–|-)\s*/g] *)
Definition re_two_seps : regex :=
  Seqs [StarG ws; sep_group 1; StarG ws; sep_group 2; StarG ws].

(** [/\s*(\||,|\/|–|-)\s*$/g] *)
Definition re_sep_end : regex := Seqs [StarG ws; sep_group 1; StarG ws; Eol].

(** [/^\s*(\||,|\/|–|-)\s*/g] *)
Definition re_sep_start : regex := Seqs [Bol; StarG ws; sep_group 1; StarG ws].

(** [/\s{2,}/g] *)
Definition re_spaces2 : regex := Seqs [ws; ws; StarG ws].

Definition cleanLocation (location : jsstring) : jsstring :=
  match location with
  | [] => []
  | _ =>
      trim
        (replaceAll re_spaces2 (const_rep (lit " "))
        (replaceAll re_sep_start (const_rep [])
        (replaceAll re_sep_end (const_rep [])
        (replaceAll re_two_seps (const_rep (lit " | "))
        (replaceAll re_remote_paren (const_rep [])
        (replaceAll re_remote_word (const_rep []) location))))))
  end.

(** [/--/g], [/-/g] and [/\s*–\s*/g] *)
Definition re_two_hyphens : regex := Lit "--".
Definition re_hyphen : regex := C "-".
Definition re_dash_spaced : regex := Seqs [StarG ws; Char (eqc en_dash); StarG ws].

Definition spaced_dash : jsstring := [ch " "; en_dash; ch " "].

Definition normalizeDates (dateStr : jsstring) : jsstring :=
  match dateStr with
  | [] => []
  | _ =>
      replaceAll re_dash_spaced (const_rep spaced_dash)
        (replaceAll re_hyphen (const_rep [en_dash])
        (replaceAll re_two_hyphens (const_rep [en_dash]) dateStr))
  end.

(** [/^[-•*▪▸►]\s*/] *)
Definition isMarker (c : char) : bool :=
  one_of [ch "-"; bullet_dot; ch "*"; small_square; small_tri; pointer_tri] c.
Definition re_bullet_marker : regex := Seqs [Bol; Char isMarker; StarG ws].

(** The callback of [bullets.map] in [parseProfileExperience]. *)
Definition cleanBullet (bullet : jsstring) : jsstring :=
  trim (replace re_bullet_marker (const_rep []) bullet).

(** ** Values of the language

    What a profile can hold: the values of JSON, and [undefined].  An object
    is a list of fields, the first field of a name being the one the name
    denotes. *)

(** A number is a double.  The code does no arithmetic on the numbers of a
    profile: it asks of a number only whether it is truthy ([0], [-0] and
    [NaN] are not) and what [String] makes of it, so a number is given by
    these two. *)
Record number : Type := MkNumber {
  numberTruthy : bool;
  numberText : jsstring
}.

#[warnings="-register-all"]
Inductive value : Type :=
| VUndefined
| VNull
| VBool (b : bool)
| VNumber (n : number)
| VString (s : jsstring)
| VArray (items : list value)
| VObject (fields : list (string * value)).

(** A thrown [TypeError] and its [message]; the texts are those of V8. *)
Inductive error : Type := TypeError (text : jsstring).
Definition message (e : error) : jsstring := match e with TypeError t => t end.

Inductive result (A : Type) : Type :=
| Ok (a : A)
| Throw (e : error).
Arguments Ok {A} a.
Arguments Throw {A} e.

Definition bind {A B} (x : result A) (k : A -> result B) : result B :=
  match x with
  | Ok a => k a
  | Throw e => Throw e
  end.

Notation "x <- e1 ;; e2" := (bind e1 (fun x => e2))
  (at level 61, e1 at next level, right associativity).

(** [try { body } catch (error) { handler }] *)
Definition try_catch {A} (body : result A) (handler : error -> result A) : result A :=
  match body with
  | Ok a => Ok a
  | Throw e => handler e
  end.

Fixpoint mapM {A B} (f : A -> result B) (l : list A) : result (list B) :=
  match l with
  | [] => Ok []
  | a :: t => b <- f a ;; bs <- mapM f t ;; Ok (b :: bs)
  end.

Definition truthy (v : value) : bool :=
  match v with
  | VUndefined | VNull => false
  | VBool b => b
  | VNumber n => numberTruthy n
  | VString s => match s with [] => false | _ => true end
  | VArray _ | VObject _ => true
  end.

(** [a || b] *)
Definition or_else (a b : value) : value := if truthy a then a else b.

Fixpoint lookup (k : string) (fields : list (string * value)) : value :=
  match fields with
  | [] => VUndefined
  | (k', v) :: t => if String.eqb k k' then v else lookup k t
  end.

(** [o?.k], for the property names the parser reads: none of them is a
    property of a string, a number, a boolean or an array. *)
Definition getOpt (o : value) (k : string) : value :=
  match o with
  | VObject fields => lookup k fields
  | _ => VUndefined
  end.

(** [o.k] *)
Definition get (o : value) (k : string) : result value :=
  match o with
  | VUndefined =>
      Throw (TypeError (lit "Cannot read properties of undefined (reading '"
                        ++ lit k ++ lit "')"))
  | VNull =>
      Throw (TypeError (lit "Cannot read properties of null (reading '"
                        ++ lit k ++ lit "')"))
  | _ => Ok (getOpt o k)
  end.

Definition decimal (n : Z) : jsstring := lit (NilZero.string_of_int (Z.to_int n)).

(** The integer [n], for [n] of magnitude below 2^53: such a number is
    printed with all its digits. *)
Definition integer (n : Z) : number := MkNumber (negb (n =? 0)%Z) (decimal n).

(** Whether an object has a field of its own with the name [k]. *)
Definition hasOwn (k : string) (fields : list (string * value)) : bool :=
  existsb (fun field => String.eqb k (fst field)) fields.

Definition notPrimitive : error :=
  TypeError (lit "Cannot convert object to primitive value").

(** [String(v)], which is also what a template literal does to [v].  An array
    joins its elements with commas, [null] and [undefined] giving nothing.
    An object is converted by its [toString] method and, failing that, by
    [valueOf]: the inherited [toString] gives [[object Object]]; a field
    [toString] of the object's own hides it, and as no value of a profile can
    be called and the inherited [valueOf] returns the object itself, the
    conversion then throws. *)
Fixpoint toString (v : value) : result jsstring :=
  match v with
  | VUndefined => Ok (lit "undefined")
  | VNull => Ok (lit "null")
  | VBool true => Ok (lit "true")
  | VBool false => Ok (lit "false")
  | VNumber n => Ok (numberText n)
  | VString s => Ok s
  | VArray items =>
      parts <- (fix elements (l : list value) : result (list jsstring) :=
                  match l with
                  | [] => Ok []
                  | x :: t =>
                      part <- match x with
                              | VUndefined | VNull => Ok []
                              | _ => toString x
                              end ;;
                      rest <- elements t ;;
                      Ok (part :: rest)
                  end) items ;;
      Ok (join (lit ",") parts)
  | VObject fields =>
      if hasOwn "toString" fields then Throw notPrimitive
      else Ok (lit "[object Object]")
  end.

(** What [join] makes of one element. *)
Definition elementText (x : value) : result jsstring :=
  match x with
  | VUndefined | VNull => Ok []
  | _ => toString x
  end.

(** [items.join(sep)] *)
Definition joinArray (sep : jsstring) (items : list value) : result jsstring :=
  parts <- mapM elementText items ;;
  Ok (join sep parts).

(** [s.split(sep)] for a separator that is not empty. *)
Fixpoint split_at (sep : jsstring) (s : jsstring) (skip : nat) (cur : jsstring)
    : list jsstring :=
  match s with
  | [] => [rev cur]
  | c :: t =>
      match skip with
      | S k => split_at sep t k cur
      | 0 =>
          if startsWith sep s then rev cur :: split_at sep t (length sep - 1) []
          else split_at sep t 0 (c :: cur)
      end
  end.

Definition split (sep s : jsstring) : list jsstring := split_at sep s 0 [].

Definition newline : jsstring := [10%N].

(** ** The profile-only parser *)

(** [formatPhone], [cleanLocation] and [normalizeDates] on a value that need
    not be a string: [replace] is a method of strings only. *)
Definition formatPhone_dyn (phone : value) : result jsstring :=
  if negb (truthy phone) then Ok []
  else match phone with
       | VString s => Ok (formatPhone s)
       | _ => Throw (TypeError (lit "phone.replace is not a function"))
       end.

Definition cleanLocation_dyn (location : value) : result jsstring :=
  if negb (truthy location) then Ok []
  else match location with
       | VString s => Ok (cleanLocation s)
       | _ => Throw (TypeError (lit "location.replace is not a function"))
       end.

Definition normalizeDates_dyn (dateStr : value) : result jsstring :=
  if negb (truthy dateStr) then Ok []
  else text <- toString dateStr ;; Ok (normalizeDates text).

(** [v.trim()] *)
Definition trim_dyn (v : value) : result jsstring :=
  match v with
  | VString s => Ok (trim s)
  | VUndefined =>
      Throw (TypeError (lit "Cannot read properties of undefined (reading 'trim')"))
  | VNull => Throw (TypeError (lit "Cannot read properties of null (reading 'trim')"))
  | _ => Throw (TypeError (lit "(intermediate value).trim is not a function"))
  end.

Record contactInfo : Type := MkContact {
  name : jsstring;
  email : value;
  phone : jsstring;
  location : jsstring;
  linkedin : value;
  github : value;
  portfolio : value
}.

Definition empty : value := VString [].

Definition extractContactInfo (profile : value) : result contactInfo :=
  let firstName := or_else (or_else (getOpt profile "firstName") (getOpt profile "first_name")) empty in
  let lastName := or_else (or_else (getOpt profile "lastName") (getOpt profile "last_name")) empty in
  first <- toString firstName ;;
  last <- toString lastName ;;
  let name := trim (first ++ lit " " ++ last) in
  let email := or_else (getOpt profile "email") empty in
  phone <- formatPhone_dyn (or_else (getOpt profile "phone") empty) ;;
  location <- cleanLocation_dyn
                (or_else (or_else (getOpt profile "city") (getOpt profile "location")) empty) ;;
  Ok (MkContact name email phone location
        (or_else (getOpt profile "linkedin") empty)
        (or_else (getOpt profile "github") empty)
        (or_else (getOpt profile "portfolio") empty)).

Definition extractSummary (profile : value) : value :=
  or_else (or_else (or_else (getOpt profile "summary") (getOpt profile "professionalSummary"))
             (getOpt profile "profile")) empty.

Record jobEntry : Type := MkJob {
  company : jsstring;
  title : jsstring;
  titleLine : jsstring;
  dates : jsstring;
  jobLocation : value;
  bullets : list jsstring
}.

(** The callback of [bullets.map] on an element that need not be a string. *)
Definition cleanBullet_dyn (bullet : value) : result jsstring :=
  match bullet with
  | VString s => Ok (cleanBullet s)
  | VUndefined =>
      Throw (TypeError (lit "Cannot read properties of undefined (reading 'replace')"))
  | VNull => Throw (TypeError (lit "Cannot read properties of null (reading 'replace')"))
  | _ => Throw (TypeError (lit "bullet.replace is not a function"))
  end.

Definition nonEmpty (s : jsstring) : bool := match s with [] => false | _ => true end.

(** The body of the [forEach] callback of [parseProfileExperience]. *)
Definition parseJob (job : value) : result jobEntry :=
  company0 <- get job "company" ;;
  company <- trim_dyn (or_else (or_else company0 (getOpt job "organization")) empty) ;;
  title <- trim_dyn (or_else (or_else (or_else (getOpt job "title") (getOpt job "position"))
                                (getOpt job "role")) empty) ;;
  let dates0 := or_else (or_else (getOpt job "dates") (getOpt job "duration")) empty in
  dates1 <-
    (if (negb (truthy dates0)
         && truthy (or_else (getOpt job "startDate") (getOpt job "endDate")))%bool
     then
       let start := or_else (getOpt job "startDate") empty in
       let end_ := or_else (getOpt job "endDate") (VString (lit "Present")) in
       if truthy start
       then startText <- toString start ;; endText <- toString end_ ;;
            Ok (VString (startText ++ lit " - " ++ endText))
       else Ok end_
     else Ok dates0) ;;
  dates <- normalizeDates_dyn dates1 ;;
  let location := or_else (getOpt job "location") empty in
  let bullets0 := or_else (or_else (or_else (getOpt job "bullets") (getOpt job "achievements"))
                             (getOpt job "responsibilities")) (VArray []) in
  let bullets1 :=
    match bullets0 with
    | VString s => VArray (map VString (filter (fun b => nonEmpty (trim b)) (split newline s)))
    | _ => bullets0
    end in
  cleaned <- match bullets1 with
             | VArray items => mapM cleanBullet_dyn items
             | _ => Throw (TypeError (lit "bullets.map is not a function"))
             end ;;
  let cleanedBullets := filter nonEmpty cleaned in
  let titleLine := if nonEmpty dates then title ++ lit " | " ++ dates else title in
  Ok (MkJob company title titleLine dates location cleanedBullets).

Definition parseProfileExperience (workExperience : list value) : result (list jobEntry) :=
  mapM parseJob workExperience.

Record educationEntry : Type := MkEducation {
  institution : value;
  degree : value;
  eduDates : value;
  gpa : value
}.

Definition parseEducation (edu : value) : result educationEntry :=
  institution0 <- get edu "institution" ;;
  Ok (MkEducation
        (or_else (or_else (or_else institution0 (getOpt edu "school")) (getOpt edu "university"))
           empty)
        (or_else (getOpt edu "degree") empty)
        (or_else (or_else (getOpt edu "dates") (getOpt edu "graduationDate")) empty)
        (or_else (getOpt edu "gpa") empty)).

Definition extractEducation (profile : value) : result (list educationEntry) :=
  match or_else (getOpt profile "education") (VArray []) with
  | VArray items => mapM parseEducation items
  | _ => Ok []
  end.

Definition joinedList (v : value) : result jsstring :=
  match v with
  | VArray items => joinArray (lit ", ") items
  | VString s => Ok s
  | _ => Ok []
  end.

Definition extractSkills (profile : value) : result jsstring :=
  joinedList (or_else (getOpt profile "skills") (VArray [])).

Definition extractCertifications (profile : value) : result jsstring :=
  joinedList (or_else (getOpt profile "certifications") (VArray [])).

Record document : Type := MkDocument {
  contact : contactInfo;
  summary : value;
  experience : list jobEntry;
  education : list educationEntry;
  skills : jsstring;
  certifications : jsstring
}.

Definition extractTechnicalExperience (profileData : value) : result document :=
  contact <- extractContactInfo profileData ;;
  let summary := extractSummary profileData in
  let workExperience :=
    or_else (or_else (getOpt profileData "workExperience") (getOpt profileData "work_experience"))
      (VArray []) in
  experience <- match workExperience with
                | VArray (job :: jobs) => parseProfileExperience (job :: jobs)
                | _ => Ok []
                end ;;
  education <- extractEducation profileData ;;
  skills <- extractSkills profileData ;;
  certifications <- extractCertifications profileData ;;
  Ok (MkDocument contact summary experience education skills certifications).

Record metadata : Type := MkMetadata {
  parsedAt : jsstring;
  parser : jsstring;
  metaSource : jsstring;
  atsVersion : jsstring
}.

Record enhancedDocument : Type := MkEnhanced {
  enhancedData : document;
  enhancedMetadata : metadata
}.

(** [now] is what [new Date().toISOString()] gives. *)
Definition enhanceForATS (now : jsstring) (data : document) : enhancedDocument :=
  MkEnhanced data
    (MkMetadata now (lit "ProfileOnlyParser") (lit "profile_page_only") (lit "1.0.0")).

Section EntryPoint.

(** The readings of [performance.now()] and their difference are doubles; the
    model leaves them abstract. *)
Variable time : Type.
Variable elapsed : time -> time -> time.

Record environment : Type := MkEnv {
  startTime : time;
  endTime : time;
  isoDate : jsstring
}.

(** What the promise of [parseFromProfilePage] resolves to. *)
Inductive response : Type :=
| Success (data : enhancedDocument) (timing : time) (source : jsstring)
| Failure (errorMessage : jsstring).

Definition success (r : response) : bool :=
  match r with
  | Success _ _ _ => true
  | Failure _ => false
  end.

Definition parseFromProfilePage (env : environment) (profileData : value)
    : result response :=
  try_catch
    (parsedData <- extractTechnicalExperience profileData ;;
     let enhancedData := enhanceForATS (isoDate env) parsedData in
     let timing := elapsed (endTime env) (startTime env) in
     Ok (Success enhancedData timing (lit "profile_page_only")))
    (fun error => Ok (Failure (message error))).

End EntryPoint.

Arguments Success {time} data timing source.
Arguments Failure {time} errorMessage.
Arguments success {time} r.
Arguments parseFromProfilePage {time} elapsed env profileData.
Arguments isoDate {time} e.

(** Whether a value is an array with an element: what the guard in front of
    [parseProfileExperience] asks of the work experience. *)
Definition isFilledArray (v : value) : bool :=
  match v with
  | VArray (_ :: _) => true
  | _ => false
  end.






Definition phoneArg (profile : value) : value := or_else (getOpt profile "phone") empty.
Definition locationArg (profile : value) : value :=
  or_else (or_else (getOpt profile "city") (getOpt profile "location")) empty.





Definition sample_numeric_phone : value :=
  VObject [("phone"%string, VNumber (integer 5551234))].

(** ** The CV upload handler: text of a PDF file *)

(** [new TextDecoder('latin1')]: the label names windows-1252, which maps
    every byte to one code unit, the bytes 80 to 9F (hexadecimal) as below and
    every other byte to itself. *)
Definition cp1252_high : list char :=
  [8364; 129; 8218; 402; 8222; 8230; 8224; 8225; 710; 8240; 352; 8249; 338; 141; 381; 143;
   144; 8216; 8217; 8220; 8221; 8226; 8211; 8212; 732; 8482; 353; 8250; 339; 157; 382; 376]%N.

Definition decodeByte (b : Byte.byte) : char :=
  let n := Byte.to_N b in
  if in_range 128%N 159%N n then nth (N.to_nat (n - 128)%N) cp1252_high n else n.

Definition decodeLatin1 (data : list Byte.byte) : jsstring := map decodeByte data.

Definition backslash : char := 92%N.
Definition any : regex := Char (fun _ => true).
Definition isOctal (c : char) : bool := in_range 48%N 55%N c.
Definition notClose (c : char) : bool := negb (eqc (ch ")") c).
Definition isPrintable (c : char) : bool :=
  (in_range 32%N 126%N c || eqc 10%N c || eqc 13%N c)%bool.

(** [/\\n/g] and its like: a backslash and one more code unit. *)
Definition re_escape (a : ascii) : regex := Seq (Char (eqc backslash)) (C a).

(** [/\\([0-7]{1,3})/g] *)
Definition re_octal : regex :=
  Seq (Char (eqc backslash)) (Group 1 (Seq (Char isOctal) (Upto 2 (Char isOctal)))).

(** [parseInt(oct, 8)] on a string of octal digits. *)
Definition parseOctal (oct : jsstring) : N :=
  fold_left (fun acc c => (acc * 8 + (c - 48))%N) oct 0%N.

(** [String.fromCharCode(n)] *)
Definition fromCharCode (n : N) : jsstring := [(n mod 65536)%N].

Definition decodePDFString (str : jsstring) : jsstring :=
  replaceAll re_octal (fun s m => fromCharCode (parseOctal (group s m 1)))
    (replaceAll (re_escape "\") (const_rep [backslash])
    (replaceAll (re_escape ")") (const_rep (lit ")"))
    (replaceAll (re_escape "(") (const_rep (lit "("))
    (replaceAll (re_escape "t") (const_rep [9%N])
    (replaceAll (re_escape "r") (const_rep [13%N])
    (replaceAll (re_escape "n") (const_rep [10%N]) str)))))).

(** [/BT\s*([\s\S]*?)\s*ET/g] *)
Definition textBlockRegex : regex :=
  Seqs [Lit "BT"; StarG ws; Group 1 (StarL any); StarG ws; Lit "ET"].

(** An opening parenthesis, as group 1 the longest run without a closing
    parenthesis, a closing parenthesis, white space and [Tj]. *)
Definition tjRegex : regex :=
  Seqs [C "("; Group 1 (StarG (Char notClose)); C ")"; StarG ws; Lit "Tj"].

(** [/\[([\s\S]*?)\]\s*TJ/gi] *)
Definition tjArrayRegex : regex :=
  Seqs [C "["; Group 1 (StarL any); C "]"; StarG ws; LitI "TJ"].

(** The same without the white space and the operator. *)
Definition stringRegex : regex := Seqs [C "("; Group 1 (StarG (Char notClose)); C ")"].

(** [/stream\s*([\s\S]*?)\s*endstream/g] *)
Definition streamRegex : regex :=
  Seqs [Lit "stream"; StarG ws; Group 1 (StarL any); StarG ws; Lit "endstream"].

(** [/[^\x20-\x7E\n\r]/g], [/\s+/g] and [/([a-z])([A-Z])/g] *)
Definition re_nonprintable : regex := Char (fun c => negb (isPrintable c)).
Definition re_spaces : regex := Plus ws.
Definition re_camel : regex := Seq (Group 1 (Char isLower)) (Group 2 (Char isUpper)).

(** [/[a-zA-Z]/], [/^[0-9.]+$/] and [/[a-zA-Z]{2,}/] *)
Definition re_letter : regex := Char isLetter.
Definition re_number_word : regex :=
  Seqs [Bol; Plus (Char (fun c => (isDigit c || eqc (ch ".") c)%bool)); Eol].
Definition re_two_letters : regex := Seqs [Char isLetter; Char isLetter; StarG (Char isLetter)].

Definition space : jsstring := lit " ".

(** [s.split(r)] for a regular expression without groups that consumes at
    least one code unit: [p] is where the piece under way starts, [q] where a
    separator is tried next. *)
Fixpoint split_loop (r : regex) (s : jsstring) (fuel p q : nat) : list jsstring :=
  match fuel with
  | 0 => [skipn p s]
  | S fuel' =>
      if length s <=? q then [skipn p s]
      else
        match rmatch s r q [] accept with
        | None => split_loop r s fuel' p (S q)
        | Some (e, _) =>
            let e := Nat.min e (length s) in
            if e =? p then split_loop r s fuel' p (S q)
            else substring s p q :: split_loop r s fuel' e e
        end
  end.

Definition splitRe (r : regex) (s : jsstring) : list jsstring :=
  match s with
  | [] => match rmatch s r 0 [] accept with Some _ => [] | None => [[]] end
  | _ => split_loop r s (S (length s)) 0 0
  end.

(** The strings shown by the [Tj] operators of a block. *)
Definition tjStrings (block : jsstring) : list jsstring :=
  flat_map
    (fun tjMatch =>
       let decoded := decodePDFString (group block tjMatch 1) in
       if nonEmpty (trim decoded) then [decoded] else [])
    (execAll tjRegex block).

(** The lines shown by the [TJ] operators of a block. *)
Definition tjArrayLines (block : jsstring) : list jsstring :=
  flat_map
    (fun tjArrayMatch =>
       let arrayContent := group block tjArrayMatch 1 in
       let lineText :=
         flat_map
           (fun stringMatch =>
              let decoded := decodePDFString (group arrayContent stringMatch 1) in
              if nonEmpty decoded then [decoded] else [])
           (execAll stringRegex arrayContent) in
       match lineText with
       | [] => []
       | _ => [concat lineText]
       end)
    (execAll tjArrayRegex block).

Definition blockTexts (text : jsstring) : list jsstring :=
  flat_map
    (fun m => let block := group text m 1 in tjStrings block ++ tjArrayLines block)
    (execAll textBlockRegex text).

(** Printable text with its white space collapsed: what both fallbacks
    start from. *)
Definition readableAscii (s : jsstring) : jsstring :=
  trim (replaceAll re_spaces (const_rep space) (replaceAll re_nonprintable (const_rep space) s)).

Definition isStreamWord (w : jsstring) : bool :=
  ((2 <=? length w) && test re_letter w && negb (test re_number_word w))%bool.

Definition streamTexts (text : jsstring) : list jsstring :=
  flat_map
    (fun m =>
       let streamContent := group text m 1 in
       let readableText := readableAscii streamContent in
       if 50 <? length readableText then
         let words := filter isStreamWord (split space readableText) in
         if 5 <? length words then [join space words] else []
       else [])
    (execAll streamRegex text).

Definition isMeaningfulWord (word : jsstring) : bool :=
  ((3 <=? length word) && test re_two_letters word)%bool.

(** Nothing in the body throws, so the [catch] branch is never taken. *)
Definition extractTextFromPDF (data : list Byte.byte) : jsstring :=
  let text := decodeLatin1 data in
  let extractedText := blockTexts text ++ streamTexts text in
  let result :=
    trim (replaceAll re_camel (fun s m => group s m 1 ++ space ++ group s m 2)
            (replaceAll re_spaces (const_rep space) (join space extractedText))) in
  if length result <? 200 then
    let asciiText := readableAscii text in
    let meaningfulParts :=
      join space (filter isMeaningfulWord (splitRe re_spaces asciiText)) in
    if length result <? length meaningfulParts then meaningfulParts else result
  else result.

(** [w] is a part of [s]. *)
Definition Contains (w s : jsstring) : Prop := exists a b, s = a ++ w ++ b.

Definition encodeAscii (s : string) : list Byte.byte :=
  map byte_of_ascii (list_ascii_of_string s).

(** ** The CV upload handler: work-experience focusing *)

(** [s.indexOf(m, position)]: the least index at or after [position] where
    [m] occurs in [s], [-1] when there is none. *)
Fixpoint find_from (m s : jsstring) (k : nat) : option nat :=
  if startsWith m s then Some k
  else match s with
       | [] => None
       | _ :: t => find_from m t (S k)
       end.

(** The position clamped to the string. *)
Definition clampIndex (s : jsstring) (position : Z) : nat :=
  Z.to_nat (Z.min (Z.max position 0) (Z.of_nat (length s))).

Definition indexOf (s m : jsstring) (position : Z) : Z :=
  let start := clampIndex s position in
  match find_from m (skipn start s) start with
  | Some k => Z.of_nat k
  | None => (-1)%Z
  end.

(** [s.slice(a, b)]: a negative index counts from the end, both are clamped
    to the string. *)
Definition slice (s : jsstring) (a b : Z) : jsstring :=
  let len := Z.of_nat (length s) in
  let from := if (a <? 0)%Z then Z.max (len + a) 0 else Z.min a len in
  let to := if (b <? 0)%Z then Z.max (len + b) 0 else Z.min b len in
  firstn (Z.to_nat (to - from)) (skipn (Z.to_nat from) s).

Definition startMarkers : list jsstring :=
  [lit "WORK EXPERIENCE"; lit "PROFESSIONAL EXPERIENCE"; lit "EXPERIENCE";
   lit "EMPLOYMENT HISTORY"].

Definition endMarkers : list jsstring :=
  [lit "EDUCATION"; lit "CERTIFICATIONS"; lit "SKILLS"; lit "PROJECTS";
   lit "LANGUAGES"; lit "ACHIEVEMENTS"; lit "INTERESTS"].

(** The first loop: the first marker of the list that occurs decides. *)
Fixpoint findStart (upper : jsstring) (markers : list jsstring) : Z :=
  match markers with
  | [] => (-1)%Z
  | m :: t =>
      let idx := indexOf upper m 0 in
      if (idx =? -1)%Z then findStart upper t else idx
  end.

(** The second loop, which keeps the least index of a terminator at or after
    [start + 20]: its body and the loop. *)
Definition end_step (upper : jsstring) (position : Z) (e : Z) (m : jsstring) : Z :=
  let idx := indexOf upper m position in
  if (negb (idx =? -1) && (idx <? e))%Z%bool then idx else e.

Definition findEnd (upper : jsstring) (start : Z) (markers : list jsstring) : Z :=
  fold_left (end_step upper (start + 20)) markers (Z.of_nat (length upper)).

Definition nonempty_all (ms : list jsstring) : Prop := forall m, In m ms -> m <> [].


(** ASCII upper-casing: what [String.prototype.toUpperCase] does to a string
    of ASCII code units. *)
Definition asciiUpper (s : jsstring) : jsstring :=
  map (fun c => if isLower c then (c - 32)%N else c) s.

Section Focus.

(** [String.prototype.toUpperCase], a built-in of the language: it follows the
    Unicode case mappings and may change the length of a string. *)
Variable toUpperCase : jsstring -> jsstring.

Definition getWorkExperienceFocusedText (fullText : jsstring) : jsstring :=
  let text := fullText in
  let upper := toUpperCase text in
  let start := findStart upper startMarkers in
  if (start =? -1)%Z then slice text 0 20000
  else
    let e := findEnd upper start endMarkers in
    let section := slice text start e in
    if (25000 <? Z.of_nat (length section))%Z then slice section 0 25000 else section.

End Focus.

(** ** The CV upload handler: the readability check *)

(** [/[^a-zA-Z0-9\s.,;:!?@#$%&*()\-]/g] *)
Definition re_unreadable : regex :=
  Char (fun c => negb (isLetter c || isDigit c || isSpace c
                       || one_of (lit ".,;:!?@#$%&*()-") c)).

(** [/\b(experience|education|skills|work|company|university|degree|manager|developer|engineer|analyst)\b/i] *)
Definition re_common_words : regex :=
  Seqs [WordB;
        Group 1 (Alts [LitI "experience"; LitI "education"; LitI "skills"; LitI "work";
                       LitI "company"; LitI "university"; LitI "degree"; LitI "manager";
                       LitI "developer"; LitI "engineer"; LitI "analyst"]);
        WordB].

(** [ratio > 0.4] compares two doubles; for lengths below 2^50 the quotient of
    the two lengths exceeds the double nearest to 0.4 exactly when
    [5 * readable.length > 2 * text.length]. *)
Definition isTextReadable (text : jsstring) : bool :=
  match text with
  | [] => false
  | _ =>
      if length text <? 100 then false
      else
        let readable := replaceAll re_unreadable (const_rep []) text in
        let hasCommonWords := test re_common_words text in
        ((2 * length text <? 5 * length readable) && hasCommonWords)%bool
  end.

(** [m] occurs in [s] at index [i]. *)
Definition OccursAt (m s : jsstring) (i : nat) : Prop :=
  startsWith m (skipn i s) = true.

(** No string of [ms] occurs in [s] at an index in [lo, hi). *)
Definition NoneOccurs (ms : list jsstring) (s : jsstring) (lo hi : nat) : Prop :=
  forall m i, In m ms -> lo <= i < hi -> ~ OccursAt m s i.

(** Where the section ends: the least index at or after [lo] where a
    terminator occurs in [upper], the length of [upper] when none does. *)
Definition SectionEnd (upper : jsstring) (lo e : nat) : Prop :=
  NoneOccurs endMarkers upper lo e
  /\ (e = length upper \/ (lo <= e /\ exists m, In m endMarkers /\ OccursAt m upper e)).

(** The focusing as the specification words it: the section runs from the
    first occurrence of any section header to the first occurrence of any
    terminator after it, capped at 25000 code units. *)
Definition FirstHeader (upper : jsstring) (i : nat) : Prop :=
  (exists m, In m startMarkers /\ OccursAt m upper i)
  /\ NoneOccurs startMarkers upper 0 i.

Definition NextTerminator (upper : jsstring) (i e : nat) : Prop :=
  i <= e /\ (exists m, In m endMarkers /\ OccursAt m upper e)
  /\ NoneOccurs endMarkers upper i e.

Definition focus_as_stated (upper text result : jsstring) : Prop :=
  forall i e, FirstHeader upper i -> NextTerminator upper i e ->
    result = firstn (Z.to_nat 25000) (substring text i e).

(** Upper-casing keeps the places of [text]: the upper-cased text is as long
    as the text, and every part of it is the upper-casing of the same part of
    the text.  It is so when every character of the text upper-cases to one
    character, as in a text of ASCII characters; it is not so where a
    character upper-cases to two, as the sharp s does. *)
Definition KeepsPlaces (toUpperCase : jsstring -> jsstring) (text : jsstring) : Prop :=
  length (toUpperCase text) = length text
  /\ forall i j, toUpperCase (substring text i j) = substring (toUpperCase text) i j.

(** A decision procedure for [NoneOccurs] on concrete strings. *)
Definition noneOccursb (ms : list jsstring) (s : jsstring) (lo hi : nat) : bool :=
  forallb (fun m => forallb (fun i => negb (startsWith m (skipn i s))) (seq lo (hi - lo))) ms.

Definition sample_no_header : jsstring := lit "Curriculum vitae of Ada".
Definition sample_early_terminator : jsstring :=
  lit "Experience. Skills used: Rust. Education: MIT".
Definition sample_two_headers : jsstring :=
  lit "Employment history at ACME; work experience: built compilers. Education: MIT".

(** The least number of code units a match of [r] consumes, and the code
    units a match of [r] can consume. *)
Fixpoint min_len (r : regex) : nat :=
  match r with
  | Char _ => 1
  | Seq r1 r2 => min_len r1 + min_len r2
  | Alt r1 r2 => Nat.min (min_len r1) (min_len r2)
  | Group _ r1 => min_len r1
  | Empty | Star _ _ | Bol | Eol | WordB => 0
  end.

Fixpoint alphabet (r : regex) (x : char) : bool :=
  match r with
  | Char p => p x
  | Seq r1 r2 | Alt r1 r2 => (alphabet r1 x || alphabet r2 x)%bool
  | Star _ r1 | Group _ r1 => alphabet r1 x
  | Empty | Bol | Eol | WordB => false
  end.

(** Every en dash of [out] has a space right before it and right after it. *)
Definition DashSpaced (out : jsstring) : Prop :=
  forall a b, out = a ++ en_dash :: b ->
    (exists a', a = a' ++ [ch " "]) /\ (exists b', b = ch " " :: b').


(** Its first half: what [replace(/--/g, '–')] does. *)
Fixpoint pairsToDash (s : jsstring) : jsstring :=
  match s with
  | [] => []
  | c :: t =>
      match t with
      | c2 :: t2 =>
          if (eqc (ch "-") c && eqc (ch "-") c2)%bool then en_dash :: pairsToDash t2
          else c :: pairsToDash t
      | [] => [c]
      end
  end.

Definition hyphenToDash (c : char) : char := if eqc (ch "-") c then en_dash else c.


(** [w] lies in [s] from index [i] on. *)
Definition At (w s : jsstring) (i : nat) : Prop :=
  forall k x, nth_error w k = Some x -> nth_error s (i + k) = Some x.

Fixpoint has_group (r : regex) : bool :=
  match r with
  | Group _ _ => true
  | Seq r1 r2 | Alt r1 r2 => (has_group r1 || has_group r2)%bool
  | Star _ r1 => has_group r1
  | Empty | Char _ | Bol | Eol | WordB => false
  end.

(** The text object of the claim about PDF files, and its parts. *)
Definition hello : jsstring := lit "Hello".
Definition tj_text : jsstring := lit "(Hello) Tj".
Definition pdf_block : jsstring := lit "BT (Hello) Tj ET".

(** [o] is [s] with a space put between some lower-case letters and the
    upper-case letters that follow them. *)
Inductive Spaced : jsstring -> jsstring -> Prop :=
| Sp_nil : Spaced [] []
| Sp_keep c s o : Spaced s o -> Spaced (c :: s) (c :: o)
| Sp_split c1 c2 s o :
    isLower c1 = true -> isUpper c2 = true -> Spaced s o ->
    Spaced (c1 :: c2 :: s) (c1 :: ch " " :: c2 :: o).

(** No lower-case letter of [v] is followed by an upper-case letter. *)
Fixpoint noCamel (v : jsstring) : bool :=
  match v with
  | [] => true
  | c :: v' =>
      (match v' with
       | c2 :: _ => negb (isLower c && isUpper c2)
       | [] => true
       end && noCamel v')%bool
  end.

(** [w] stands in [s] as a word: white space or nothing on either side. *)
Definition EndsWs (a : jsstring) : Prop :=
  a = [] \/ exists a' c, a = a' ++ [c] /\ isSpace c = true.

Definition StartsWs (b : jsstring) : Prop :=
  b = [] \/ exists c b', b = c :: b' /\ isSpace c = true.

Definition Token (w s : jsstring) : Prop :=
  exists a b, s = a ++ w ++ b /\ EndsWs a /\ StartsWs b.

Definition hello_word : jsstring := lit "(Hello)".

(** ** What a regular expression matches

    [Run s r i c j c']: [r] can match the code units of [s] from position [i]
    to position [j], turning the captures [c] into [c'].  The relation says
    which matches exist; which of them the matcher returns first is a matter
    of [rmatch]. *)
Inductive Run (s : jsstring) : regex -> nat -> caps -> nat -> caps -> Prop :=
| R_Empty i c : Run s Empty i c i c
| R_Char p i c x :
    nth_error s i = Some x -> p x = true -> Run s (Char p) i c (S i) c
| R_Seq r1 r2 i c j c' k c'' :
    Run s r1 i c j c' -> Run s r2 j c' k c'' -> Run s (Seq r1 r2) i c k c''
| R_AltL r1 r2 i c j c' : Run s r1 i c j c' -> Run s (Alt r1 r2) i c j c'
| R_AltR r1 r2 i c j c' : Run s r2 i c j c' -> Run s (Alt r1 r2) i c j c'
| R_Star0 g r i c : Run s (Star g r) i c i c
| R_StarS g r i c j c' k c'' :
    Run s r i c j c' -> i < j -> Run s (Star g r) j c' k c'' ->
    Run s (Star g r) i c k c''
| R_Group n r i c j c' :
    Run s r i c j c' -> Run s (Group n r) i c j ((n, (i, j)) :: c')
| R_Bol c : Run s Bol 0 c 0 c
| R_Eol c : Run s Eol (length s) c (length s) c
| R_WordB i c : wordBoundary s i = true -> Run s WordB i c i c.

(** [r] has a match that starts at position [i]. *)
Definition MatchAt (s : jsstring) (r : regex) (i : nat) : Prop :=
  exists j c', Run s r i [] j c'.

(** ** The profile-only parser: the text for an applicant tracking system *)

(** The lines one job adds, and the line of one education entry. *)
Definition jobLines (job : jobEntry) : list value :=
  [VString (company job); VString (titleLine job)]
  ++ map (fun bullet => VString (bullet_dot :: ch " " :: bullet)) (bullets job)
  ++ [VString []].

Definition educationLine (edu : educationEntry) : result value :=
  let parts := [degree edu; institution edu]
               ++ (if truthy (gpa edu) then [gpa edu] else []) in
  line <- joinArray (lit " | ") parts ;;
  Ok (VString line).

Section ATSText.

Variable toUpperCase : jsstring -> jsstring.

(** [lines] grows by [push]; the model appends what each step pushes. *)
Definition generateATSText (profileData : value) : result jsstring :=
  parsed <- extractTechnicalExperience profileData ;;
  let contact := contact parsed in
  let contactParts :=
    filter truthy [VString (phone contact); email contact; VString (location contact)] in
  let links :=
    (if truthy (linkedin contact) then [linkedin contact] else [])
    ++ (if truthy (github contact) then [github contact] else [])
    ++ (if truthy (portfolio contact) then [portfolio contact] else []) in
  contactLine <-
    (if 0 <? length contactParts
     then joined <- joinArray (lit " | ") contactParts ;;
          Ok [VString (joined ++ (if nonEmpty (location contact)
                                  then lit " | Open to relocation" else []))]
     else Ok []) ;;
  linksLine <-
    (if (truthy (linkedin contact) || truthy (github contact)
         || truthy (portfolio contact))%bool
     then joined <- joinArray (lit " | ") links ;; Ok [VString joined]
     else Ok []) ;;
  educationLines <-
    (if 0 <? length (education parsed)
     then entries <- mapM educationLine (education parsed) ;;
          Ok (VString (lit "EDUCATION") :: entries ++ [VString []])
     else Ok []) ;;
  let lines :=
    [VString (toUpperCase (name contact))]
    ++ contactLine
    ++ linksLine
    ++ [VString []]
    ++ (if truthy (summary parsed)
        then [VString (lit "PROFESSIONAL SUMMARY"); summary parsed; VString []]
        else [])
    ++ (if 0 <? length (experience parsed)
        then VString (lit "WORK EXPERIENCE") :: flat_map jobLines (experience parsed)
        else [])
    ++ educationLines
    ++ (if nonEmpty (skills parsed)
        then [VString (lit "SKILLS"); VString (skills parsed); VString []]
        else [])
    ++ (if nonEmpty (certifications parsed)
        then [VString (lit "CERTIFICATIONS"); VString (certifications parsed)]
        else []) in
  joinArray newline lines.

End ATSText.

(** ** The CV upload handler: text of a DOCX file *)

Definition notGt (c : char) : bool := negb (eqc (ch ">") c).
Definition notLt (c : char) : bool := negb (eqc (ch "<") c).

(** The opening tag [<w:t] with its attributes up to [>], as group 1 the
    longest run without [<], and the closing tag [</w:t>]. *)
Definition paraTagRegex : regex :=
  Seqs [Lit "<w:t"; StarG (Char notGt); C ">"; Group 1 (StarG (Char notLt)); Lit "</w:t>"].

(** The texts of the runs of one paragraph, the empty ones left out. *)
Definition paraTexts (para : jsstring) : list jsstring :=
  flat_map
    (fun paraMatch =>
       let text := group para paraMatch 1 in
       if nonEmpty text then [text] else [])
    (execAll paraTagRegex para).

(** The loop over the paragraphs: what [fullText] holds after it. *)
Definition fullText (documentXml : jsstring) : jsstring :=
  flat_map
    (fun para =>
       let paraTexts := paraTexts para in
       if 0 <? length paraTexts then concat paraTexts ++ newline else [])
    (split (lit "</w:p>") documentXml).

(** What the archive library gives for [word/document.xml]: it throws, it
    finds no such file, or it returns the text of the file. *)
Inductive zipEntry : Type :=
| ZipError
| ZipMissing
| ZipText (text : jsstring).

Section Docx.

(** [new JSZip().loadAsync(data)] and [file(...)?.async("string")], a library. *)
Variable readZipEntry : list Byte.byte -> zipEntry.

(** The matches collected in [textParts] and [allText] and the string
    [result] are never read; what is returned comes from the loop over the
    paragraphs. *)
Definition extractTextFromDOCX (data : list Byte.byte) : jsstring :=
  match readZipEntry data with
  | ZipError => []
  | ZipMissing => []
  | ZipText documentXml =>
      if nonEmpty documentXml then trim (fullText documentXml) else []
  end.

End Docx.

(** ** The CV upload handler: the request *)

Fixpoint eqs (a b : jsstring) : bool :=
  match a, b with
  | [], [] => true
  | x :: a', y :: b' => (N.eqb x y && eqs a' b')%bool
  | _, _ => false
  end.

Definition mimeType (fileExtension : jsstring) : jsstring :=
  if eqs fileExtension (lit "pdf") then lit "application/pdf"
  else if eqs fileExtension (lit "docx")
  then lit "application/vnd.openxmlformats-officedocument.wordprocessingml.document"
  else lit "application/msword".

(** Which text the model is given, and under which name the handler reports
    it. *)
Inductive inputType : Type := FocusedText | ExtractedText | Base64Snippet.

Definition inputTypeName (t : inputType) : jsstring :=
  match t with
  | FocusedText => lit "focused_text"
  | ExtractedText => lit "extracted_text"
  | Base64Snippet => lit "base64_snippet"
  end.

Definition noTextMessage : jsstring := lit "[No text extracted - PDF may be image-based]".
Definition unreadableMessage : jsstring :=
  lit "[Text extraction failed - PDF appears to be image-based. Please upload a DOCX file or a PDF with selectable text.]".

Definition createReadableSnippet (text : jsstring) : jsstring :=
  if negb (nonEmpty text) then noTextMessage
  else if negb (isTextReadable text) then unreadableMessage
  else substring text 0 500.

Section Handler.

Variable toLowerCase : jsstring -> jsstring.
Variable toUpperCase : jsstring -> jsstring.
Variable readZipEntry : list Byte.byte -> zipEntry.

(** [cvFilePath.split('.').pop()?.toLowerCase() || 'pdf'], for a path that
    is a string: [split] gives at least one piece. *)
Definition fileExtension (cvFilePath : jsstring) : jsstring :=
  let ext := toLowerCase (last (split (lit ".") cvFilePath) []) in
  if nonEmpty ext then ext else lit "pdf".

(** The text taken from the file, by its extension; a legacy [.doc] file is
    read as printable text, any other extension gives no text. *)
Definition textContent (fileExtension : jsstring) (uint8Array : list Byte.byte) : jsstring :=
  if eqs fileExtension (lit "pdf") then extractTextFromPDF uint8Array
  else if eqs fileExtension (lit "docx") then extractTextFromDOCX readZipEntry uint8Array
  else if eqs fileExtension (lit "doc") then readableAscii (decodeLatin1 uint8Array)
  else [].

Definition focusedWorkExpText (textContent : jsstring) : jsstring :=
  if (nonEmpty textContent && isTextReadable textContent)%bool
  then getWorkExperienceFocusedText toUpperCase textContent
  else [].

Definition usedInputType (textContent : jsstring) : inputType :=
  let focused := focusedWorkExpText textContent in
  if (nonEmpty focused && (200 <? length (trim focused)))%bool then FocusedText
  else if (nonEmpty textContent && isTextReadable textContent
           && (200 <? length (trim textContent)))%bool
  then ExtractedText
  else Base64Snippet.

(** [base64Content] is [btoa] of the first 50000 bytes of the file. *)
Definition inputForModel (textContent mimeType base64Content : jsstring) : jsstring :=
  match usedInputType textContent with
  | FocusedText =>
      lit "CV_TEXT (focused on WORK EXPERIENCE):" ++ newline ++ focusedWorkExpText textContent
  | ExtractedText =>
      lit "CV_TEXT (extracted):" ++ newline ++ substring textContent 0 (Z.to_nat 30000)
  | Base64Snippet =>
      lit "CV_BASE64_SNIPPET (" ++ mimeType ++ lit "):" ++ newline
      ++ substring base64Content 0 (Z.to_nat 40000)
  end.

End Handler.

(** ** The CV upload handler: the answer of the model *)

Definition backtick : char := 96%N.
Definition fence : jsstring := [backtick; backtick; backtick].
Definition nl : regex := Char (eqc 10%N).

(** [/^```json\n?/], [/^```\n?/] and [/\n?```$/] *)
Definition re_fence_json : regex :=
  Seqs [Bol; Str (map eqc (fence ++ lit "json")); Opt nl].
Definition re_fence_open : regex := Seqs [Bol; Str (map eqc fence); Opt nl].
Definition re_fence_close : regex := Seqs [Opt nl; Str (map eqc fence); Eol].

(** The first pass: the answer without its Markdown code fence, as it is
    handed to [JSON.parse]. *)
Definition cleanedText (extractedText : jsstring) : jsstring :=
  let cleanedText := trim extractedText in
  if startsWith (fence ++ lit "json") cleanedText then
    replace re_fence_close (const_rep []) (replace re_fence_json (const_rep []) cleanedText)
  else if startsWith fence cleanedText then
    replace re_fence_close (const_rep []) (replace re_fence_open (const_rep []) cleanedText)
  else cleanedText.

(** The focused pass: the same two steps, the second not skipped after the
    first. *)
Definition cleaned (focusedText : jsstring) : jsstring :=
  let cleaned0 := trim focusedText in
  let cleaned1 :=
    if startsWith (fence ++ lit "json") cleaned0 then
      replace re_fence_close (const_rep []) (replace re_fence_json (const_rep []) cleaned0)
    else cleaned0 in
  if startsWith fence cleaned1 then
    replace re_fence_close (const_rep []) (replace re_fence_open (const_rep []) cleaned1)
  else cleaned1.

(** ** The CV upload handler: the provider that parses the CV *)

(** [a && b] and [v === 'text'] *)
Definition and_then (a b : value) : value := if truthy a then b else a.

Definition isString (s : string) (v : value) : bool :=
  match v with
  | VString t => eqs t (lit s)
  | _ => false
  end.

Record provider : Type := MkProvider {
  apiKey : value;
  apiUrl : jsstring;
  model : jsstring
}.

Definition noKeyMessage : jsstring :=
  lit "No AI API key configured. Please add your API key in the profile settings.".

(** The choice between the two providers: [profileData] is the row of the
    user, [envKey] what [Deno.env.get('OPENAI_API_KEY')] gives.  Without a key
    the handler throws an [Error] with the message on the right. *)
Definition chooseProvider (profileData envKey : value) : provider + jsstring :=
  let kimiKey := getOpt profileData "kimi_api_key" in
  let openaiKey := or_else (getOpt profileData "openai_api_key") envKey in
  let preferKimi :=
    and_then (and_then (VBool (isString "kimi" (getOpt profileData "preferred_ai_provider")))
                (getOpt profileData "kimi_enabled")) kimiKey in
  if truthy (and_then preferKimi kimiKey) then
    inl (MkProvider kimiKey (lit "https://api.moonshot.ai/v1/chat/completions")
           (lit "kimi-k2-0711-preview"))
  else if truthy openaiKey then
    inl (MkProvider openaiKey (lit "https://api.openai.com/v1/chat/completions")
           (lit "gpt-4o-mini"))
  else inr noKeyMessage.

(** ** Properties of strings the statements below use *)

(** No white space at either end. *)
Definition Trimmed (s : jsstring) : Prop :=
  (forall c t, s = c :: t -> isSpace c = false)
  /\ (forall t c, s = t ++ [c] -> isSpace c = false).

(** No white space next to white space. *)
Definition SingleSpaced (s : jsstring) : Prop :=
  forall k x y, nth_error s k = Some x -> nth_error s (S k) = Some y ->
    isSpace x = true -> isSpace y = false.

(** The only white space is the space U+0020. *)
Definition PlainSpaces (s : jsstring) : Prop :=
  forall x, In x s -> isSpace x = true -> x = ch " ".

(** The work experience the parser looks at. *)
Definition workExperienceArg (profile : value) : value :=
  or_else (or_else (getOpt profile "workExperience") (getOpt profile "work_experience"))
    (VArray []).

Definition sample_profile : value :=
  VObject [("firstName"%string, VString (lit "Ada"));
           ("lastName"%string, VString (lit "Lovelace"));
           ("phone"%string, VString (lit "+44 20 7946 0958"));
           ("city"%string, VString (lit "London, Remote"));
           ("workExperience"%string,
            VArray [VObject [("company"%string, VString (lit " ACME "));
                             ("title"%string, VString (lit "Engineer"));
                             ("startDate"%string, VString (lit "2019-03"));
                             ("bullets"%string, VArray [VString (lit "- built x "); VString (lit " ")])];
                    VObject [("organization"%string, VString (lit "Initech"));
                             ("role"%string, VString (lit "Analyst"));
                             ("dates"%string, VString (lit "2015--2019"))]]);
           ("education"%string, VArray [VObject [("school"%string, VString (lit "MIT"))]]);
           ("skills"%string, VArray [VString (lit "Rust"); VString (lit "OCaml")])].

Definition sample_bullets_text : jsstring :=
  lit "- built x" ++ newline ++ lit "  " ++ newline ++ lit "* shipped y".

(** The text the sample profile gives, with ASCII upper-casing. *)
Definition sample_ats_text : jsstring :=
  Eval vm_compute in
    match generateATSText asciiUpper sample_profile with
    | Ok text => text
    | Throw _ => []
    end.

(** A paragraph of [word/document.xml] with one run of text, and a document
    body made of such paragraphs. *)
Definition docxRun (text : jsstring) : jsstring :=
  lit "<w:p><w:r><w:t>" ++ text ++ lit "</w:t></w:r>".

Definition docxParagraph (text : jsstring) : jsstring := docxRun text ++ lit "</w:p>".

Definition docxBody (texts : list jsstring) : jsstring := concat (map docxParagraph texts).

(** ASCII lower-casing: what [String.prototype.toLowerCase] does to a string
    of ASCII code units. *)
Definition asciiLower (s : jsstring) : jsstring :=
  map (fun c => if isUpper c then (c + 32)%N else c) s.

(** An answer in a Markdown code fence, with and without the language tag. *)
Definition fencedJson (json : jsstring) : jsstring :=
  fence ++ lit "json" ++ newline ++ json ++ newline ++ fence.

Definition fencedPlain (json : jsstring) : jsstring :=
  fence ++ newline ++ json ++ newline ++ fence.

Definition sample_answer : jsstring := lit "{ }".

(** A user who prefers Kimi but has it switched off, and has OpenAI switched
    off too. *)
Definition sample_user_row : value :=
  VObject [("preferred_ai_provider"%string, VString (lit "kimi"));
           ("kimi_enabled"%string, VBool false);
           ("kimi_api_key"%string, VString (lit "sk-kimi"));
           ("openai_enabled"%string, VBool false);
           ("openai_api_key"%string, VString (lit "sk-openai"))].

(** What [replace(/\s*–\s*/g, ' – ')] does, written as one pass over the
    string: [pending] is the white space met since the last code unit that is
    not white space, kept back until it is known whether a dash follows;
    after a dash, white space is dropped. *)
Fixpoint spaceDashes (pending s : jsstring) {struct s} : jsstring :=
  match s with
  | [] => rev pending
  | c :: t =>
      if eqc en_dash c then spaced_dash ++ afterDash t
      else if isSpace c then spaceDashes (c :: pending) t
      else rev pending ++ c :: spaceDashes [] t
  end
with afterDash (s : jsstring) {struct s} : jsstring :=
  match s with
  | [] => []
  | c :: t =>
      if eqc en_dash c then spaced_dash ++ afterDash t
      else if isSpace c then afterDash t
      else c :: spaceDashes [] t
  end.

Definition sample_open_job : value :=
  VObject [("company"%string, VString (lit "ACME"));
           ("title"%string, VString (lit "Engineer"));
           ("startDate"%string, VString (lit "March 2019"))].

(** * Proofs *)

(** * The matcher and the relation [Run] *)

Ltac inv H := inversion H; subst; clear H.

Section Matcher.

Variable s : jsstring.

Lemma Run_bounds r i c j c' :
  Run s r i c j c' -> i <= j /\ (i <= length s -> j <= length s).
Proof.
  induction 1; try lia.
  split; [lia|]. intros _. assert (i < length s) by (apply nth_error_Some; congruence). lia.
Qed.

Lemma star_loop_sound (step : nat -> caps -> cont -> option (nat * caps)) g r :
  (forall i c k res, step i c k = Some res ->
     exists j c', Run s r i c j c' /\ k j c' = Some res) ->
  forall fuel i c k res, star_loop step g k fuel i c = Some res ->
    exists j c', Run s (Star g r) i c j c' /\ k j c' = Some res.
Proof.
  intros Hstep. induction fuel as [|fuel IH]; intros i c k res H; simpl in H.
  - exists i, c. split; [constructor | assumption].
  - assert (Hagain : forall res0,
      step i c (fun j c' => if i <? j then star_loop step g k fuel j c' else None) = Some res0 ->
      exists j c', Run s (Star g r) i c j c' /\ k j c' = Some res0).
    { intros res0 H0. apply Hstep in H0. destruct H0 as (j & c1 & Hr & Hk).
      destruct (i <? j) eqn:Hij; [|discriminate].
      apply Nat.ltb_lt in Hij. apply IH in Hk. destruct Hk as (l & c2 & Hs & Hk).
      exists l, c2. split; [|assumption]. eapply R_StarS; eassumption. }
    destruct g.
    + destruct (step i c _) eqn:E.
      * inversion H; subst. apply Hagain. reflexivity.
      * exists i, c. split; [constructor | assumption].
    + destruct (k i c) eqn:E.
      * inversion H; subst. exists i, c. split; [constructor | assumption].
      * apply Hagain. assumption.
Qed.

Lemma rmatch_sound r : forall i c k res,
  rmatch s r i c k = Some res ->
  exists j c', Run s r i c j c' /\ k j c' = Some res.
Proof.
  induction r as [|p|r1 IH1 r2 IH2|r1 IH1 r2 IH2|g r IH|n r IH| | |];
    intros i c k res H; simpl in H.
  - exists i, c. split; [constructor | assumption].
  - destruct (nth_error s i) as [x|] eqn:E; [|discriminate].
    destruct (p x) eqn:Ep; [|discriminate].
    exists (S i), c. split; [econstructor; eassumption | assumption].
  - apply IH1 in H. destruct H as (j & c1 & H1 & H).
    apply IH2 in H. destruct H as (l & c2 & H2 & H).
    exists l, c2. split; [econstructor; eassumption | assumption].
  - destruct (rmatch s r1 i c k) eqn:E.
    + inversion H; subst. apply IH1 in E. destruct E as (j & c1 & H1 & Hk).
      exists j, c1. split; [apply R_AltL; assumption | assumption].
    + apply IH2 in H. destruct H as (j & c1 & H1 & Hk).
      exists j, c1. split; [apply R_AltR; assumption | assumption].
  - eapply star_loop_sound with (fuel := S (length s - i)); [exact IH | simpl; exact H].
  - apply IH in H. destruct H as (j & c1 & H1 & Hk).
    exists j, ((n, (i, j)) :: c1). split; [constructor; assumption | assumption].
  - destruct (i =? 0) eqn:E; [|discriminate]. apply Nat.eqb_eq in E. subst.
    exists 0, c. split; [constructor | assumption].
  - destruct (i =? length s) eqn:E; [|discriminate]. apply Nat.eqb_eq in E. subst.
    exists (length s), c. split; [constructor | assumption].
  - destruct (wordBoundary s i) eqn:E; [|discriminate].
    exists i, c. split; [constructor; assumption | assumption].
Qed.

Lemma star_loop_complete (step : nat -> caps -> cont -> option (nat * caps)) g r :
  (forall i c j c' k res, Run s r i c j c' -> i <= length s -> k j c' = Some res ->
     exists res', step i c k = Some res') ->
  forall i c j c', Run s (Star g r) i c j c' -> i <= length s ->
  forall fuel k res, length s - i < fuel -> k j c' = Some res ->
    exists res', star_loop step g k fuel i c = Some res'.
Proof.
  intros Hstep i c j c' H. remember (Star g r) as R eqn:ER.
  induction H; inversion ER; subst; clear ER; intros Hi fuel k0 res Hf Hk.
  - destruct fuel as [|fuel]; [lia|]. simpl. destruct g.
    + destruct (step i c _); eauto.
    + rewrite Hk. eauto.
  - destruct fuel as [|fuel]; [lia|]. simpl.
    pose proof (Run_bounds _ _ _ _ _ H) as [_ Hb]. specialize (Hb Hi).
    assert (Hagain : exists res',
      step i c (fun j c' => if i <? j then star_loop step g k0 fuel j c' else None) = Some res').
    { destruct (IHRun2 eq_refl Hb fuel k0 res ltac:(lia) Hk) as (res1 & Hres1).
      eapply Hstep; [eassumption | assumption |].
      simpl. destruct (i <? j) eqn:E; [eassumption|]. apply Nat.ltb_ge in E. lia. }
    destruct g.
    + destruct Hagain as (res' & ->). eauto.
    + destruct (k0 i c); eauto.
Qed.

Lemma rmatch_complete r : forall i c j c' k res,
  Run s r i c j c' -> i <= length s -> k j c' = Some res ->
  exists res', rmatch s r i c k = Some res'.
Proof.
  induction r as [|p|r1 IH1 r2 IH2|r1 IH1 r2 IH2|g r IH|n r IH| | |];
    intros i c j c' k res H Hi Hk.
  - inv H. simpl. eauto.
  - inv H. simpl.
    repeat match goal with E : _ = _ |- _ => rewrite E end. eauto.
  - inv H. simpl.
    match goal with
    | H1 : Run _ r1 _ _ _ _, H2 : Run _ r2 _ _ _ _ |- _ =>
        pose proof (Run_bounds _ _ _ _ _ H1) as [_ Hb]; specialize (Hb Hi);
        destruct (IH2 _ _ _ _ _ _ H2 Hb Hk) as (res1 & Hres1);
        eapply IH1; eassumption
    end.
  - simpl. inv H.
    + match goal with H1 : Run _ r1 _ _ _ _ |- _ =>
        destruct (IH1 _ _ _ _ _ _ H1 Hi Hk) as (res1 & ->) end. eauto.
    + destruct (rmatch s r1 i c k); eauto.
  - change (exists res', star_loop (rmatch s r) g k (S (length s - i)) i c = Some res').
    eapply star_loop_complete; try eassumption. lia.
  - inv H. simpl. eapply IH; eassumption.
  - inv H. simpl. eauto.
  - inv H. simpl. rewrite Nat.eqb_refl. eauto.
  - inv H. simpl.
    match goal with E : wordBoundary _ _ = true |- _ => rewrite E end. eauto.
Qed.

(** The matcher finds a match at [i] exactly when one exists. *)
Lemma rmatch_accept_Some r i j c' :
  rmatch s r i [] accept = Some (j, c') -> Run s r i [] j c'.
Proof.
  intros H. apply rmatch_sound in H. destruct H as (j' & c1 & H & Hk).
  inversion Hk; subst. assumption.
Qed.

Lemma rmatch_accept_None r i :
  i <= length s -> rmatch s r i [] accept = None -> ~ MatchAt s r i.
Proof.
  intros Hi H (j & c' & HR).
  destruct (@rmatch_complete r i [] j c' accept (j, c') HR Hi eq_refl) as (res & E).
  congruence.
Qed.

Lemma exec_from_Some r : forall fuel i m,
  i + fuel = length s ->
  exec_from s r fuel i = Some m ->
  i <= m_start m /\ m_start m <= length s
  /\ Run s r (m_start m) [] (m_end m) (m_caps m)
  /\ forall i', i <= i' < m_start m -> ~ MatchAt s r i'.
Proof.
  induction fuel as [|fuel IH]; intros i m Hlen H; simpl in H.
  - destruct (rmatch s r i [] accept) as [[j c']|] eqn:E; [|discriminate].
    inversion H; subst; simpl. repeat split; try lia.
    + apply rmatch_accept_Some; assumption.
  - destruct (rmatch s r i [] accept) as [[j c']|] eqn:E.
    + inversion H; subst; simpl. repeat split; try lia.
      apply rmatch_accept_Some; assumption.
    + apply IH in H; [|lia]. destruct H as (H1 & H2 & H3 & H4).
      repeat split; try lia; try assumption.
      intros i' Hi'. destruct (Nat.eq_dec i' i) as [->|Hne].
      * apply rmatch_accept_None; [lia | assumption].
      * apply H4. lia.
Qed.

Lemma exec_from_None r : forall fuel i,
  i + fuel = length s ->
  exec_from s r fuel i = None ->
  forall i', i <= i' <= length s -> ~ MatchAt s r i'.
Proof.
  induction fuel as [|fuel IH]; intros i Hlen H i' Hi'; simpl in H.
  - destruct (rmatch s r i [] accept) as [[j c']|] eqn:E; [discriminate|].
    assert (i' = i) by lia. subst. apply rmatch_accept_None; [lia | assumption].
  - destruct (rmatch s r i [] accept) as [[j c']|] eqn:E; [discriminate|].
    destruct (Nat.eq_dec i' i) as [->|Hne].
    + apply rmatch_accept_None; [lia | assumption].
    + eapply IH; [| eassumption |]; lia.
Qed.

(** [exec] returns the leftmost match at or after [lastIndex]. *)
Lemma exec_Some r p m :
  exec r s p = Some m ->
  p <= m_start m /\ m_start m <= m_end m /\ m_end m <= length s
  /\ Run s r (m_start m) [] (m_end m) (m_caps m)
  /\ forall i, p <= i < m_start m -> ~ MatchAt s r i.
Proof.
  unfold exec. destruct (length s <? p) eqn:E; [discriminate|].
  apply Nat.ltb_ge in E. intros H. apply exec_from_Some in H; [|lia].
  destruct H as (H1 & H2 & H3 & H4).
  pose proof (Run_bounds _ _ _ _ _ H3) as [Hb1 Hb2]. repeat split; try assumption. auto.
Qed.

Lemma exec_None r p :
  exec r s p = None ->
  forall i, p <= i <= length s -> ~ MatchAt s r i.
Proof.
  unfold exec. destruct (length s <? p) eqn:E.
  - apply Nat.ltb_lt in E. intros _ i Hi. lia.
  - apply Nat.ltb_ge in E. intros H. eapply exec_from_None; [|eassumption]. lia.
Qed.

(** If a match exists at or after [lastIndex], [exec] finds one. *)
Lemma exec_finds r p i :
  p <= i <= length s -> MatchAt s r i ->
  exists m, exec r s p = Some m /\ m_start m <= i.
Proof.
  intros Hi HM. destruct (exec r s p) as [m|] eqn:E.
  - exists m. split; [reflexivity|]. apply exec_Some in E.
    destruct E as (_ & _ & _ & _ & HL).
    destruct (Nat.le_gt_cases (m_start m) i) as [|Hlt]; [assumption|].
    exfalso. apply (HL i); [lia | assumption].
  - exfalso. eapply exec_None; eassumption.
Qed.

End Matcher.

(** * Global replacement *)

Lemma Run_min_len s r i c j c' : Run s r i c j c' -> i + min_len r <= j.
Proof. induction 1; simpl; lia. Qed.

Lemma Run_alphabet s r i c j c' :
  Run s r i c j c' ->
  forall pos, i <= pos < j -> exists y, nth_error s pos = Some y /\ alphabet r y = true.
Proof.
  induction 1; simpl; intros pos Hn; try lia.
  - assert (pos = i) by lia. subst. eauto.
  - pose proof (Run_bounds _ _ _ _ _ _ H) as [? _].
    destruct (Nat.lt_ge_cases pos j) as [Hlt|Hge].
    + destruct (IHRun1 pos ltac:(lia)) as (y & Hy & Ha). exists y. rewrite Ha. auto.
    + destruct (IHRun2 pos ltac:(lia)) as (y & Hy & Ha). exists y. rewrite Ha.
      rewrite orb_true_r. auto.
  - destruct (IHRun pos Hn) as (y & Hy & Ha). exists y. rewrite Ha. auto.
  - destruct (IHRun pos Hn) as (y & Hy & Ha). exists y. rewrite Ha.
    rewrite orb_true_r. auto.
  - destruct (Nat.lt_ge_cases pos j) as [Hlt|Hge].
    + apply IHRun1. lia.
    + apply IHRun2. lia.
  - apply IHRun. assumption.
Qed.

Lemma skipn_substring (s : jsstring) q i :
  q <= i -> skipn q s = substring s q i ++ skipn i s.
Proof.
  intros H. unfold substring.
  replace i with ((i - q) + q) at 2 by lia.
  rewrite <- skipn_skipn. symmetry. apply firstn_skipn.
Qed.

Lemma substring_length (s : jsstring) q i :
  q <= i <= length s -> length (substring s q i) = i - q.
Proof.
  intros H. unfold substring. rewrite length_firstn, length_skipn. lia.
Qed.

Lemma firstn_plus {A} (a b : nat) : forall l : list A,
  firstn (a + b) l = firstn a l ++ firstn b (skipn a l).
Proof.
  induction a as [|a IH]; intros l; simpl; [reflexivity|].
  destruct l as [|x l]; simpl.
  - rewrite firstn_nil. reflexivity.
  - rewrite IH. reflexivity.
Qed.

Lemma substring_app (s : jsstring) q i j :
  q <= i <= j -> substring s q j = substring s q i ++ substring s i j.
Proof.
  intros H. unfold substring.
  replace (j - q) with ((i - q) + (j - i)) by lia.
  rewrite firstn_plus, skipn_skipn.
  replace (i - q + q) with i by lia. reflexivity.
Qed.

Section ReplaceAll.

Variable r : regex.
Variable f : replacer.
Variable s : jsstring.

(** Every match of [r] consumes at least one code unit. *)
Hypothesis r_nonempty : 0 < min_len r.

Lemma exec_progress p m :
  exec r s p = Some m -> p <= m_start m /\ m_start m < m_end m /\ m_end m <= length s.
Proof.
  intros H. apply exec_Some in H. destruct H as (H1 & H2 & H3 & H4 & _).
  apply Run_min_len in H4. lia.
Qed.

Lemma exec_past_end p : length s < p -> exec r s p = None.
Proof.
  intros H. unfold exec. apply Nat.ltb_lt in H. rewrite H. reflexivity.
Qed.

(** Induction over the passes of the replacement loop: [q] is where the
    previous match ended. *)
Lemma replace_loop_ind (P : nat -> jsstring -> Prop) :
  (forall q, q <= length s -> exec r s q = None -> P q (skipn q s)) ->
  (forall q m out, q <= length s -> exec r s q = Some m ->
     P (m_end m) out -> P q (substring s q (m_start m) ++ f s m ++ out)) ->
  forall fuel q, q <= length s -> length s + 2 <= fuel + q ->
    P q (replace_loop r f s fuel q q).
Proof.
  intros Hnone Hstep. induction fuel as [|fuel IH]; intros q Hq Hfuel; [lia|].
  simpl. destruct (exec r s q) as [m|] eqn:E.
  - pose proof (exec_progress _ _ E) as (H1 & H2 & H3).
    destruct (m_end m =? m_start m) eqn:E2; [apply Nat.eqb_eq in E2; lia|].
    apply Hstep; auto. apply IH; lia.
  - apply Hnone; assumption.
Qed.

Lemma replaceAll_ind (P : nat -> jsstring -> Prop) :
  (forall q, q <= length s -> exec r s q = None -> P q (skipn q s)) ->
  (forall q m out, q <= length s -> exec r s q = Some m ->
     P (m_end m) out -> P q (substring s q (m_start m) ++ f s m ++ out)) ->
  P 0 (replaceAll r f s).
Proof.
  intros Hnone Hstep. unfold replaceAll. apply replace_loop_ind; auto; lia.
Qed.

End ReplaceAll.

(** The fuel of [replaceAll] is enough: [lastIndex] grows with every pass,
    whatever the pattern, and more fuel changes nothing. *)
Lemma replace_loop_fuel r f s : forall fuel1 fuel2 p q,
  length s + 2 <= fuel1 + p -> length s + 2 <= fuel2 + p ->
  replace_loop r f s fuel1 p q = replace_loop r f s fuel2 p q.
Proof.
  assert (Hpast : forall p, length s < p -> exec r s p = None).
  { intros p Hp. unfold exec. apply Nat.ltb_lt in Hp. rewrite Hp. reflexivity. }
  induction fuel1 as [|fuel1 IH]; intros fuel2 p q H1 H2.
  - destruct fuel2 as [|fuel2]; [reflexivity|]. simpl.
    rewrite Hpast by lia. reflexivity.
  - destruct fuel2 as [|fuel2]; simpl.
    + rewrite Hpast by lia. reflexivity.
    + destruct (exec r s p) as [m|] eqn:E; [|reflexivity].
      apply exec_Some in E. destruct E as (Hs & He & _).
      destruct (m_end m =? m_start m) eqn:Eq;
        [apply Nat.eqb_eq in Eq | apply Nat.eqb_neq in Eq];
        do 2 f_equal; apply IH; lia.
Qed.

Lemma exec_loop_fuel r s : forall fuel1 fuel2 p,
  length s + 2 <= fuel1 + p -> length s + 2 <= fuel2 + p ->
  exec_loop r s fuel1 p = exec_loop r s fuel2 p.
Proof.
  assert (Hpast : forall p, length s < p -> exec r s p = None).
  { intros p Hp. unfold exec. apply Nat.ltb_lt in Hp. rewrite Hp. reflexivity. }
  induction fuel1 as [|fuel1 IH]; intros fuel2 p H1 H2.
  - destruct fuel2 as [|fuel2]; [reflexivity|]. simpl.
    rewrite Hpast by lia. reflexivity.
  - destruct fuel2 as [|fuel2]; simpl.
    + rewrite Hpast by lia. reflexivity.
    + destruct (exec r s p) as [m|] eqn:E; [|reflexivity].
      f_equal. apply IH; lia.
Qed.

Lemma split_loop_fuel r s : 0 < min_len r -> forall fuel1 fuel2 p q,
  length s + 1 <= fuel1 + q -> length s + 1 <= fuel2 + q ->
  split_loop r s fuel1 p q = split_loop r s fuel2 p q.
Proof.
  intros Hne. induction fuel1 as [|fuel1 IH]; intros fuel2 p q H1 H2.
  - assert (E : (length s <=? q) = true) by (apply Nat.leb_le; lia).
    destruct fuel2 as [|fuel2]; simpl; [reflexivity|]. rewrite E. reflexivity.
  - destruct fuel2 as [|fuel2]; simpl.
    + assert (E : (length s <=? q) = true) by (apply Nat.leb_le; lia).
      rewrite E. reflexivity.
    + destruct (length s <=? q) eqn:E; [reflexivity|]. apply Nat.leb_gt in E.
      destruct (rmatch s r q [] accept) as [[e c]|] eqn:Em.
      * apply rmatch_accept_Some in Em.
        pose proof (Run_bounds _ _ _ _ _ _ Em) as [Hb1 Hb2].
        pose proof (Run_min_len _ _ _ _ _ _ Em) as Hm.
        assert (Hmin : Nat.min e (length s) = e) by lia. rewrite Hmin.
        destruct (e =? p); [apply IH; lia|]. f_equal. apply IH; lia.
      * apply IH; lia.
Qed.

Lemma In_substring (s : jsstring) q i x :
  In x (substring s q i) -> exists k, q <= k < i /\ nth_error s k = Some x.
Proof.
  unfold substring. intros H. apply In_nth_error in H. destruct H as (n & Hn).
  rewrite nth_error_firstn in Hn. destruct (n <? i - q) eqn:E; [|discriminate].
  apply Nat.ltb_lt in E. rewrite nth_error_skipn in Hn.
  exists (q + n). split; [lia | assumption].
Qed.

Lemma In_skipn (s : jsstring) q x :
  In x (skipn q s) -> exists k, q <= k < length s /\ nth_error s k = Some x.
Proof.
  intros H. apply In_nth_error in H. destruct H as (n & Hn).
  rewrite nth_error_skipn in Hn. exists (q + n). split; [|assumption].
  assert (q + n < length s) by (apply nth_error_Some; congruence). lia.
Qed.

Lemma skipn_cons_nth (s : jsstring) i x :
  nth_error s i = Some x -> skipn i s = x :: skipn (S i) s.
Proof.
  revert i. induction s as [|y s IH]; intros [|i] H; simpl in *; try discriminate.
  - inversion H. reflexivity.
  - apply IH. assumption.
Qed.

Lemma substring_one (s : jsstring) i x :
  nth_error s i = Some x -> substring s i (S i) = [x].
Proof.
  intros H. unfold substring. replace (S i - i) with 1 by lia.
  rewrite (skipn_cons_nth _ _ _ H). reflexivity.
Qed.

Lemma Run_Char_inv s p i c j c' :
  Run s (Char p) i c j c' ->
  j = S i /\ c' = c /\ exists x, nth_error s i = Some x /\ p x = true.
Proof. intros H. inv H. eauto. Qed.

Lemma MatchAt_Char s p i x :
  nth_error s i = Some x -> p x = true -> MatchAt s (Char p) i.
Proof. intros H1 H2. exists (S i), []. econstructor; eassumption. Qed.

Lemma flat_map_keep (p : char -> bool) (t l : jsstring) :
  (forall x, In x l -> p x = false) ->
  flat_map (fun c => if p c then t else [c]) l = l.
Proof.
  induction l as [|a l IH]; intros H; simpl; [reflexivity|].
  rewrite (H a) by (simpl; auto). simpl. f_equal. apply IH.
  intros x Hx. apply H. simpl; auto.
Qed.

(** Replacing a class of code units: each code unit of the class becomes [t]. *)
Lemma replaceAll_class (p : char -> bool) (t s : jsstring) :
  replaceAll (Char p) (const_rep t) s = flat_map (fun c => if p c then t else [c]) s.
Proof.
  apply (replaceAll_ind (Char p) (const_rep t) s ltac:(simpl; lia)
           (fun q out => out = flat_map (fun c => if p c then t else [c]) (skipn q s))).
  - intros q Hq E. symmetry. apply flat_map_keep. intros x Hx.
    apply In_skipn in Hx. destruct Hx as (k & Hk & Hx).
    destruct (p x) eqn:Ep; [|reflexivity]. exfalso.
    apply (exec_None _ _ _ E k); [lia|]. eapply MatchAt_Char; eassumption.
  - intros q m out Hq E ->. apply exec_Some in E.
    destruct E as (H1 & H2 & H3 & HR & Hleft).
    apply Run_Char_inv in HR. destruct HR as (Hj & _ & x & Hx & Hp).
    rewrite (skipn_substring s q (m_start m)) by assumption.
    rewrite flat_map_app, (skipn_cons_nth _ _ _ Hx). simpl. rewrite Hp, Hj.
    unfold const_rep. f_equal. symmetry. apply flat_map_keep.
    intros y Hy. apply In_substring in Hy. destruct Hy as (k & Hk & Hy).
    destruct (p y) eqn:Ep; [|reflexivity]. exfalso.
    apply (Hleft k); [lia|]. eapply MatchAt_Char; eassumption.
Qed.

Lemma flat_map_drop (p : char -> bool) (l : jsstring) :
  flat_map (fun c => if p c then [] else [c]) l = filter (fun c => negb (p c)) l.
Proof.
  induction l as [|a l IH]; simpl; [reflexivity|].
  destruct (p a); simpl; rewrite IH; reflexivity.
Qed.

Lemma flat_map_subst (p : char -> bool) (y : char) (l : jsstring) :
  flat_map (fun c => if p c then [y] else [c]) l = map (fun c => if p c then y else c) l.
Proof.
  induction l as [|a l IH]; simpl; [reflexivity|].
  destruct (p a); simpl; rewrite IH; reflexivity.
Qed.

(** * Properties kept by a global replacement *)

Lemma Forall_substring (Q : char -> Prop) (s : jsstring) i j :
  Forall Q s -> Forall Q (substring s i j).
Proof.
  intros H. apply Forall_forall. intros x Hx. apply In_substring in Hx.
  destruct Hx as (k & _ & Hk). rewrite Forall_forall in H. apply H.
  eapply nth_error_In; eassumption.
Qed.

Lemma Forall_skipn (Q : char -> Prop) (s : jsstring) i :
  Forall Q s -> Forall Q (skipn i s).
Proof.
  intros H. apply Forall_forall. intros x Hx. apply In_skipn in Hx.
  destruct Hx as (k & _ & Hk). rewrite Forall_forall in H. apply H.
  eapply nth_error_In; eassumption.
Qed.

(** What holds of every code unit of the subject and of every replacement
    holds of every code unit of the result. *)
Lemma replaceAll_Forall (Q : char -> Prop) r f s :
  0 < min_len r -> Forall Q s -> (forall m, Forall Q (f s m)) ->
  Forall Q (replaceAll r f s).
Proof.
  intros Hne Hs Hf.
  apply (replaceAll_ind r f s Hne (fun _ out => Forall Q out)).
  - intros q _ _. apply Forall_skipn. assumption.
  - intros q m out _ _ IH. repeat (apply Forall_app; split); auto.
    apply Forall_substring. assumption.
Qed.

Lemma matched_alphabet s r i c j c' x :
  Run s r i c j c' -> In x (substring s i j) -> alphabet r x = true.
Proof.
  intros HR Hx. apply In_substring in Hx. destruct Hx as (k & Hk & Hx).
  destruct (Run_alphabet _ _ _ _ _ _ HR k Hk) as (y & Hy & Ha). congruence.
Qed.



(** * Parts of a string *)

Lemma At_length w s i : At w s i -> w <> [] -> i + length w <= length s.
Proof.
  intros H Hw. destruct (Nat.eq_dec (length w) 0) as [E|E].
  - destruct w; [congruence | discriminate].
  - assert (Hk : length w - 1 < length w) by lia.
    apply nth_error_Some in Hk. destruct (nth_error w (length w - 1)) as [x|] eqn:Ex;
      [|congruence].
    apply H in Ex. assert (i + (length w - 1) < length s) by (apply nth_error_Some; congruence).
    lia.
Qed.

Lemma At_app a w b : At w (a ++ w ++ b) (length a).
Proof.
  intros k x H. rewrite nth_error_app2 by lia.
  replace (length a + k - length a) with k by lia.
  rewrite nth_error_app1; [assumption|]. apply nth_error_Some. congruence.
Qed.

Lemma nth_error_ext {A} (l1 l2 : list A) :
  length l1 = length l2 ->
  (forall k x, nth_error l1 k = Some x -> nth_error l2 k = Some x) -> l1 = l2.
Proof.
  revert l2. induction l1 as [|a l1 IH]; intros [|b l2] Hlen H; simpl in Hlen;
    try discriminate; [reflexivity|].
  pose proof (H 0 a eq_refl) as H0. simpl in H0. inversion H0; subst.
  f_equal. apply IH; [lia|]. intros k x Hk. apply (H (S k)). assumption.
Qed.

Lemma At_substring_eq w (s : jsstring) i :
  At w s i -> i + length w <= length s -> substring s i (i + length w) = w.
Proof.
  intros H Hlen. symmetry. apply nth_error_ext.
  - rewrite substring_length by lia. lia.
  - intros k x Hk. unfold substring. rewrite nth_error_firstn.
    assert (k < length w) by (apply nth_error_Some; congruence).
    replace (i + length w - i) with (length w) by lia.
    assert (E : (k <? length w) = true) by (apply Nat.ltb_lt; assumption).
    rewrite E, nth_error_skipn. apply H. assumption.
Qed.

Lemma Contains_At w s : Contains w s <-> exists i, At w s i /\ i + length w <= length s.
Proof.
  split.
  - intros (a & b & ->). exists (length a). split; [apply At_app|].
    rewrite !length_app. lia.
  - intros (i & H & Hlen). exists (firstn i s), (skipn (i + length w) s).
    rewrite <- (At_substring_eq w s i H Hlen) at 1.
    rewrite <- (skipn_substring s i (i + length w)) by lia.
    symmetry. apply firstn_skipn.
Qed.

Lemma At_skipn w (s : jsstring) i q : At w s i -> q <= i -> At w (skipn q s) (i - q).
Proof.
  intros H Hq k x Hk. rewrite nth_error_skipn.
  replace (q + (i - q + k)) with (i + k) by lia. apply H. assumption.
Qed.

Lemma At_of_skipn w (s : jsstring) i q : At w (skipn q s) i -> At w s (q + i).
Proof.
  intros H k x Hk. apply H in Hk. rewrite nth_error_skipn in Hk.
  rewrite <- Nat.add_assoc. assumption.
Qed.

Lemma At_substring w (s : jsstring) i u v :
  At w s i -> u <= i -> i + length w <= v -> At w (substring s u v) (i - u).
Proof.
  intros H Hu Hv k x Hk. unfold substring. rewrite nth_error_firstn.
  assert (k < length w) by (apply nth_error_Some; congruence).
  assert (E : (i - u + k <? v - u) = true) by (apply Nat.ltb_lt; lia).
  rewrite E, nth_error_skipn. replace (u + (i - u + k)) with (i + k) by lia.
  apply H. assumption.
Qed.

Lemma Contains_substring w (s : jsstring) i u v :
  At w s i -> u <= i -> i + length w <= v -> v <= length s ->
  Contains w (substring s u v).
Proof.
  intros H Hu Hv Hlen. apply Contains_At. exists (i - u).
  split; [apply At_substring; assumption|].
  rewrite substring_length by lia. lia.
Qed.

Lemma Contains_refl w : Contains w w.
Proof. exists [], []. rewrite app_nil_r. reflexivity. Qed.

Lemma Contains_trans u v w : Contains u v -> Contains v w -> Contains u w.
Proof.
  intros (a & b & ->) (c & d & ->). exists (c ++ a), (b ++ d).
  rewrite <- !app_assoc. reflexivity.
Qed.

Lemma Contains_app_l w x y : Contains w x -> Contains w (x ++ y).
Proof.
  intros (a & b & ->). exists a, (b ++ y). rewrite <- !app_assoc. reflexivity.
Qed.

Lemma Contains_app_r w x y : Contains w y -> Contains w (x ++ y).
Proof.
  intros (a & b & ->). exists (x ++ a), b. rewrite <- !app_assoc. reflexivity.
Qed.

Lemma Contains_nonempty w s : Contains w s -> w <> [] -> s <> [].
Proof.
  intros (a & b & ->) Hw Hs. apply app_eq_nil in Hs. destruct Hs as [_ Hs].
  apply app_eq_nil in Hs. destruct Hs. congruence.
Qed.

Lemma Contains_join w x sep l : In x l -> Contains w x -> Contains w (join sep l).
Proof.
  intros Hin Hw. induction l as [|y l IH]; [destruct Hin|].
  destruct Hin as [->|Hin].
  - destruct l; simpl; [assumption | apply Contains_app_l; assumption].
  - specialize (IH Hin). destruct l as [|z l]; [destruct Hin|].
    change (join sep (y :: z :: l)) with (y ++ sep ++ join sep (z :: l)).
    do 2 apply Contains_app_r. assumption.
Qed.

(** * Matches built and taken apart *)

Lemma Run_no_group s r i c j c' :
  Run s r i c j c' -> has_group r = false -> c' = c.
Proof.
  induction 1; simpl; intros Hg; try reflexivity;
    try (apply orb_false_iff in Hg; destruct Hg as [Hg1 Hg2]);
    try discriminate; auto.
  - rewrite IHRun2, IHRun1; auto.
  - rewrite IHRun2, IHRun1; auto.
Qed.

Lemma Run_Str s ps : forall i c,
  (forall k p, nth_error ps k = Some p ->
     exists x, nth_error s (i + k) = Some x /\ p x = true) ->
  Run s (Str ps) i c (i + length ps) c.
Proof.
  induction ps as [|p ps IH]; intros i c H; simpl.
  - rewrite Nat.add_0_r. constructor.
  - destruct (H 0 p eq_refl) as (x & Hx & Hp). rewrite Nat.add_0_r in Hx.
    eapply R_Seq; [econstructor; eassumption|].
    replace (i + S (length ps)) with (S i + length ps) by lia. apply IH.
    intros k q Hk. destruct (H (S k) q Hk) as (y & Hy & Hq).
    exists y. split; [|assumption]. replace (S i + k) with (i + S k) by lia. assumption.
Qed.

Lemma Run_Str_inv s ps : forall i c j c',
  Run s (Str ps) i c j c' ->
  j = i + length ps /\ c' = c
  /\ forall k p, nth_error ps k = Some p ->
       exists x, nth_error s (i + k) = Some x /\ p x = true.
Proof.
  induction ps as [|p ps IH]; intros i c j c' H; simpl in H.
  - inv H. split; [simpl; lia|]. split; [reflexivity|].
    intros [|k] q Hk; discriminate.
  - inv H. match goal with H : Run _ (Char _) _ _ _ _ |- _ => inv H end.
    match goal with H : Run _ (Str _) _ _ _ _ |- _ =>
      apply IH in H; destruct H as (-> & -> & Hall) end.
    split; [simpl; lia|]. split; [reflexivity|]. intros [|k] q Hk; simpl in Hk.
    + inv Hk. rewrite Nat.add_0_r. eauto.
    + destruct (Hall k q Hk) as (y & Hy & Hq). exists y. split; [|assumption].
      replace (i + S k) with (S i + k) by lia. assumption.
Qed.

Lemma length_lit l : length (lit l) = String.length l.
Proof.
  unfold lit. rewrite length_map. induction l; simpl; auto.
Qed.

(** A literal of the pattern matches where its text lies. *)
Lemma Run_Lit s l i c : At (lit l) s i -> Run s (Lit l) i c (length (lit l) + i) c.
Proof.
  intros H. unfold Lit. rewrite Nat.add_comm.
  replace (length (lit l)) with (length (map (fun a => eqc (ch a)) (list_ascii_of_string l)))
    by (unfold lit; rewrite !length_map; reflexivity).
  apply Run_Str. intros k p Hk. rewrite nth_error_map in Hk.
  destruct (nth_error (list_ascii_of_string l) k) as [a|] eqn:Ea; [|discriminate].
  inv Hk. exists (ch a). split; [|apply N.eqb_refl].
  apply H. unfold lit. rewrite nth_error_map, Ea. reflexivity.
Qed.

Lemma Run_Lit_inv s l i c j c' :
  Run s (Lit l) i c j c' -> j = i + length (lit l) /\ c' = c /\ At (lit l) s i.
Proof.
  intros H. unfold Lit in H. apply Run_Str_inv in H. destruct H as (-> & -> & Hall).
  split; [unfold lit; rewrite !length_map; reflexivity|]. split; [reflexivity|].
  intros k x Hk. unfold lit in Hk. rewrite nth_error_map in Hk.
  destruct (nth_error (list_ascii_of_string l) k) as [a|] eqn:Ea; [|discriminate].
  inv Hk. destruct (Hall k (eqc (ch a))) as (y & Hy & Hq).
  - rewrite nth_error_map, Ea. reflexivity.
  - apply N.eqb_eq in Hq. subst. assumption.
Qed.

Lemma Run_star_class g p s c : forall n i,
  (forall k, k < n -> exists x, nth_error s (k + i) = Some x /\ p x = true) ->
  Run s (Star g (Char p)) i c (n + i) c.
Proof.
  induction n as [|n IH]; intros i H.
  - constructor.
  - destruct (H 0 ltac:(lia)) as (x & Hx & Hp). simpl in Hx.
    eapply R_StarS; [econstructor; eassumption | lia |].
    replace (S n + i) with (n + S i) by lia. apply IH.
    intros k Hk. destruct (H (S k) ltac:(lia)) as (y & Hy & Hq).
    exists y. split; [|assumption]. replace (k + S i) with (S k + i) by lia. assumption.
Qed.

Lemma Run_star_class_inv g p s i c j c' :
  Run s (Star g (Char p)) i c j c' ->
  i <= j /\ c' = c
  /\ forall k, i <= k < j -> exists x, nth_error s k = Some x /\ p x = true.
Proof.
  intros H. pose proof (Run_bounds _ _ _ _ _ _ H) as [Hb _].
  split; [assumption|]. split; [eapply Run_no_group; [eassumption | reflexivity]|].
  intros k Hk. apply (Run_alphabet _ _ _ _ _ _ H k Hk).
Qed.

Lemma Run_C_inv s a i c j c' :
  Run s (C a) i c j c' -> j = S i /\ c' = c /\ nth_error s i = Some (ch a).
Proof.
  intros H. apply Run_Char_inv in H. destruct H as (-> & -> & x & Hx & Hp).
  apply N.eqb_eq in Hp. subst. auto.
Qed.

(** * The loop over the matches of a pattern *)

Section ExecAll.

Variable r : regex.
Variable s : jsstring.
Hypothesis r_nonempty : 0 < min_len r.

Lemma exec_loop_ind (P : nat -> list rmatch_result -> Prop) :
  (forall q, q <= length s -> exec r s q = None -> P q []) ->
  (forall q m l, q <= length s -> exec r s q = Some m ->
     P (m_end m) l -> P q (m :: l)) ->
  forall fuel q, q <= length s -> length s + 2 <= fuel + q ->
    P q (exec_loop r s fuel q).
Proof.
  intros Hnone Hstep. induction fuel as [|fuel IH]; intros q Hq Hfuel; [lia|].
  simpl. destruct (exec r s q) as [m|] eqn:E.
  - pose proof (exec_progress r s r_nonempty _ _ E) as (H1 & H2 & H3).
    replace (Nat.max (m_end m) (S q)) with (m_end m) by lia.
    apply Hstep; auto. apply IH; lia.
  - apply Hnone; assumption.
Qed.

Lemma execAll_ind (P : nat -> list rmatch_result -> Prop) :
  (forall q, q <= length s -> exec r s q = None -> P q []) ->
  (forall q m l, q <= length s -> exec r s q = Some m ->
     P (m_end m) l -> P q (m :: l)) ->
  P 0 (execAll r s).
Proof.
  intros Hnone Hstep. unfold execAll. apply exec_loop_ind; auto; lia.
Qed.

End ExecAll.

(** A part of the subject made of code units the pattern cannot consume is
    still there after a global replacement. *)
Lemma replaceAll_contains r f s w :
  0 < min_len r -> (forall x, In x w -> alphabet r x = false) ->
  Contains w s -> Contains w (replaceAll r f s).
Proof.
  intros Hne Hw Hs.
  destruct w as [|w0 w']; [exists [], (replaceAll r f s); reflexivity|].
  set (w := w0 :: w') in *. assert (Hpos : 0 < length w) by (simpl; lia).
  apply (replaceAll_ind r f s Hne (fun q out => Contains w (skipn q s) -> Contains w out));
    [auto | | exact Hs].
  intros q m out Hq E IH Hc.
  pose proof (exec_progress r s Hne _ _ E) as (H1 & H2 & H3).
  apply exec_Some in E. destruct E as (_ & _ & _ & HR & _).
  apply Contains_At in Hc. destruct Hc as (a & Ha & Hlen).
  rewrite length_skipn in Hlen. apply At_of_skipn in Ha.
  assert (Hdis : m_end m <= q + a \/ q + a + length w <= m_start m).
  { destruct (Nat.le_gt_cases (m_end m) (q + a)) as [|Hj]; [auto|].
    destruct (Nat.le_gt_cases (q + a + length w) (m_start m)) as [|Hi]; [auto|].
    exfalso. set (k := Nat.max (m_start m) (q + a)).
    destruct (Run_alphabet _ _ _ _ _ _ HR k ltac:(unfold k; lia)) as (y & Hy & Hal).
    assert (Hk : k - (q + a) < length w) by (unfold k; lia).
    apply nth_error_Some in Hk.
    destruct (nth_error w (k - (q + a))) as [x|] eqn:Ex; [|congruence].
    pose proof (Ha _ _ Ex) as Hx.
    replace (q + a + (k - (q + a))) with k in Hx by (unfold k; lia).
    assert (x = y) by congruence. subst.
    rewrite (Hw y) in Hal; [discriminate|]. eapply nth_error_In; eassumption. }
  destruct Hdis as [Hbefore|Hafter].
  - do 2 apply Contains_app_r. apply IH. apply Contains_At.
    exists (q + a - m_end m). split; [apply At_skipn; [assumption | lia]|].
    rewrite length_skipn. lia.
  - apply Contains_app_l. apply (Contains_substring w s (q + a)); auto; lia.
Qed.

(** * Phone formatting *)

(** A greedy [p*] in front of a continuation that accepts the end of the
    subject runs to the end when only code units of [p] are left. *)
Lemma star_class_to_end s p (k : cont) c res : forall fuel i,
  (forall x, In x (skipn i s) -> p x = true) ->
  i <= length s -> length s - i < fuel ->
  k (length s) c = Some res ->
  star_loop (rmatch s (Char p)) true k fuel i c = Some res.
Proof.
  induction fuel as [|fuel IH]; intros i Hall Hi Hf Hk; [lia|].
  simpl. destruct (nth_error s i) as [x|] eqn:E.
  - assert (Hlt : i < length s) by (apply nth_error_Some; congruence).
    rewrite (Hall x) by (rewrite (skipn_cons_nth _ _ _ E); simpl; auto).
    assert (Hs : (i <? S i) = true) by (apply Nat.ltb_lt; lia). rewrite Hs.
    rewrite IH; auto; try lia.
    intros y Hy. apply Hall. rewrite (skipn_cons_nth _ _ _ E). simpl; auto.
  - apply nth_error_None in E. assert (i = length s) by lia. subst. assumption.
Qed.

Lemma cleaned_phone phone :
  replaceAll re_not_digit_plus (const_rep []) phone = filter keepPhoneChar phone.
Proof.
  unfold re_not_digit_plus. rewrite replaceAll_class, flat_map_drop.
  apply filter_ext. intros c. unfold keepPhoneChar. apply negb_involutive.
Qed.

Lemma re_phone_unfold : re_phone = Seq Bol (Seq (C "+") phone_body).
Proof. reflexivity. Qed.

Lemma rmatch_phone_tail s i c :
  i < length s -> (forall x, In x (skipn i s) -> isDigit x = true) ->
  rmatch s phone_tail i c accept = Some (length s, (2, (i, length s)) :: c).
Proof.
  intros Hi Hall. unfold phone_tail, Plus, digit. cbn [rmatch].
  destruct (nth_error s i) as [x|] eqn:E; [|apply nth_error_None in E; lia].
  rewrite (Hall x) by (rewrite (skipn_cons_nth _ _ _ E); simpl; auto).
  apply star_class_to_end; try lia.
  - intros y Hy. apply Hall. rewrite (skipn_cons_nth _ _ _ E). simpl; auto.
  - rewrite Nat.eqb_refl. reflexivity.
Qed.

Lemma exec_phone_digits ds :
  forallb isDigit ds = true -> 2 <= length ds ->
  exec re_phone (ch "+" :: ds) 0
  = Some (MkMatch 0 (S (length ds))
            [(2, (S (countryLen ds), S (length ds))); (1, (1, S (countryLen ds)))]).
Proof.
  intros Hd Hlen.
  destruct ds as [|d1 [|d2 [|d3 [|d4 rest]]]]; simpl in Hlen; try lia;
    simpl in Hd; repeat rewrite andb_true_iff in Hd.
  - destruct Hd as (H1 & H2 & _). unfold exec. simpl.
    rewrite H1. simpl. rewrite H2. simpl. reflexivity.
  - destruct Hd as (H1 & H2 & H3 & _). unfold exec. simpl.
    rewrite H1. simpl. rewrite H2. simpl. rewrite H3. simpl. reflexivity.
  - destruct Hd as (H1 & H2 & H3 & H4 & H5).
    rewrite re_phone_unfold. unfold exec, phone_body.
    set (s := ch "+" :: d1 :: d2 :: d3 :: d4 :: rest).
    assert (Hs : length s = 5 + length rest) by reflexivity.
    destruct (length s <? 0) eqn:E; [apply Nat.ltb_lt in E; lia|].
    rewrite Nat.sub_0_r, Hs. cbn [Nat.add exec_from].
    assert (R : rmatch s (Seq Bol (Seq (C "+")
                  (Seq (Group 1 (Seq digit (Upto 2 digit))) phone_tail))) 0 [] accept
                = Some (length s, [(2, (4, length s)); (1, (1, 4))])).
    { cbn [rmatch Upto Opt digit C Nat.eqb]. unfold s at 1. cbn [nth_error].
      change (eqc (ch "+") (ch "+")) with true. cbv iota.
      unfold s at 1. cbn [nth_error]. rewrite H1.
      unfold s at 1. cbn [nth_error]. rewrite H2.
      unfold s at 1. cbn [nth_error]. rewrite H3.
      rewrite rmatch_phone_tail; [reflexivity | unfold s; simpl; lia |].
      intros x Hx. unfold s in Hx. simpl in Hx. destruct Hx as [<-|Hx]; auto.
      rewrite forallb_forall in H5. auto. }
    rewrite R, Hs. reflexivity.
Qed.

(** No other subject has a match: a match of [re_phone] covers the whole
    subject, a sign followed by at least two digits. *)
Lemma Run_phone_inv s i j c' :
  Run s re_phone i [] j c' ->
  exists ds, s = ch "+" :: ds /\ forallb isDigit ds = true /\ 2 <= length ds.
Proof.
  rewrite re_phone_unfold. intros H. inv H.
  match goal with H : Run _ Bol _ _ _ _ |- _ => inv H end.
  match goal with H : Run _ (Seq (C _) _) _ _ _ _ |- _ => inv H end.
  match goal with H : Run _ (C _) _ _ _ _ |- _ => inv H end.
  match goal with H : Run _ phone_body _ _ _ _ |- _ => rename H into Hb end.
  destruct s as [|s0 ds]; [discriminate|].
  match goal with H : nth_error _ 0 = Some _ |- _ => simpl in H; inv H end.
  match goal with H : eqc _ _ = true |- _ => apply N.eqb_eq in H; subst end.
  exists ds. split; [reflexivity|].
  assert (Hend : j = length (ch "+" :: ds)).
  { unfold phone_body, phone_tail in Hb. inv Hb.
    match goal with H : Run _ (Seq (Group 2 _) Eol) _ _ _ _ |- _ => inv H end.
    match goal with H : Run _ Eol _ _ _ _ |- _ => inv H end. reflexivity. }
  split.
  - apply forallb_forall. intros d Hd. apply In_nth_error in Hd. destruct Hd as (n & Hn).
    assert (Hlt : n < length ds) by (apply nth_error_Some; congruence).
    destruct (Run_alphabet _ _ _ _ _ _ Hb (S n)) as (y & Hy & Ha).
    + rewrite Hend. simpl. lia.
    + simpl in Hy. rewrite Hn in Hy. inv Hy. simpl in Ha.
      destruct (isDigit y); [reflexivity | discriminate].
  - apply Run_min_len in Hb. rewrite Hend in Hb. simpl in Hb. lia.
Qed.

Lemma exec_phone_none s :
  (forall ds, s = ch "+" :: ds -> forallb isDigit ds = true -> length ds < 2) ->
  exec re_phone s 0 = None.
Proof.
  intros H. destruct (exec re_phone s 0) as [m|] eqn:E; [exfalso|reflexivity].
  apply exec_Some in E. destruct E as (_ & _ & _ & HR & _).
  apply Run_phone_inv in HR. destruct HR as (ds & Hs & Hd & Hlen).
  specialize (H ds Hs Hd). lia.
Qed.

Lemma substring_cons x (s : jsstring) i j :
  substring (x :: s) (S i) (S j) = substring s i j.
Proof. reflexivity. Qed.

Lemma substring_from_0 (s : jsstring) j : substring s 0 j = firstn j s.
Proof. unfold substring. rewrite Nat.sub_0_r. reflexivity. Qed.

Lemma substring_to_end (s : jsstring) i : substring s i (length s) = skipn i s.
Proof.
  unfold substring. apply firstn_all2. rewrite length_skipn. lia.
Qed.

(** Where [formatPhone] puts the space: when the phone, stripped of
    everything but digits and plus signs, is a plus sign followed by two
    digits or more, the result is the sign, the first three digits (all but
    the last when there are fewer than four), a space and the remaining
    digits; every other phone is returned as it is. *)
Lemma formatPhone_split (phone : jsstring) :
  (forall ds, filter keepPhoneChar phone = ch "+" :: ds ->
     forallb isDigit ds = true -> 2 <= length ds ->
     formatPhone phone
     = ch "+" :: firstn (countryLen ds) ds ++ ch " " :: skipn (countryLen ds) ds)
  /\ ((forall ds, filter keepPhoneChar phone = ch "+" :: ds ->
         forallb isDigit ds = true -> length ds < 2) ->
      formatPhone phone = phone).
Proof.
  split.
  - intros ds Hc Hd Hlen. unfold formatPhone.
    destruct phone as [|c0 phone0]; [discriminate|].
    rewrite cleaned_phone, Hc. cbv zeta.
    change (startsWith (lit "+") (ch "+" :: ds)) with true. cbv iota.
    rewrite exec_phone_digits by assumption.
    unfold group. cbn [lookup_cap m_caps Nat.eqb].
    rewrite !substring_cons, substring_from_0, substring_to_end. reflexivity.
  - intros H. unfold formatPhone. destruct phone as [|c0 phone0]; [reflexivity|].
    rewrite cleaned_phone. cbv zeta.
    destruct (startsWith _ _); [|reflexivity].
    rewrite exec_phone_none by assumption. reflexivity.
Qed.

(** C1: the code at the two examples of the claim.  The pattern splits a
    country code of one to three digits off the digits, but its first group
    takes as many digits as it can: the space comes after three digits, and
    neither example gives [+1 2345678901]. *)
Theorem formatPhone_greedy_split :
  formatPhone (lit "+12345678901") = lit "+123 45678901"
  /\ formatPhone (lit "+1 2345678901") = lit "+123 45678901"
  /\ formatPhone (lit "+12345678901") <> lit "+1 2345678901"
  /\ formatPhone (lit "+1 2345678901") <> lit "+1 2345678901".
Proof.
  assert (H1 : formatPhone (lit "+12345678901") = lit "+123 45678901").
  { apply (proj1 (formatPhone_split (lit "+12345678901")) (lit "12345678901"));
      [reflexivity | reflexivity | vm_compute; lia]. }
  assert (H2 : formatPhone (lit "+1 2345678901") = lit "+123 45678901").
  { apply (proj1 (formatPhone_split (lit "+1 2345678901")) (lit "12345678901"));
      [reflexivity | reflexivity | vm_compute; lia]. }
  split; [exact H1|]. split; [exact H2|]. rewrite H1, H2. split; discriminate.
Qed.

(** * Location cleaning *)

(** C3, as the code has it: the parentheses around what is left stay. *)
Theorem cleanLocation_examples :
  cleanLocation (lit "Remote (USA)") = lit "(USA)"
  /\ cleanLocation (lit "New York, Remote") = lit "New York".
Proof. split; vm_compute; reflexivity. Qed.

(** C3 as stated fails on its first example. *)
Lemma cleanLocation_as_stated_fails :
  cleanLocation (lit "Remote (USA)") <> lit "USA".
Proof. vm_compute. discriminate. Qed.

(** * Date normalization *)

Arguments isSpace : simpl never.
Arguments eqc : simpl never.

Lemma no_dash_DashSpaced l : ~ In en_dash l -> DashSpaced l.
Proof.
  intros H a b E. exfalso. apply H. rewrite E. apply in_or_app. simpl; auto.
Qed.

Lemma DashSpaced_step gap out :
  ~ In en_dash gap -> DashSpaced out -> DashSpaced (gap ++ spaced_dash ++ out).
Proof.
  intros Hgap Hout. induction gap as [|g gap IH]; intros a b E.
  - simpl in E. destruct a as [|x [|y [|z a]]]; simpl in E; inv E.
    + split; [exists []; reflexivity | eauto].
    + destruct (Hout a b eq_refl) as ((a' & ->) & Hb).
      split; [|assumption]. exists (ch " " :: en_dash :: ch " " :: a'). reflexivity.
  - destruct a as [|x a]; simpl in E; injection E as E1 E2.
    + exfalso. apply Hgap. simpl; auto.
    + apply IH in E2; [destruct E2 as ((a' & ->) & Hb) |].
      * split; [|assumption]. exists (x :: a'). reflexivity.
      * intros Hin. apply Hgap. simpl; auto.
Qed.

Lemma MatchAt_dash s k :
  nth_error s k = Some en_dash -> MatchAt s re_dash_spaced k.
Proof.
  intros H. exists (S k), []. unfold re_dash_spaced. simpl.
  eapply R_Seq; [apply R_Star0|]. eapply R_Seq; [|apply R_Star0].
  econstructor; [eassumption | reflexivity].
Qed.

Lemma dash_replacement_spaced s :
  DashSpaced (replaceAll re_dash_spaced (const_rep spaced_dash) s).
Proof.
  apply (replaceAll_ind re_dash_spaced (const_rep spaced_dash) s ltac:(simpl; lia)
           (fun _ out => DashSpaced out)).
  - intros q Hq E. apply no_dash_DashSpaced. intros Hin.
    apply In_skipn in Hin. destruct Hin as (k & Hk & Hin).
    apply (exec_None _ _ _ E k); [lia|]. apply MatchAt_dash. assumption.
  - intros q m out Hq E IH. apply DashSpaced_step; [|assumption].
    intros Hin. apply In_substring in Hin. destruct Hin as (k & Hk & Hin).
    apply exec_Some in E. destruct E as (_ & _ & _ & _ & Hleft).
    apply (Hleft k Hk). apply MatchAt_dash. assumption.
Qed.

Lemma hyphens_replaced s :
  replaceAll re_hyphen (const_rep [en_dash]) s = map hyphenToDash s.
Proof.
  unfold re_hyphen, C. rewrite replaceAll_class. apply flat_map_subst.
Qed.

(** A match of the spaced-dash pattern: white space, one en dash, white
    space. *)
Lemma Run_dash_inv s i j c' :
  Run s re_dash_spaced i [] j c' ->
  exists u,
    i <= u /\ S u <= j
    /\ (forall k, i <= k < u -> exists x, nth_error s k = Some x /\ isSpace x = true)
    /\ nth_error s u = Some en_dash
    /\ (forall k, S u <= k < j -> exists x, nth_error s k = Some x /\ isSpace x = true).
Proof.
  unfold re_dash_spaced. simpl Seqs. intros H. inv H.
  match goal with H : Run _ (StarG ws) _ _ _ _ |- _ =>
    apply Run_star_class_inv in H; destruct H as (Hle1 & -> & Hws1) end.
  match goal with H : Run _ (Seq _ _) _ _ _ _ |- _ => inv H end.
  match goal with H : Run _ (Char _) _ _ _ _ |- _ =>
    apply Run_Char_inv in H; destruct H as (-> & -> & x & Hx & Hd) end.
  match goal with H : Run _ (StarG ws) _ _ _ _ |- _ =>
    apply Run_star_class_inv in H; destruct H as (Hle2 & -> & Hws2) end.
  apply N.eqb_eq in Hd. subst x.
  eexists. repeat split; eassumption.
Qed.



Lemma At_two_hyphens s k :
  nth_error s k = Some (ch "-") -> nth_error s (S k) = Some (ch "-") ->
  MatchAt s re_two_hyphens k.
Proof.
  intros H1 H2. exists (length (lit "--") + k), []. apply Run_Lit.
  intros [|[|n]] x Hx; simpl in Hx; inv Hx.
  - rewrite Nat.add_0_r. assumption.
  - replace (k + 1) with (S k) by lia. assumption.
  - destruct n; discriminate.
Qed.

Lemma pairsToDash_cons2 c c2 t :
  pairsToDash (c :: c2 :: t)
  = if (eqc (ch "-") c && eqc (ch "-") c2)%bool then en_dash :: pairsToDash t
    else c :: pairsToDash (c2 :: t).
Proof. reflexivity. Qed.


(** Where no double hyphen starts before a double hyphen, the pass over pairs
    copies up to it. *)
Lemma pairsToDash_gap gap : forall rest,
  (forall k, k < length gap ->
     ~ (nth_error (gap ++ ch "-" :: ch "-" :: rest) k = Some (ch "-")
        /\ nth_error (gap ++ ch "-" :: ch "-" :: rest) (S k) = Some (ch "-"))) ->
  pairsToDash (gap ++ ch "-" :: ch "-" :: rest) = gap ++ en_dash :: pairsToDash rest.
Proof.
  induction gap as [|c gap IH]; intros rest H; [reflexivity|].
  assert (Hrec : pairsToDash (gap ++ ch "-" :: ch "-" :: rest)
                 = gap ++ en_dash :: pairsToDash rest).
  { apply IH. intros k Hk. apply (H (S k)). simpl. lia. }
  change ((c :: gap) ++ ch "-" :: ch "-" :: rest)
    with (c :: (gap ++ ch "-" :: ch "-" :: rest)) in *.
  destruct (gap ++ ch "-" :: ch "-" :: rest) as [|c2 t] eqn:E.
  - destruct gap; discriminate.
  - rewrite pairsToDash_cons2.
    destruct (eqc (ch "-") c && eqc (ch "-") c2)%bool eqn:Ec.
    + exfalso. apply andb_true_iff in Ec. destruct Ec as [E1 E2].
      apply N.eqb_eq in E1, E2. subst. apply (H 0); [simpl; lia|]. auto.
    + rewrite Hrec. reflexivity.
Qed.

Lemma pairsToDash_none (l : jsstring) :
  (forall k, ~ (nth_error l k = Some (ch "-") /\ nth_error l (S k) = Some (ch "-"))) ->
  pairsToDash l = l.
Proof.
  induction l as [|c l IH]; intros H; [reflexivity|].
  assert (Hrec : pairsToDash l = l).
  { apply IH. intros k Hk. apply (H (S k)). assumption. }
  destruct l as [|c2 t]; [reflexivity|].
  rewrite pairsToDash_cons2.
  destruct (eqc (ch "-") c && eqc (ch "-") c2)%bool eqn:Ec.
  - exfalso. apply andb_true_iff in Ec. destruct Ec as [E1 E2].
    apply N.eqb_eq in E1, E2. subst. apply (H 0). auto.
  - rewrite Hrec. reflexivity.
Qed.

(** The first replacement is the pass over pairs. *)
Lemma two_hyphens_replaced s :
  replaceAll re_two_hyphens (const_rep [en_dash]) s = pairsToDash s.
Proof.
  apply (replaceAll_ind re_two_hyphens (const_rep [en_dash]) s ltac:(simpl; lia)
           (fun q out => out = pairsToDash (skipn q s))).
  - intros q Hq E. symmetry. apply pairsToDash_none. intros k (Hk1 & Hk2).
    rewrite nth_error_skipn in Hk1, Hk2.
    assert (q + k < length s) by (apply nth_error_Some; congruence).
    apply (exec_None _ _ _ E (q + k)); [lia|].
    apply At_two_hyphens; [assumption|]. replace (S (q + k)) with (q + S k) by lia.
    assumption.
  - intros q m out Hq E ->.
    pose proof (exec_progress re_two_hyphens s ltac:(simpl; lia) _ _ E) as (H1 & H2 & H3).
    apply exec_Some in E. destruct E as (_ & _ & _ & HR & Hleft).
    apply Run_Lit_inv in HR. destruct HR as (Hj & _ & Hat).
    pose proof (Hat 0 _ eq_refl) as Ha0. pose proof (Hat 1 _ eq_refl) as Ha1.
    rewrite Nat.add_0_r in Ha0. replace (m_start m + 1) with (S (m_start m)) in Ha1 by lia.
    simpl in Hj.
    assert (Es : skipn q s = substring s q (m_start m)
                             ++ ch "-" :: ch "-" :: skipn (m_end m) s).
    { rewrite (skipn_substring s q (m_start m)) by assumption. f_equal.
      rewrite (skipn_cons_nth _ _ _ Ha0), (skipn_cons_nth _ _ _ Ha1), Hj.
      replace (m_start m + 2) with (S (S (m_start m))) by lia. reflexivity. }
    rewrite Es, pairsToDash_gap; [reflexivity|].
    rewrite <- Es. intros k Hk (Hk1 & Hk2).
    rewrite substring_length in Hk by lia.
    rewrite nth_error_skipn in Hk1, Hk2.
    apply (Hleft (q + k)); [lia|].
    apply At_two_hyphens; [assumption|]. replace (S (q + k)) with (q + S k) by lia.
    assumption.
Qed.



(** * Bullet cleaning *)

Lemma marker_not_space m : isMarker m = true -> isSpace m = false.
Proof.
  unfold isMarker, one_of. simpl. rewrite !orb_true_iff, !N.eqb_eq.
  intros [->|[->|[->|[->|[->|[->|H]]]]]]; try reflexivity. discriminate.
Qed.

Lemma MatchAt_marker m rest :
  isMarker m = true -> MatchAt (m :: rest) re_bullet_marker 0.
Proof.
  intros H. exists 1, []. unfold re_bullet_marker. simpl.
  eapply R_Seq; [apply R_Bol|]. eapply R_Seq; [|apply R_Star0].
  econstructor; [reflexivity | assumption].
Qed.

(** A match of the marker pattern: the marker at index 0, then white space. *)
Lemma Run_marker_inv s i j c' :
  Run s re_bullet_marker i [] j c' ->
  i = 0 /\ 1 <= j
  /\ (exists m, nth_error s 0 = Some m /\ isMarker m = true)
  /\ forall k, 1 <= k < j -> exists y, nth_error s k = Some y /\ isSpace y = true.
Proof.
  unfold re_bullet_marker. simpl. intros H. inv H.
  match goal with H : Run _ Bol _ _ _ _ |- _ => inv H end.
  match goal with H : Run _ (Seq _ _) _ _ _ _ |- _ => inv H end.
  match goal with H : Run _ (Char _) _ _ _ _ |- _ => inv H end.
  match goal with H : Run _ (StarG _) _ _ _ _ |- _ => rename H into Hs end.
  pose proof (Run_bounds _ _ _ _ _ _ Hs) as [Hb _].
  repeat split; auto.
  - eauto.
  - intros k Hk. apply (Run_alphabet _ _ _ _ _ _ Hs k Hk).
Qed.

Lemma trimStart_skipn (s : jsstring) : forall k,
  (forall n, n < k -> exists y, nth_error s n = Some y /\ isSpace y = true) ->
  trimStart (skipn k s) = trimStart s.
Proof.
  induction s as [|x s IH]; intros k H.
  - rewrite skipn_nil. reflexivity.
  - destruct k as [|k]; [reflexivity|]. simpl skipn.
    destruct (H 0 ltac:(lia)) as (y & Hy & Hsp). simpl in Hy. inv Hy.
    unfold trimStart at 2. simpl. rewrite Hsp. fold (trimStart s). apply IH.
    intros n Hn. apply (H (S n)). lia.
Qed.

Lemma trimStart_nonspace c rest :
  isSpace c = false -> trimStart (c :: rest) = c :: rest.
Proof. intros H. unfold trimStart. simpl. rewrite H. reflexivity. Qed.

Lemma exec_marker_none s :
  (forall m rest, s = m :: rest -> isMarker m = false) ->
  exec re_bullet_marker s 0 = None.
Proof.
  intros H. destruct (exec re_bullet_marker s 0) as [r|] eqn:E; [exfalso|reflexivity].
  apply exec_Some in E. destruct E as (_ & _ & _ & HR & _).
  apply Run_marker_inv in HR. destruct HR as (_ & _ & (m & Hm & Hk) & _).
  destruct s as [|x rest]; [discriminate|]. simpl in Hm. inv Hm.
  rewrite (H m rest eq_refl) in Hk. discriminate.
Qed.

(** C7, as the code has it: a marker at the very start goes together with the
    white space after it, white space at both ends of what is left is
    trimmed, and nothing else changes.  A bullet whose first code unit that is
    not white space is no marker is only trimmed. *)
Theorem cleanBullet_spec :
  (forall m rest, isMarker m = true ->
     cleanBullet (m :: rest) = trimEnd (trimStart rest))
  /\ (forall bullet,
        (forall m rest, trimStart bullet = m :: rest -> isMarker m = false) ->
        cleanBullet bullet = trim bullet).
Proof.
  split.
  - intros m rest Hm. unfold cleanBullet, replace.
    destruct (exec_finds (m :: rest) re_bullet_marker 0 0 ltac:(simpl; lia)
                (MatchAt_marker m rest Hm)) as (r & E & Hr).
    rewrite E. apply exec_Some in E. destruct E as (_ & _ & Hlen & HR & _).
    apply Run_marker_inv in HR. destruct HR as (H0 & Hj & _ & Hws).
    rewrite H0. unfold const_rep. simpl firstn. simpl app.
    destruct (m_end r) as [|j]; [lia|]. simpl skipn. unfold trim.
    f_equal. apply trimStart_skipn. intros n Hn.
    destruct (Hws (S n) ltac:(lia)) as (y & Hy & Hsp). simpl in Hy. eauto.
  - intros bullet H. unfold cleanBullet, replace.
    rewrite exec_marker_none; [reflexivity|].
    intros m rest ->. destruct (isMarker m) eqn:Hm; [exfalso|reflexivity].
    assert (Hf : isMarker m = false); [|congruence].
    apply (H m rest). apply trimStart_nonspace. apply marker_not_space. assumption.
Qed.

Lemma cleanBullet_spec_witness :
  cleanBullet (bullet_dot :: lit "  Led a team of five ") = lit "Led a team of five"
  /\ cleanBullet (lit " Led a team of five ") = lit "Led a team of five".
Proof.
  split.
  - apply (proj1 cleanBullet_spec bullet_dot (lit "  Led a team of five ")). reflexivity.
  - apply (proj2 cleanBullet_spec (lit " Led a team of five ")).
    intros m rest H. vm_compute in H. inversion H. reflexivity.
Defined.

(** C7 as stated fails: white space at the end of the bullet goes too, and a
    marker behind leading white space stays. *)
Lemma cleanBullet_as_stated_fails :
  cleanBullet (lit "- shipped ") <> lit "shipped "
  /\ cleanBullet (lit "  - shipped") <> lit "shipped".
Proof. split; vm_compute; discriminate. Qed.

(** * Conversion to a string *)








(** * The profile-only parser *)















(** C6: the promise of [parseFromProfilePage] is always fulfilled, with
    [success: true] and the enhanced document when the extraction returns,
    with [success: false] and the message of the error when it throws. *)
Theorem parseFromProfilePage_never_throws
    (time : Type) (elapsed : time -> time -> time)
    (env : environment time) (profileData : value) :
  exists resp,
    parseFromProfilePage elapsed env profileData = Ok resp
    /\ match resp with
       | Success data timing source =>
           success resp = true
           /\ exists d, extractTechnicalExperience profileData = Ok d
                        /\ data = enhanceForATS (isoDate env) d
       | Failure msg =>
           success resp = false
           /\ exists e, extractTechnicalExperience profileData = Throw e
                        /\ msg = message e
       end.
Proof.
  unfold parseFromProfilePage.
  destruct (extractTechnicalExperience profileData) as [d|e]; simpl.
  - eexists. split; [reflexivity|]. simpl. split; [reflexivity|]. eauto.
  - eexists. split; [reflexivity|]. simpl. split; [reflexivity|]. eauto.
Qed.

(** An input that makes the extraction throw: the failure carries the text of
    the [TypeError]. *)
Lemma parseFromProfilePage_caught (env : environment Z) :
  parseFromProfilePage Z.sub env sample_numeric_phone
  = Ok (Failure (lit "phone.replace is not a function")).
Proof. reflexivity. Qed.

(** * Strings: occurrences, [indexOf] and [slice] *)

Lemma startsWith_app m : forall s, startsWith m s = true <-> exists t, s = m ++ t.
Proof.
  induction m as [|a m IH]; intros s; simpl.
  - split; eauto.
  - destruct s as [|b s].
    + split; [discriminate | intros (t & Ht); discriminate].
    + rewrite andb_true_iff, N.eqb_eq, IH. split.
      * intros (-> & t & ->). eauto.
      * intros (t & Ht). inversion Ht; subst. eauto.
Qed.

Lemma startsWith_nonempty a m s : startsWith (a :: m) s = true -> s <> [].
Proof. destruct s; [discriminate | congruence]. Qed.

Lemma find_from_Some m : forall s k i,
  find_from m s k = Some i ->
  exists d, i = k + d /\ d <= length s /\ startsWith m (skipn d s) = true
    /\ forall d', d' < d -> startsWith m (skipn d' s) = false.
Proof.
  induction s as [|c s IH]; intros k i H.
  - simpl in H. destruct (startsWith m []) eqn:E; [|discriminate].
    inversion H; subst. exists 0. repeat split; auto; try lia.
  - cbn [find_from] in H. destruct (startsWith m (c :: s)) eqn:E.
    + inversion H; subst. exists 0. repeat split; auto; simpl; lia.
    + apply IH in H. destruct H as (d & -> & Hd & Hs & Hmin).
      exists (S d). repeat split; simpl; auto; try lia.
      intros [|d'] Hd'; simpl; [assumption|]. apply Hmin. lia.
Qed.

Lemma find_from_None m : forall s k,
  find_from m s k = None ->
  forall d, startsWith m (skipn d s) = false.
Proof.
  induction s as [|c s IH]; intros k H d.
  - simpl in H. destruct (startsWith m []) eqn:E; [discriminate|].
    rewrite skipn_nil. assumption.
  - cbn [find_from] in H. destruct (startsWith m (c :: s)) eqn:E; [discriminate|].
    destruct d as [|d]; simpl; [assumption|]. eapply IH; eassumption.
Qed.

(** [indexOf] returns the least occurrence at or after the position. *)
Lemma indexOf_found s m position r :
  indexOf s m position = r -> r <> (-1)%Z ->
  exists i, r = Z.of_nat i /\ clampIndex s position <= i <= length s
    /\ OccursAt m s i
    /\ forall i', clampIndex s position <= i' < i -> ~ OccursAt m s i'.
Proof.
  unfold indexOf, OccursAt.
  set (start := clampIndex s position).
  assert (Hstart : start <= length s) by (unfold start, clampIndex; lia).
  destruct (find_from m (skipn start s) start) as [i|] eqn:E; [|congruence].
  intros <- _. apply find_from_Some in E. destruct E as (d & -> & Hd & Hs & Hmin).
  rewrite length_skipn in Hd. rewrite skipn_skipn in Hs.
  exists (start + d). repeat split; try lia.
  - rewrite Nat.add_comm. assumption.
  - intros i' Hi'. specialize (Hmin (i' - start) ltac:(lia)).
    rewrite skipn_skipn in Hmin. replace (i' - start + start) with i' in Hmin by lia.
    congruence.
Qed.

Lemma indexOf_none s m position :
  indexOf s m position = (-1)%Z ->
  forall i, clampIndex s position <= i -> ~ OccursAt m s i.
Proof.
  unfold indexOf, OccursAt.
  set (start := clampIndex s position).
  destruct (find_from m (skipn start s) start) as [i|] eqn:E; [lia|].
  intros _ i Hi. pose proof (find_from_None _ _ _ E (i - start)) as H.
  rewrite skipn_skipn in H. replace (i - start + start) with i in H by lia.
  congruence.
Qed.

Lemma slice_substring s (i e : nat) :
  slice s (Z.of_nat i) (Z.of_nat e) = substring s i e.
Proof.
  unfold slice, substring.
  destruct (Z.of_nat i <? 0)%Z eqn:Ei; [apply Z.ltb_lt in Ei; lia|].
  destruct (Z.of_nat e <? 0)%Z eqn:Ee; [apply Z.ltb_lt in Ee; lia|].
  destruct (Nat.le_gt_cases (length s) i) as [Hi|Hi].
  - rewrite (Z.min_r (Z.of_nat i)) by lia. rewrite Nat2Z.id.
    rewrite !skipn_all2 by lia. rewrite !firstn_nil. reflexivity.
  - rewrite (Z.min_l (Z.of_nat i)) by lia. rewrite Nat2Z.id.
    destruct (Nat.le_gt_cases e (length s)) as [He|He].
    + rewrite Z.min_l by lia. f_equal. lia.
    + rewrite Z.min_r by lia.
      rewrite !firstn_all2; auto; rewrite length_skipn; lia.
Qed.

Lemma slice_prefix s n : (0 <= n)%Z -> slice s 0 n = firstn (Z.to_nat n) s.
Proof.
  intros Hn. rewrite <- (Z2Nat.id n) at 1 by assumption.
  change 0%Z with (Z.of_nat 0). rewrite slice_substring.
  unfold substring. rewrite Nat.sub_0_r. reflexivity.
Qed.

Lemma slice_length_le s n : (0 <= n)%Z -> (Z.of_nat (length (slice s 0 n)) <= n)%Z.
Proof.
  intros Hn. rewrite slice_prefix by assumption.
  pose proof (firstn_le_length (Z.to_nat n) s). rewrite length_firstn. lia.
Qed.

Lemma OccursAt_lt a m s i : OccursAt (a :: m) s i -> i < length s.
Proof.
  unfold OccursAt. intros H. apply startsWith_nonempty in H.
  destruct (Nat.le_gt_cases (length s) i) as [Hle|]; [|assumption].
  rewrite skipn_all2 in H by assumption. congruence.
Qed.

Lemma indexOf_least s m position i :
  OccursAt m s i -> clampIndex s position <= i <= length s ->
  (forall i', clampIndex s position <= i' < i -> ~ OccursAt m s i') ->
  indexOf s m position = Z.of_nat i.
Proof.
  intros Ho Hi Hmin. destruct (Z.eq_dec (indexOf s m position) (-1)) as [E|E].
  - exfalso. eapply indexOf_none; [exact E | | exact Ho]. lia.
  - destruct (indexOf_found _ _ _ _ eq_refl E) as (i0 & E0 & Hi0 & Ho0 & Hmin0). rewrite E0.
    f_equal. destruct (Nat.lt_trichotomy i0 i) as [Hlt|[->|Hgt]]; [|reflexivity|].
    + exfalso. apply (Hmin i0); [lia | assumption].
    + exfalso. apply (Hmin0 i); [lia | assumption].
Qed.

Lemma clampIndex_0 s : clampIndex s 0 = 0.
Proof. unfold clampIndex. lia. Qed.

Lemma clampIndex_nat s (n : nat) : clampIndex s (Z.of_nat n) = Nat.min n (length s).
Proof. unfold clampIndex. lia. Qed.

Lemma startMarkers_nonempty : nonempty_all startMarkers.
Proof. intros m Hm. simpl in Hm. intuition (subst; discriminate). Qed.

Lemma endMarkers_nonempty : nonempty_all endMarkers.
Proof. intros m Hm. simpl in Hm. intuition (subst; discriminate). Qed.

Lemma indexOf_absent s m position :
  m <> [] -> (forall i, clampIndex s position <= i < length s -> ~ OccursAt m s i) ->
  indexOf s m position = (-1)%Z.
Proof.
  intros Hm Hnone.
  destruct (Z.eq_dec (indexOf s m position) (-1)) as [E|E]; [assumption|exfalso].
  destruct (indexOf_found _ _ _ _ eq_refl E) as (i & _ & Hi & Ho & _).
  destruct m as [|a m]; [congruence|].
  pose proof (OccursAt_lt _ _ _ _ Ho). apply (Hnone i); [lia | assumption].
Qed.

(** The first loop finds nothing when no marker occurs. *)
Lemma findStart_none upper ms :
  NoneOccurs ms upper 0 (length upper) -> nonempty_all ms ->
  findStart upper ms = (-1)%Z.
Proof.
  induction ms as [|m ms IH]; intros Hnone Hne; simpl; [reflexivity|].
  rewrite indexOf_absent.
  - simpl. apply IH.
    + intros m' i Hm'. apply Hnone. simpl; auto.
    + intros m' Hm'. apply Hne. simpl; auto.
  - apply Hne. simpl; auto.
  - intros i Hi. apply Hnone; simpl; auto. lia.
Qed.

(** Otherwise the first marker of the list that occurs decides, at its first
    occurrence. *)
Lemma findStart_found upper pre m post i :
  NoneOccurs pre upper 0 (length upper) -> nonempty_all (pre ++ m :: post) ->
  OccursAt m upper i -> (forall i', i' < i -> ~ OccursAt m upper i') ->
  findStart upper (pre ++ m :: post) = Z.of_nat i.
Proof.
  intros Hnone Hne Ho Hmin. induction pre as [|m0 pre IH]; simpl.
  - assert (Hm : m <> []) by (apply Hne; simpl; auto).
    destruct m as [|a m]; [congruence|]. pose proof (OccursAt_lt _ _ _ _ Ho).
    rewrite (indexOf_least _ _ _ i); auto.
    + destruct (Z.of_nat i =? -1)%Z eqn:E; [apply Z.eqb_eq in E; lia | reflexivity].
    + rewrite clampIndex_0. lia.
    + intros i' Hi'. apply Hmin. lia.
  - rewrite indexOf_absent.
    + simpl. apply IH.
      * intros m' i' Hm'. apply Hnone. simpl; auto.
      * intros m' Hm'. apply Hne. simpl; auto.
    + apply Hne. simpl; auto.
    + intros i' Hi'. apply Hnone; simpl; auto. lia.
Qed.

Lemma findEnd_fold upper position ms : forall acc,
  let r := fold_left (end_step upper position) ms acc in
  (r <= acc)%Z
  /\ (r = acc \/ exists m, In m ms /\ r = indexOf upper m position /\ r <> (-1)%Z)
  /\ (forall m, In m ms ->
        indexOf upper m position = (-1)%Z \/ (r <= indexOf upper m position)%Z).
Proof.
  induction ms as [|m ms IH]; intros acc; simpl.
  - repeat split; auto; try lia; try (intros m []).
  - specialize (IH (end_step upper position acc m)). simpl in IH.
    destruct IH as (Hle & Hor & Hall).
    set (r := fold_left _ ms _) in *.
    assert (Hstep : (end_step upper position acc m <= acc)%Z
                    /\ (indexOf upper m position = (-1)%Z
                        \/ (end_step upper position acc m <= indexOf upper m position)%Z)
                    /\ (end_step upper position acc m = acc
                        \/ (end_step upper position acc m = indexOf upper m position
                            /\ indexOf upper m position <> (-1)%Z))).
    { unfold end_step. simpl.
      destruct (indexOf upper m position =? -1)%Z eqn:E1;
        [apply Z.eqb_eq in E1 | apply Z.eqb_neq in E1]; simpl; [lia|].
      destruct (indexOf upper m position <? acc)%Z eqn:E2;
        [apply Z.ltb_lt in E2 | apply Z.ltb_ge in E2]; lia. }
    destruct Hstep as (H1 & H2 & H3). repeat split.
    + lia.
    + destruct Hor as [Hr|(m' & Hm' & Hr & Hn)].
      * destruct H3 as [H3|[H3 H3']]; [left; lia|].
        right. exists m. split; [auto|]. split; lia.
      * right. exists m'. auto.
    + intros m' [<-|Hm']; [|auto]. destruct H2; [auto | right; lia].
Qed.

Lemma findEnd_spec upper i e :
  SectionEnd upper (i + 20) e ->
  findEnd upper (Z.of_nat i) endMarkers = Z.of_nat e.
Proof.
  intros (Hnone & Hcase). unfold findEnd.
  pose proof (findEnd_fold upper (Z.of_nat i + 20) endMarkers (Z.of_nat (length upper)))
    as (Hle & Hor & Hall).
  cbv zeta in Hle, Hor, Hall. set (r := fold_left _ endMarkers _) in *.
  replace (Z.of_nat i + 20)%Z with (Z.of_nat (i + 20)) in * by lia.
  (* every index the loop finds is an occurrence at or after [i + 20] *)
  assert (Hidx : forall m, In m endMarkers -> indexOf upper m (Z.of_nat (i + 20)) <> (-1)%Z ->
            exists k, indexOf upper m (Z.of_nat (i + 20)) = Z.of_nat k
                      /\ i + 20 <= k < length upper /\ OccursAt m upper k).
  { intros m Hm Hn. destruct (indexOf_found _ _ _ _ eq_refl Hn) as (k & Hk & Hr & Ho & _).
    rewrite clampIndex_nat in Hr.
    assert (Hne : m <> []) by (apply endMarkers_nonempty; assumption).
    destruct m as [|a m]; [congruence|]. pose proof (OccursAt_lt _ _ _ _ Ho).
    exists k. repeat split; auto; lia. }
  destruct Hcase as [->|(Hlo & m0 & Hm0 & Ho0)].
  - destruct Hor as [Hr|(m & Hm & Hr & Hn)]; [assumption|exfalso].
    rewrite Hr in Hn. destruct (Hidx m Hm Hn) as (k & _ & Hk & Ho).
    apply (Hnone m k); auto.
  - assert (Hne : m0 <> []) by (apply endMarkers_nonempty; assumption).
    destruct m0 as [|a m0]; [congruence|]. pose proof (OccursAt_lt _ _ _ _ Ho0) as Hlt.
    assert (E0 : indexOf upper (a :: m0) (Z.of_nat (i + 20)) = Z.of_nat e).
    { apply indexOf_least; auto.
      - rewrite clampIndex_nat. lia.
      - intros i' Hi'. rewrite clampIndex_nat in Hi'. apply Hnone; auto. lia. }
    assert (Hre : (r <= Z.of_nat e)%Z).
    { destruct (Hall _ Hm0) as [H|H]; rewrite E0 in H; lia. }
    destruct Hor as [Hr|(m & Hm & Hr & Hn)]; [lia|].
    rewrite Hr in Hn. destruct (Hidx m Hm Hn) as (k & Hk & Hkr & Ho).
    rewrite Hr, Hk in *. f_equal.
    destruct (Nat.eq_dec k e) as [|Hne']; [assumption|exfalso].
    apply (Hnone m k); auto. lia.
Qed.

(** * Work-experience focusing *)

Section FocusFacts.

Variable toUpperCase : jsstring -> jsstring.

Lemma focus_no_header text :
  findStart (toUpperCase text) startMarkers = (-1)%Z ->
  getWorkExperienceFocusedText toUpperCase text = firstn (Z.to_nat 20000) text.
Proof.
  intros H. unfold getWorkExperienceFocusedText. rewrite H. simpl Z.eqb. cbv iota.
  apply slice_prefix. lia.
Qed.

Lemma cap_section section :
  (if (25000 <? Z.of_nat (length section))%Z then slice section 0 25000 else section)
  = firstn (Z.to_nat 25000) section.
Proof.
  destruct (25000 <? Z.of_nat (length section))%Z eqn:E.
  - apply slice_prefix. lia.
  - apply Z.ltb_ge in E. rewrite firstn_all2; [reflexivity | lia].
Qed.

Lemma focus_header text i :
  findStart (toUpperCase text) startMarkers = Z.of_nat i ->
  forall e, findEnd (toUpperCase text) (Z.of_nat i) endMarkers = Z.of_nat e ->
  getWorkExperienceFocusedText toUpperCase text
  = firstn (Z.to_nat 25000) (substring text i e).
Proof.
  intros H e He. unfold getWorkExperienceFocusedText. rewrite H.
  destruct (Z.of_nat i =? -1)%Z eqn:E; [apply Z.eqb_eq in E; lia|].
  rewrite He, slice_substring. apply cap_section.
Qed.

End FocusFacts.

Lemma noneOccursb_sound ms s lo hi :
  noneOccursb ms s lo hi = true -> NoneOccurs ms s lo hi.
Proof.
  unfold noneOccursb, NoneOccurs, OccursAt. intros H m i Hm Hi.
  rewrite forallb_forall in H. specialize (H m Hm).
  rewrite forallb_forall in H. specialize (H i).
  rewrite negb_true_iff in H. rewrite H; [discriminate|].
  apply in_seq. lia.
Qed.

(** C10: the focused text has at most 25000 code units, and at most 20000
    when no section header occurs in the upper-cased text. *)
Theorem focused_text_bounded (toUpperCase : jsstring -> jsstring) (text : jsstring) :
  (Z.of_nat (length (getWorkExperienceFocusedText toUpperCase text)) <= 25000)%Z
  /\ (NoneOccurs startMarkers (toUpperCase text) 0 (length (toUpperCase text)) ->
      (Z.of_nat (length (getWorkExperienceFocusedText toUpperCase text)) <= 20000)%Z).
Proof.
  split.
  - unfold getWorkExperienceFocusedText.
    destruct (findStart (toUpperCase text) startMarkers =? -1)%Z.
    + pose proof (slice_length_le text 20000 ltac:(lia)). lia.
    + rewrite cap_section, length_firstn. lia.
  - intros Hnone. rewrite focus_no_header.
    + rewrite length_firstn. lia.
    + apply findStart_none; [assumption | apply startMarkers_nonempty].
Qed.

Lemma focused_text_bounded_witness :
  (Z.of_nat (length (getWorkExperienceFocusedText asciiUpper sample_no_header)) <= 20000)%Z.
Proof.
  apply (focused_text_bounded asciiUpper sample_no_header).
  apply noneOccursb_sound. vm_compute. reflexivity.
Defined.

(** A capped part of a string is a part of it. *)
Lemma firstn_substring (s : jsstring) n i e :
  firstn n (substring s i e) = substring s i (i + Nat.min n (e - i)).
Proof.
  unfold substring. rewrite firstn_firstn. f_equal. lia.
Qed.

(** ASCII upper-casing works code unit by code unit. *)
Lemma asciiUpper_KeepsPlaces text : KeepsPlaces asciiUpper text.
Proof.
  unfold KeepsPlaces, asciiUpper, substring. split.
  - apply length_map.
  - intros i j. rewrite skipn_map, firstn_map. reflexivity.
Qed.

(** C4, as the code has it.  Without a header in the upper-cased text the
    result is the first 20000 code units of the text.  Otherwise, where
    upper-casing keeps the places of the text: the section starts at the
    first occurrence of the first header of the list that occurs in the
    upper-cased text, and ends at the first occurrence of a terminator at
    least 20 code units later (at the end of the text when there is none); it
    is capped at 25000 code units; upper-cased, it is that very part of the
    upper-cased text. *)
Theorem focused_text_spec (toUpperCase : jsstring -> jsstring) (text : jsstring) :
  (NoneOccurs startMarkers (toUpperCase text) 0 (length (toUpperCase text)) ->
   getWorkExperienceFocusedText toUpperCase text = firstn (Z.to_nat 20000) text)
  /\ (KeepsPlaces toUpperCase text ->
      forall pre m post i e,
        startMarkers = pre ++ m :: post ->
        NoneOccurs pre (toUpperCase text) 0 (length (toUpperCase text)) ->
        OccursAt m (toUpperCase text) i ->
        (forall i', i' < i -> ~ OccursAt m (toUpperCase text) i') ->
        SectionEnd (toUpperCase text) (i + 20) e ->
        getWorkExperienceFocusedText toUpperCase text
        = firstn (Z.to_nat 25000) (substring text i e)
        /\ toUpperCase (getWorkExperienceFocusedText toUpperCase text)
           = firstn (Z.to_nat 25000) (substring (toUpperCase text) i e)
        /\ (e = length text
            \/ (i + 20 <= e /\ exists t, In t endMarkers /\ OccursAt t (toUpperCase text) e))).
Proof.
  split.
  - intros Hnone. apply focus_no_header.
    apply findStart_none; [assumption | apply startMarkers_nonempty].
  - intros [Hlen Hparts] pre m post i e Hsplit Hpre Ho Hmin Hend.
    assert (E : getWorkExperienceFocusedText toUpperCase text
                = firstn (Z.to_nat 25000) (substring text i e)).
    { apply focus_header.
      - rewrite Hsplit. apply findStart_found; auto.
        rewrite <- Hsplit. apply startMarkers_nonempty.
      - apply findEnd_spec. assumption. }
    split; [exact E|]. split.
    + rewrite E, !firstn_substring. apply Hparts.
    + destruct Hend as (_ & [He|He]); [left; congruence | right; exact He].
Qed.

Lemma focused_text_spec_witness :
  getWorkExperienceFocusedText asciiUpper sample_no_header = sample_no_header
  /\ getWorkExperienceFocusedText asciiUpper sample_early_terminator
     = lit "Experience. Skills used: Rust. "
  /\ asciiUpper (getWorkExperienceFocusedText asciiUpper sample_early_terminator)
     = lit "EXPERIENCE. SKILLS USED: RUST. ".
Proof.
  split.
  - apply (focused_text_spec asciiUpper sample_no_header).
    apply noneOccursb_sound. vm_compute. reflexivity.
  - assert (H : getWorkExperienceFocusedText asciiUpper sample_early_terminator
               = firstn (Z.to_nat 25000) (substring sample_early_terminator 0 31)
             /\ asciiUpper (getWorkExperienceFocusedText asciiUpper sample_early_terminator)
                = firstn (Z.to_nat 25000)
                    (substring (asciiUpper sample_early_terminator) 0 31)
             /\ (31 = length sample_early_terminator
                 \/ (0 + 20 <= 31
                     /\ exists t, In t endMarkers
                                  /\ OccursAt t (asciiUpper sample_early_terminator) 31))).
    { apply (proj2 (focused_text_spec asciiUpper sample_early_terminator)
               (asciiUpper_KeepsPlaces sample_early_terminator)
               [lit "WORK EXPERIENCE"; lit "PROFESSIONAL EXPERIENCE"]
               (lit "EXPERIENCE") [lit "EMPLOYMENT HISTORY"] 0 31).
      - reflexivity.
      - apply noneOccursb_sound. vm_compute. reflexivity.
      - vm_compute. reflexivity.
      - intros i' Hi'. lia.
      - split.
        + apply noneOccursb_sound. vm_compute. reflexivity.
        + right. split; [lia|]. exists (lit "EDUCATION"). split.
          * simpl. auto.
          * vm_compute. reflexivity. }
    destruct H as (H1 & H2 & _). split; [exact H1 | exact H2].
Defined.

(** C4 as stated fails: a terminator within 20 code units of the header is
    passed over, and an earlier header of lower rank does not start the
    section. *)
Lemma focused_text_as_stated_fails :
  ~ focus_as_stated (asciiUpper sample_early_terminator) sample_early_terminator
      (getWorkExperienceFocusedText asciiUpper sample_early_terminator)
  /\ ~ focus_as_stated (asciiUpper sample_two_headers) sample_two_headers
      (getWorkExperienceFocusedText asciiUpper sample_two_headers).
Proof.
  split; intros H.
  - specialize (H 0 12). assert (E : FirstHeader (asciiUpper sample_early_terminator) 0).
    { split.
      - exists (lit "EXPERIENCE"). split; [simpl; auto | vm_compute; reflexivity].
      - intros m i _ Hi. lia. }
    specialize (H E). clear E.
    assert (E : NextTerminator (asciiUpper sample_early_terminator) 0 12).
    { split; [lia|]. split.
      - exists (lit "SKILLS"). split; [simpl; auto | vm_compute; reflexivity].
      - apply noneOccursb_sound. vm_compute. reflexivity. }
    specialize (H E). vm_compute in H. discriminate H.
  - specialize (H 0 62). assert (E : FirstHeader (asciiUpper sample_two_headers) 0).
    { split.
      - exists (lit "EMPLOYMENT HISTORY"). split; [simpl; auto | vm_compute; reflexivity].
      - intros m i _ Hi. lia. }
    specialize (H E). clear E.
    assert (E : NextTerminator (asciiUpper sample_two_headers) 0 62).
    { split; [lia|]. split.
      - exists (lit "EDUCATION"). split; [simpl; auto | vm_compute; reflexivity].
      - apply noneOccursb_sound. vm_compute. reflexivity. }
    specialize (H E). vm_compute in H. discriminate H.
Qed.

(** * The readability check *)

(** C8: a string of fewer than 100 code units is never readable. *)
Theorem short_text_unreadable (text : jsstring) :
  length text < 100 -> isTextReadable text = false.
Proof.
  intros H. unfold isTextReadable. destruct text as [|c t]; [reflexivity|].
  apply Nat.ltb_lt in H. rewrite H. reflexivity.
Qed.

Lemma short_text_unreadable_witness :
  isTextReadable (lit "Work experience: engineer at a company, degree in skills") = false.
Proof.
  apply short_text_unreadable. vm_compute. lia.
Defined.

(** * Text of a PDF file: the text objects *)

Ltac hello_alphabet :=
  let x := fresh "x" in let Hx := fresh "Hx" in
  intros x Hx; simpl in Hx;
  repeat (destruct Hx as [<-|Hx]; [reflexivity|]); destruct Hx.

Lemma decode_hello s : Contains hello s -> Contains hello (decodePDFString s).
Proof.
  intros H. unfold decodePDFString.
  repeat (apply replaceAll_contains; [simpl; lia | hello_alphabet |]).
  assumption.
Qed.

Lemma At_part a w b s i : At (a ++ w ++ b) s i -> At w s (i + length a).
Proof.
  intros H k x Hk. rewrite <- Nat.add_assoc. apply H.
  rewrite nth_error_app2 by lia. replace (length a + k - length a) with k by lia.
  rewrite nth_error_app1; [assumption|]. apply nth_error_Some. congruence.
Qed.

(** A match of [tjRegex] taken apart. *)
Lemma Run_tj_inv s i j c' :
  Run s tjRegex i [] j c' ->
  exists close t,
    nth_error s i = Some (ch "(")
    /\ (forall k, S i <= k < close -> exists x, nth_error s k = Some x /\ notClose x = true)
    /\ S i <= close
    /\ nth_error s close = Some (ch ")")
    /\ (forall k, S close <= k < t -> exists x, nth_error s k = Some x /\ isSpace x = true)
    /\ S close <= t
    /\ At (lit "Tj") s t /\ j = t + 2
    /\ c' = [(1, (S i, close))].
Proof.
  unfold tjRegex. simpl Seqs. intros H. inv H.
  match goal with H : Run _ (C _) _ _ _ _ |- _ =>
    apply Run_C_inv in H; destruct H as (-> & -> & Hopen) end.
  match goal with H : Run _ (Seq (Group _ _) _) _ _ _ _ |- _ => inv H end.
  match goal with H : Run _ (Group _ _) _ _ _ _ |- _ => inv H end.
  match goal with H : Run _ (StarG (Char notClose)) _ _ _ _ |- _ =>
    apply Run_star_class_inv in H; destruct H as (Hle1 & -> & Hin) end.
  match goal with H : Run _ (Seq (C _) _) _ _ _ _ |- _ => inv H end.
  match goal with H : Run _ (C _) _ _ _ _ |- _ =>
    apply Run_C_inv in H; destruct H as (-> & -> & Hclose) end.
  match goal with H : Run _ (Seq (StarG ws) _) _ _ _ _ |- _ => inv H end.
  match goal with H : Run _ (StarG ws) _ _ _ _ |- _ =>
    apply Run_star_class_inv in H; destruct H as (Hle2 & -> & Hws) end.
  match goal with H : Run _ (Lit _) _ _ _ _ |- _ =>
    apply Run_Lit_inv in H; destruct H as (-> & -> & Htj) end.
  eexists _, _. repeat split; try eassumption.
Qed.

Lemma At_nth w s i : At w s i ->
  forall k x, nth_error w k = Some x -> nth_error s (k + i) = Some x.
Proof. intros H k x Hk. rewrite Nat.add_comm. apply H. assumption. Qed.

Ltac at_char Hn := eexists; split; [apply Hn; reflexivity | reflexivity].

Lemma MatchAt_tj s a : At tj_text s a -> MatchAt s tjRegex a.
Proof.
  intros H. pose proof (At_nth _ _ _ H) as Hn.
  unfold MatchAt, tjRegex. simpl Seqs. eexists _, _.
  eapply R_Seq.
  { econstructor; [apply (Hn 0); reflexivity | apply N.eqb_refl]. }
  eapply R_Seq.
  { apply R_Group. apply (Run_star_class true notClose s _ 5). intros k Hk.
    replace (k + S a) with (S k + a) by lia.
    do 5 (destruct k as [|k]; [at_char Hn|]). lia. }
  eapply R_Seq.
  { econstructor; [apply (Hn 6); reflexivity | apply N.eqb_refl]. }
  eapply R_Seq.
  { apply (Run_star_class true isSpace s _ 1). intros k Hk.
    destruct k as [|k]; [|lia]. eexists. split; [apply (Hn 7); reflexivity | reflexivity]. }
  apply Run_Lit. intros k x Hk.
  match goal with |- nth_error s ?e = _ => replace e with (8 + k + a) by lia end.
  apply (Hn (8 + k)).
  do 2 (destruct k as [|k]; [exact Hk|]). destruct k; discriminate.
Qed.

Ltac clash H1 H2 := rewrite H1 in H2; discriminate H2.

(** A match of [tjRegex] that reaches over the opening parenthesis of
    [(Hello) Tj] captures a string that ends in [Hello]. *)
Lemma tj_match_covers block a i j c' :
  At tj_text block a -> a + 10 <= length block ->
  Run block tjRegex i [] j c' -> i <= a -> a < j ->
  exists y, group block (MkMatch i j c') 1 = y ++ hello.
Proof.
  intros Hat Hlen HR Hi Hj. pose proof (At_nth _ _ _ Hat) as Hn.
  apply Run_tj_inv in HR.
  destruct HR as (close & t & Hopen & Hin & Hle1 & Hclose & Hws & Hle2 & Htj & -> & ->).
  assert (H0 : nth_error block a = Some (ch "(")) by (apply (Hn 0); reflexivity).
  assert (H6 : nth_error block (6 + a) = Some (ch ")")) by (apply (Hn 6); reflexivity).
  assert (Hc : close = 6 + a).
  { destruct (Nat.lt_trichotomy close (6 + a)) as [Hlt|[->|Hgt]]; [exfalso|reflexivity|exfalso].
    - destruct (Nat.le_gt_cases a close) as [Hge|Hbefore].
      + (* the closing parenthesis would lie in [(Hello] *)
        replace close with ((close - a) + a) in Hclose by lia.
        assert (Hk : close - a < 6) by lia.
        destruct (close - a) as [|[|[|[|[|[|k]]]]]]; try lia;
          match type of Hclose with nth_error _ (?k + a) = _ =>
            pose proof (Hn k _ eq_refl) as Hx; rewrite Hclose in Hx; discriminate Hx end.
      + destruct (Nat.lt_trichotomy t a) as [Ht|[->|Ht]].
        * assert (t + 1 = a) by lia. subst a.
          pose proof (Htj 1 _ eq_refl) as Hx. clash Hx H0.
        * pose proof (Htj 0 _ eq_refl) as Hx. rewrite Nat.add_0_r in Hx. clash Hx H0.
        * destruct (Hws a ltac:(lia)) as (x & Hx & Hsp). rewrite H0 in Hx. inv Hx.
          discriminate Hsp.
    - destruct (Hin (6 + a) ltac:(lia)) as (x & Hx & Hnc). rewrite H6 in Hx. inv Hx.
      discriminate Hnc. }
  subst close. unfold group. simpl.
  exists (substring block (S i) (S a)).
  rewrite (substring_app block (S i) (S a) (S (S (S (S (S (S a))))))) by lia.
  f_equal. change (S (S (S (S (S (S a)))))) with (length hello + S a).
  rewrite Nat.add_comm. apply At_substring_eq; [|simpl; lia].
  replace (S a) with (a + length (lit "(")) by (simpl; lia).
  apply (At_part (lit "(") hello (lit ") Tj")). exact Hat.
Qed.

Lemma trimStart_contains w s c w' :
  w = c :: w' -> isSpace c = false -> Contains w s -> Contains w (trimStart s).
Proof.
  intros -> Hc (a & b & ->). induction a as [|x a IH].
  - simpl. unfold trimStart. simpl. rewrite Hc. exists [], b. reflexivity.
  - unfold trimStart. simpl. destruct (isSpace x).
    + exact IH.
    + exists (x :: a), b. reflexivity.
Qed.

Lemma Contains_rev w s : Contains w s -> Contains (rev w) (rev s).
Proof.
  intros (a & b & ->). exists (rev b), (rev a). rewrite !rev_app_distr, <- app_assoc.
  reflexivity.
Qed.

(** Trimming keeps a part that neither starts nor ends with white space. *)
Lemma trim_contains w s c w' d w'' :
  w = c :: w' -> isSpace c = false -> rev w = d :: w'' -> isSpace d = false ->
  Contains w s -> Contains w (trim s).
Proof.
  intros Hw Hc Hr Hd H. unfold trim, trimEnd.
  rewrite <- (rev_involutive w). apply Contains_rev.
  apply (trimStart_contains (rev w) _ d w''); auto.
  apply Contains_rev. apply (trimStart_contains w s c w'); auto.
Qed.

Lemma trim_hello s : Contains hello s -> Contains hello (trim s).
Proof.
  apply (trim_contains hello s (ch "H") (lit "ello") (ch "o") (lit "lleH")); reflexivity.
Qed.

(** Among the strings of a block that holds [(Hello) Tj], one holds [Hello]. *)
Lemma tjStrings_hello block :
  Contains tj_text block -> exists d, In d (tjStrings block) /\ Contains hello d.
Proof.
  intros Hc. apply Contains_At in Hc. destruct Hc as (a & Hat & Hlen).
  change (length tj_text) with 10 in Hlen.
  assert (Hm : exists m, In m (execAll tjRegex block)
                         /\ exists y, group block m 1 = y ++ hello).
  { refine (execAll_ind tjRegex block ltac:(simpl; lia)
              (fun q l => q <= a -> exists m, In m l /\ exists y, group block m 1 = y ++ hello)
              _ _ ltac:(lia)).
    - intros q Hq E Hqa. exfalso.
      apply (exec_None _ _ _ E a); [lia | apply MatchAt_tj; assumption].
    - intros q m l Hq E IH Hqa.
      destruct (exec_finds block tjRegex q a ltac:(lia) (MatchAt_tj _ _ Hat))
        as (m' & E' & Hstart).
      rewrite E in E'. inv E'.
      apply exec_Some in E. destruct E as (_ & _ & _ & HR & _).
      destruct (Nat.le_gt_cases (m_end m') a) as [Hend|Hend].
      + destruct (IH Hend) as (m & Hin & Hy). exists m. split; [right; assumption | assumption].
      + exists m'. split; [left; reflexivity|].
        destruct m' as [i j c']. simpl in *.
        eapply tj_match_covers; eassumption. }
  destruct Hm as (m & Hin & y & Hy).
  exists (decodePDFString (group block m 1)).
  assert (Hd : Contains hello (decodePDFString (group block m 1))).
  { apply decode_hello. rewrite Hy. apply Contains_app_r. apply Contains_refl. }
  split; [|assumption]. unfold tjStrings. apply in_flat_map. exists m.
  split; [assumption|]. cbv zeta.
  destruct (trim (decodePDFString (group block m 1))) eqn:Et.
  - exfalso. apply trim_hello in Hd. rewrite Et in Hd.
    apply (Contains_nonempty _ _ Hd); [discriminate | reflexivity].
  - simpl. auto.
Qed.

(** A match of [textBlockRegex] taken apart. *)
Lemma Run_text_block_inv s i j c' :
  Run s textBlockRegex i [] j c' ->
  exists u v e,
    At (lit "BT") s i
    /\ (forall k, 2 + i <= k < u -> exists x, nth_error s k = Some x /\ isSpace x = true)
    /\ 2 + i <= u /\ u <= v
    /\ (forall k, v <= k < e -> exists x, nth_error s k = Some x /\ isSpace x = true)
    /\ v <= e
    /\ At (lit "ET") s e /\ j = 2 + e
    /\ c' = [(1, (u, v))].
Proof.
  unfold textBlockRegex. simpl Seqs. intros H. inv H.
  match goal with H : Run _ (Lit "BT") _ _ _ _ |- _ =>
    apply Run_Lit_inv in H; destruct H as (-> & -> & Hbt) end.
  match goal with H : Run _ (Seq (StarG ws) _) _ _ _ _ |- _ => inv H end.
  match goal with H : Run _ (StarG ws) _ _ _ _ |- _ =>
    apply Run_star_class_inv in H; destruct H as (Hle1 & -> & Hws1) end.
  match goal with H : Run _ (Seq (Group _ _) _) _ _ _ _ |- _ => inv H end.
  match goal with H : Run _ (Group _ _) _ _ _ _ |- _ => inv H end.
  match goal with H : Run _ (StarL any) _ _ _ _ |- _ =>
    apply Run_star_class_inv in H; destruct H as (Hle2 & -> & _) end.
  match goal with H : Run _ (Seq (StarG ws) _) _ _ _ _ |- _ => inv H end.
  match goal with H : Run _ (StarG ws) _ _ _ _ |- _ =>
    apply Run_star_class_inv in H; destruct H as (Hle3 & -> & Hws2) end.
  match goal with H : Run _ (Lit "ET") _ _ _ _ |- _ =>
    apply Run_Lit_inv in H; destruct H as (-> & -> & Het) end.
  simpl length in *. eexists _, _, _. repeat split; try eassumption; try lia.
  intros k Hk. apply Hws1. lia.
Qed.

Lemma MatchAt_text_block s p : At pdf_block s p -> MatchAt s textBlockRegex p.
Proof.
  intros H. pose proof (At_nth _ _ _ H) as Hn.
  unfold MatchAt, textBlockRegex. simpl Seqs. eexists _, _.
  eapply R_Seq.
  { apply Run_Lit. apply (At_part [] (lit "BT") (lit " (Hello) Tj ET") s p) in H.
    rewrite Nat.add_0_r in H. exact H. }
  eapply R_Seq; [apply R_Star0|].
  eapply R_Seq.
  { apply R_Group. apply (Run_star_class false (fun _ => true) s _ 12). intros k Hk.
    replace (k + (length (lit "BT") + p)) with ((2 + k) + p) by (simpl; lia).
    assert (Hlt : 2 + k < length pdf_block) by (simpl; lia).
    apply nth_error_Some in Hlt.
    destruct (nth_error pdf_block (2 + k)) as [x|] eqn:Ex; [|congruence].
    exists x. split; [apply Hn; assumption | reflexivity]. }
  eapply R_Seq; [apply R_Star0|].
  apply Run_Lit. intros k x Hk.
  match goal with |- nth_error s ?e = _ => replace e with (14 + k + p) by (simpl; lia) end.
  apply (Hn (14 + k)).
  do 2 (destruct k as [|k]; [exact Hk|]). destruct k; discriminate.
Qed.

(** A match of [textBlockRegex] that reaches over the [BT] of the text object
    captures a block that holds [(Hello) Tj]. *)
Lemma block_match_covers text p i j c' :
  At pdf_block text p -> p + 16 <= length text ->
  Run text textBlockRegex i [] j c' -> i <= p -> p < j -> j <= length text ->
  Contains tj_text (group text (MkMatch i j c') 1).
Proof.
  intros Hat Hlen HR Hi Hj Hjl. pose proof (At_nth _ _ _ Hat) as Hn.
  apply Run_text_block_inv in HR.
  destruct HR as (u & v & e & Hbt & Hws1 & Hle1 & Hle2 & Hws2 & Hle3 & Het & -> & ->).
  assert (H0 : nth_error text p = Some (ch "B")) by (apply (Hn 0); reflexivity).
  assert (H3 : nth_error text (3 + p) = Some (ch "(")) by (apply (Hn 3); reflexivity).
  assert (H12 : nth_error text (12 + p) = Some (ch "j")) by (apply (Hn 12); reflexivity).
  assert (He : 14 + p <= e).
  { destruct (Nat.le_gt_cases (14 + p) e) as [|Hlt]; [assumption|exfalso].
    destruct (Nat.le_gt_cases p e) as [Hge|Hbefore].
    - pose proof (Het 0 _ eq_refl) as Hx. rewrite Nat.add_0_r in Hx.
      replace e with ((e - p) + p) in Hx by lia.
      assert (Hk : e - p < 14) by lia.
      destruct (e - p) as [|[|[|[|[|[|[|[|[|[|[|[|[|[|k]]]]]]]]]]]]]]; try lia;
        match type of Hx with nth_error _ (?k + p) = _ =>
          pose proof (Hn k _ eq_refl) as Hy; rewrite Hx in Hy; discriminate Hy end.
    - assert (e + 1 = p) by lia. subst p.
      pose proof (Het 1 _ eq_refl) as Hx. clash Hx H0. }
  assert (Hv : 13 + p <= v).
  { destruct (Nat.le_gt_cases (13 + p) v) as [|Hlt]; [assumption|exfalso].
    destruct (Hws2 (12 + p) ltac:(lia)) as (x & Hx & Hsp). rewrite H12 in Hx. inv Hx.
    discriminate Hsp. }
  assert (Hu : u <= 3 + p).
  { destruct (Nat.le_gt_cases u (3 + p)) as [|Hgt]; [assumption|exfalso].
    destruct (Nat.eq_dec i p) as [->|Hne].
    - destruct (Hws1 (3 + p) ltac:(lia)) as (x & Hx & Hsp). rewrite H3 in Hx. inv Hx.
      discriminate Hsp.
    - destruct (Nat.eq_dec (i + 1) p) as [<-|Hne'].
      + pose proof (Hbt 1 _ eq_refl) as Hx. clash Hx H0.
      + destruct (Hws1 p ltac:(lia)) as (x & Hx & Hsp). rewrite H0 in Hx. inv Hx.
        discriminate Hsp. }
  unfold group. simpl.
  apply (Contains_substring tj_text text (3 + p)); try (simpl; lia).
  replace (3 + p) with (p + length (lit "BT ")) by (simpl; lia).
  apply (At_part (lit "BT ") tj_text (lit " ET")). exact Hat.
Qed.

(** Among the strings of the text objects, one holds [Hello]. *)
Lemma blockTexts_hello text :
  Contains pdf_block text -> exists d, In d (blockTexts text) /\ Contains hello d.
Proof.
  intros Hc. apply Contains_At in Hc. destruct Hc as (p & Hat & Hlen).
  change (length pdf_block) with 16 in Hlen.
  assert (Hm : exists m, In m (execAll textBlockRegex text)
                         /\ Contains tj_text (group text m 1)).
  { refine (execAll_ind textBlockRegex text ltac:(simpl; lia)
              (fun q l => q <= p -> exists m, In m l /\ Contains tj_text (group text m 1))
              _ _ ltac:(lia)).
    - intros q Hq E Hqp. exfalso.
      apply (exec_None _ _ _ E p); [lia | apply MatchAt_text_block; assumption].
    - intros q m l Hq E IH Hqp.
      destruct (exec_finds text textBlockRegex q p ltac:(lia) (MatchAt_text_block _ _ Hat))
        as (m' & E' & Hstart).
      rewrite E in E'. inv E'.
      apply exec_Some in E. destruct E as (_ & _ & Hend' & HR & _).
      destruct (Nat.le_gt_cases (m_end m') p) as [Hend|Hend].
      + destruct (IH Hend) as (m & Hin & Hy). exists m. split; [right; assumption | assumption].
      + exists m'. split; [left; reflexivity|].
        destruct m' as [i j c']. simpl in *.
        eapply block_match_covers; eassumption. }
  destruct Hm as (m & Hin & Hblock).
  destruct (tjStrings_hello _ Hblock) as (d & Hd & Hh).
  exists d. split; [|assumption]. unfold blockTexts. apply in_flat_map.
  exists m. split; [assumption|]. apply in_or_app. left. assumption.
Qed.

(** * Text of a PDF file: joining and cleaning up *)

Lemma Spaced_refl s : Spaced s s.
Proof. induction s; constructor; assumption. Qed.

Lemma Spaced_app_keep g s o : Spaced s o -> Spaced (g ++ s) (g ++ o).
Proof. intros H. induction g; simpl; [assumption | constructor; assumption]. Qed.

Lemma Run_camel_inv s i j c' :
  Run s re_camel i [] j c' ->
  exists c1 c2,
    nth_error s i = Some c1 /\ isLower c1 = true
    /\ nth_error s (S i) = Some c2 /\ isUpper c2 = true
    /\ j = S (S i) /\ c' = [(2, (S i, S (S i))); (1, (i, S i))].
Proof.
  unfold re_camel. intros H. inv H.
  match goal with H : Run _ (Group 1 _) _ _ _ _ |- _ => inv H end.
  match goal with H : Run _ (Char isLower) _ _ _ _ |- _ => inv H end.
  match goal with H : Run _ (Group 2 _) _ _ _ _ |- _ => inv H end.
  match goal with H : Run _ (Char isUpper) _ _ _ _ |- _ => inv H end.
  eexists _, _. repeat split; eassumption.
Qed.

Lemma camel_spaced s :
  Spaced s (replaceAll re_camel (fun s m => group s m 1 ++ space ++ group s m 2) s).
Proof.
  apply (replaceAll_ind re_camel (fun s m => group s m 1 ++ space ++ group s m 2) s
           ltac:(simpl; lia) (fun q out => Spaced (skipn q s) out)).
  - intros q _ _. apply Spaced_refl.
  - intros q m out Hq E IH.
    pose proof (exec_progress re_camel s ltac:(simpl; lia) _ _ E) as (H1 & H2 & H3).
    apply exec_Some in E. destruct E as (_ & _ & _ & HR & _).
    destruct m as [i j c']. simpl in *. apply Run_camel_inv in HR.
    destruct HR as (c1 & c2 & Hc1 & Hl & Hc2 & Hu & -> & ->).
    rewrite (skipn_substring s q i) by assumption.
    apply Spaced_app_keep.
    rewrite (skipn_cons_nth _ _ _ Hc1), (skipn_cons_nth _ _ _ Hc2).
    unfold group. simpl lookup_cap. cbv iota beta.
    rewrite (substring_one _ _ _ Hc1), (substring_one _ _ _ Hc2).
    simpl. apply Sp_split; assumption.
Qed.

Lemma Spaced_prefix v : forall t o,
  noCamel v = true -> Spaced (v ++ t) o -> exists o', o = v ++ o'.
Proof.
  induction v as [|c v IH]; intros t o Hv H; [exists o; reflexivity|].
  simpl in Hv. apply andb_true_iff in Hv. destruct Hv as [Hc Hv].
  simpl in H. inv H.
  - match goal with H : Spaced (v ++ t) _ |- _ =>
      destruct (IH _ _ Hv H) as (o' & ->) end.
    exists o'. reflexivity.
  - destruct v as [|c2' v'].
    + eexists. reflexivity.
    + exfalso. simpl in *.
      match goal with H : c2 :: _ = c2' :: _ |- _ => inv H end.
      repeat match goal with H : _ = true |- _ => rewrite H in * end.
      discriminate Hc.
Qed.

Lemma Spaced_hello s o : Spaced s o -> Contains hello s -> Contains hello o.
Proof.
  induction 1 as [|c s o H IH|c1 c2 s o Hl Hu H IH]; intros (a & b & E).
  - destruct a; discriminate.
  - destruct a as [|x a].
    + change ([] ++ hello ++ b) with (hello ++ b) in E.
      assert (Hs : Spaced (hello ++ b) (c :: o)) by (rewrite <- E; constructor; assumption).
      destruct (Spaced_prefix hello _ _ eq_refl Hs) as (o' & ->).
      exists [], o'. reflexivity.
    + simpl in E. inv E. destruct IH as (a' & b' & ->); [exists a, b; reflexivity|].
      exists (x :: a'), b'. reflexivity.
  - destruct a as [|x [|y a]].
    + simpl in E. inv E. discriminate Hl.
    + change ([x] ++ hello ++ b) with (x :: ch "H" :: lit "ello" ++ b) in E. inv E.
      destruct (Spaced_prefix (lit "ello") _ _ eq_refl H) as (o' & ->).
      exists [x; ch " "], o'. reflexivity.
    + simpl in E. inv E. destruct IH as (a' & b' & ->); [exists a, b; reflexivity|].
      exists (x :: ch " " :: y :: a'), b'. reflexivity.
Qed.

(** What is joined from strings of which one holds [Hello] still holds it
    after the white space is collapsed, the camel case is split and the ends
    are trimmed. *)
Lemma cleaned_hello extracted d :
  In d extracted -> Contains hello d ->
  Contains hello
    (trim (replaceAll re_camel (fun s m => group s m 1 ++ space ++ group s m 2)
             (replaceAll re_spaces (const_rep space) (join space extracted)))).
Proof.
  intros Hin Hd. apply trim_hello. eapply Spaced_hello; [apply camel_spaced|].
  apply replaceAll_contains; [simpl; lia | hello_alphabet |].
  eapply Contains_join; eassumption.
Qed.

(** * Text of a PDF file: the fallback over the whole file *)

Lemma EndsWs_skipn a n : EndsWs a -> EndsWs (skipn n a).
Proof.
  intros [->|(a' & c & -> & Hc)]; [rewrite skipn_nil; left; reflexivity|].
  rewrite skipn_app. destruct (Nat.le_gt_cases n (length a')) as [Hle|Hgt].
  - replace (n - length a') with 0 by lia. right. exists (skipn n a'), c. auto.
  - rewrite skipn_all2 by lia. destruct (n - length a') as [|k] eqn:E; [lia|].
    simpl. rewrite skipn_nil. left. reflexivity.
Qed.

Lemma EndsWs_app_nonempty x a : EndsWs a -> a <> [] -> EndsWs (x ++ a).
Proof.
  intros [->|(a' & c & -> & Hc)] Hne; [congruence|].
  right. exists (x ++ a'), c. rewrite app_assoc. auto.
Qed.

Lemma EndsWs_space x : EndsWs (x ++ space).
Proof. right. exists x, (ch " "). auto. Qed.

Lemma StartsWs_firstn b n : StartsWs b -> StartsWs (firstn n b).
Proof.
  intros [->|(c & b' & -> & Hc)]; [rewrite firstn_nil; left; reflexivity|].
  destruct n; [left; reflexivity|]. right. exists c, (firstn n b'). auto.
Qed.

Lemma StartsWs_app_nonempty b y : StartsWs b -> b <> [] -> StartsWs (b ++ y).
Proof.
  intros [->|(c & b' & -> & Hc)] Hne; [congruence|].
  right. exists c, (b' ++ y). auto.
Qed.

Lemma spaces_alphabet s i c j c' k :
  Run s re_spaces i c j c' -> i <= k < j ->
  exists x, nth_error s k = Some x /\ isSpace x = true.
Proof.
  intros HR Hk. destruct (Run_alphabet _ _ _ _ _ _ HR k Hk) as (x & Hx & Ha).
  exists x. split; [assumption|]. simpl in Ha. destruct (isSpace x); auto.
Qed.

(** Collapsing white space keeps a word a word. *)
Lemma collapse_token w s :
  w <> [] -> (forall x, In x w -> isSpace x = false) ->
  Token w s -> Token w (replaceAll re_spaces (const_rep space) s).
Proof.
  intros Hw Hns Hs.
  assert (Hpos : 0 < length w) by (destruct w; [congruence | simpl; lia]).
  cut (forall a b, skipn 0 s = a ++ w ++ b -> EndsWs a -> StartsWs b ->
         exists a' b', replaceAll re_spaces (const_rep space) s = a' ++ w ++ b'
                       /\ EndsWs a' /\ StartsWs b' /\ (a = [] -> a' = [])).
  { destruct Hs as (a & b & -> & Ha & Hb).
    intros H. destruct (H a b eq_refl Ha Hb) as (a' & b' & E & Ha' & Hb' & _).
    exists a', b'. auto. }
  apply (replaceAll_ind re_spaces (const_rep space) s ltac:(simpl; lia)
            (fun q out => forall a b, skipn q s = a ++ w ++ b -> EndsWs a -> StartsWs b ->
               exists a' b', out = a' ++ w ++ b' /\ EndsWs a' /\ StartsWs b'
                             /\ (a = [] -> a' = []))).
  - intros q _ _ a b E Ha Hb. exists a, b. auto.
  - intros q m out Hq E IH a b Es Ha Hb.
    pose proof (exec_progress re_spaces s ltac:(simpl; lia) _ _ E) as (H1 & H2 & H3).
    apply exec_Some in E. destruct E as (_ & _ & _ & HR & _).
    assert (Hat : At w s (q + length a)).
    { apply At_of_skipn. rewrite Es. apply At_app. }
    assert (Hdis : m_end m <= q + length a \/ q + length a + length w <= m_start m).
    { destruct (Nat.le_gt_cases (m_end m) (q + length a)) as [|Hj]; [auto|].
      destruct (Nat.le_gt_cases (q + length a + length w) (m_start m)) as [|Hi]; [auto|].
      exfalso. set (k := Nat.max (m_start m) (q + length a)).
      destruct (spaces_alphabet _ _ _ _ _ k HR ltac:(unfold k; lia)) as (y & Hy & Hsp).
      assert (Hk : k - (q + length a) < length w) by (unfold k; lia).
      apply nth_error_Some in Hk.
      destruct (nth_error w (k - (q + length a))) as [x|] eqn:Ex; [|congruence].
      pose proof (Hat _ _ Ex) as Hx.
      replace (q + length a + (k - (q + length a))) with k in Hx by (unfold k; lia).
      assert (x = y) by congruence. subst.
      rewrite (Hns y) in Hsp; [discriminate|]. eapply nth_error_In; eassumption. }
    destruct Hdis as [Hbefore|Hafter].
    + assert (Es' : skipn (m_end m) s = skipn (m_end m - q) a ++ w ++ b).
      { replace (m_end m) with ((m_end m - q) + q) at 1 by lia.
        rewrite <- skipn_skipn, Es, skipn_app.
        replace (m_end m - q - length a) with 0 by lia. reflexivity. }
      destruct (IH _ _ Es' (EndsWs_skipn _ _ Ha) Hb) as (a' & b' & -> & Ha' & Hb' & _).
      exists (substring s q (m_start m) ++ const_rep space s m ++ a'), b'.
      split; [rewrite <- !app_assoc; reflexivity|]. split; [|split; [assumption|]].
      * destruct a' as [|x a'].
        -- rewrite app_nil_r. apply EndsWs_space.
        -- rewrite app_assoc. apply EndsWs_app_nonempty; [assumption | discriminate].
      * intros ->. simpl in *. lia.
    + assert (Eg : substring s q (m_start m)
                   = a ++ w ++ firstn (m_start m - q - length a - length w) b).
      { unfold substring. rewrite Es, firstn_app, firstn_app.
        rewrite (firstn_all2 a) by lia. rewrite (firstn_all2 w) by lia.
        rewrite <- Nat.sub_add_distr. reflexivity. }
      exists a, (firstn (m_start m - q - length a - length w) b ++ const_rep space s m ++ out).
      split; [rewrite Eg, <- !app_assoc; reflexivity|]. split; [assumption|].
      split; [|auto].
      destruct (firstn (m_start m - q - length a - length w) b) as [|x l] eqn:Ef.
      * right. exists (ch " "), out. auto.
      * rewrite <- Ef. apply StartsWs_app_nonempty; [apply StartsWs_firstn; assumption|].
        rewrite Ef. discriminate.
Qed.

Lemma dropWhile_is_skipn p (a : jsstring) : exists n, dropWhile p a = skipn n a.
Proof.
  induction a as [|x a IH]; [exists 0; reflexivity|].
  simpl. destruct (p x).
  - destruct IH as (n & ->). exists (S n). reflexivity.
  - exists 0. reflexivity.
Qed.

Lemma dropWhile_app p (a : jsstring) c t :
  p c = false -> dropWhile p (a ++ c :: t) = dropWhile p a ++ c :: t.
Proof.
  intros Hc. induction a as [|x a IH]; simpl.
  - rewrite Hc. reflexivity.
  - destruct (p x); [assumption | reflexivity].
Qed.

Lemma trimStart_token w s c w' :
  w = c :: w' -> isSpace c = false -> Token w s -> Token w (trimStart s).
Proof.
  intros -> Hc (a & b & -> & Ha & Hb). unfold trimStart.
  change (a ++ (c :: w') ++ b) with (a ++ c :: (w' ++ b)).
  rewrite dropWhile_app by assumption.
  exists (dropWhile isSpace a), b. split; [reflexivity|]. split; [|assumption].
  destruct (dropWhile_is_skipn isSpace a) as (n & ->). apply EndsWs_skipn. assumption.
Qed.

Lemma EndsWs_rev a : EndsWs a -> StartsWs (rev a).
Proof.
  intros [->|(a' & c & -> & Hc)]; [left; reflexivity|].
  right. exists c, (rev a'). rewrite rev_app_distr. auto.
Qed.

Lemma StartsWs_rev b : StartsWs b -> EndsWs (rev b).
Proof.
  intros [->|(c & b' & -> & Hc)]; [left; reflexivity|].
  right. exists (rev b'), c. auto.
Qed.

Lemma Token_rev w s : Token w s -> Token (rev w) (rev s).
Proof.
  intros (a & b & -> & Ha & Hb). exists (rev b), (rev a).
  rewrite !rev_app_distr, <- app_assoc.
  split; [reflexivity|]. split; [apply StartsWs_rev | apply EndsWs_rev]; assumption.
Qed.

(** Trimming keeps a word a word. *)
Lemma trim_token w s c w' d w'' :
  w = c :: w' -> isSpace c = false -> rev w = d :: w'' -> isSpace d = false ->
  Token w s -> Token w (trim s).
Proof.
  intros Hw Hc Hr Hd H. unfold trim, trimEnd.
  rewrite <- (rev_involutive w). apply Token_rev.
  apply (trimStart_token (rev w) _ d w''); auto.
  apply Token_rev. apply (trimStart_token w s c w'); auto.
Qed.

Lemma nonprintable_map s :
  replaceAll re_nonprintable (const_rep space) s
  = map (fun c => if negb (isPrintable c) then ch " " else c) s.
Proof.
  unfold re_nonprintable. change space with [ch " "].
  rewrite replaceAll_class. apply flat_map_subst.
Qed.

(** In the file with its unprintable code units blanked, [(Hello)] is a word. *)
Lemma blanked_token text :
  Contains pdf_block text ->
  Token hello_word (replaceAll re_nonprintable (const_rep space) text).
Proof.
  intros (a & b & ->). rewrite nonprintable_map, !map_app.
  set (g := fun c => if negb (isPrintable c) then ch " " else c).
  change (map g pdf_block) with (lit "BT " ++ hello_word ++ lit " Tj ET").
  exists (map g a ++ lit "BT "), (lit " Tj ET" ++ map g b).
  split; [rewrite <- !app_assoc; reflexivity|]. split.
  - right. exists (map g a ++ lit "BT"), (ch " "). rewrite <- app_assoc. auto.
  - right. exists (ch " "), (lit "Tj ET" ++ map g b). auto.
Qed.

Lemma hello_word_nospace x : In x hello_word -> isSpace x = false.
Proof.
  intros Hx. simpl in Hx. repeat (destruct Hx as [<-|Hx]; [reflexivity|]). destruct Hx.
Qed.

(** [(Hello)] is a word of the readable text of the file. *)
Lemma readable_token text :
  Contains pdf_block text -> Token hello_word (readableAscii text).
Proof.
  intros H. unfold readableAscii.
  apply (trim_token hello_word _ (ch "(") (lit "Hello)") (ch ")") (lit "olleH("));
    try reflexivity.
  apply collapse_token; [discriminate | apply hello_word_nospace |].
  apply blanked_token. assumption.
Qed.

(** The pattern [\s+] tried at one index, as [split] does. *)
Lemma sticky_spaces_Some s q e c :
  q <= length s -> rmatch s re_spaces q [] accept = Some (e, c) ->
  q < e <= length s
  /\ forall k, q <= k < e -> exists x, nth_error s k = Some x /\ isSpace x = true.
Proof.
  intros Hq H. apply rmatch_accept_Some in H.
  pose proof (Run_bounds _ _ _ _ _ _ H) as [_ Hb].
  pose proof (Run_min_len _ _ _ _ _ _ H) as Hm. simpl in Hm.
  split; [split; [lia | auto]|]. intros k Hk. eapply spaces_alphabet; eassumption.
Qed.

Lemma MatchAt_space s q x :
  nth_error s q = Some x -> isSpace x = true -> MatchAt s re_spaces q.
Proof.
  intros Hx Hsp. exists (S q), []. unfold re_spaces, Plus.
  eapply R_Seq; [econstructor; eassumption | apply R_Star0].
Qed.

Lemma sticky_spaces_space s q x :
  nth_error s q = Some x -> isSpace x = true ->
  rmatch s re_spaces q [] accept <> None.
Proof.
  intros Hx Hsp Hnone.
  assert (Hq : q < length s) by (apply nth_error_Some; congruence).
  apply (rmatch_accept_None s re_spaces q ltac:(lia) Hnone).
  eapply MatchAt_space; eassumption.
Qed.

Lemma sticky_spaces_other s q x :
  nth_error s q = Some x -> isSpace x = false ->
  rmatch s re_spaces q [] accept = None.
Proof.
  intros Hx Hsp. destruct (rmatch s re_spaces q [] accept) as [[e c]|] eqn:E; [|reflexivity].
  assert (Hq : q < length s) by (apply nth_error_Some; congruence).
  apply sticky_spaces_Some in E; [|lia]. destruct E as (He & Hall).
  destruct (Hall q ltac:(lia)) as (y & Hy & Hy'). congruence.
Qed.

Section SplitWord.

Variables a w b : jsstring.
Hypothesis w_nonempty : w <> [].
Hypothesis w_nospace : forall x, In x w -> isSpace x = false.
Hypothesis a_ends : EndsWs a.
Hypothesis b_starts : StartsWs b.

Let s := a ++ w ++ b.

Lemma word_char k : k < length w ->
  exists x, nth_error s (length a + k) = Some x /\ isSpace x = false.
Proof.
  intros Hk. apply nth_error_Some in Hk.
  destruct (nth_error w k) as [x|] eqn:Ex; [|congruence].
  exists x. split; [apply (At_app a w b); assumption|].
  apply w_nospace. eapply nth_error_In; eassumption.
Qed.

Lemma before_word : 0 < length a ->
  exists x, nth_error s (length a - 1) = Some x /\ isSpace x = true.
Proof.
  intros Hpos. destruct a_ends as [E|(a' & c & E & Hc)].
  - rewrite E in Hpos. simpl in Hpos. lia.
  - exists c. split; [|assumption]. unfold s. rewrite E, length_app. simpl.
    rewrite <- app_assoc. rewrite nth_error_app2 by lia.
    replace (length a' + 1 - 1 - length a') with 0 by lia. reflexivity.
Qed.

Lemma after_word : length a + length w < length s ->
  exists x, nth_error s (length a + length w) = Some x /\ isSpace x = true.
Proof.
  intros Hlt. destruct b_starts as [E|(c & b' & E & Hc)].
  - unfold s in Hlt. rewrite E, !length_app in Hlt. simpl in Hlt. lia.
  - exists c. split; [|assumption]. unfold s. rewrite E.
    rewrite nth_error_app2 by lia. rewrite nth_error_app2 by lia.
    replace (length a + length w - length a - length w) with 0 by lia. reflexivity.
Qed.

Lemma word_substring : substring s (length a) (length a + length w) = w.
Proof.
  apply At_substring_eq; [apply At_app|]. unfold s. rewrite !length_app. lia.
Qed.

(** Once a piece starts at the word, the word is the piece. *)
Lemma split_in_word : forall n k, k + n = length w ->
  forall fuel, length s - (length a + k) < fuel ->
  In w (split_loop re_spaces s fuel (length a) (length a + k)).
Proof.
  assert (Hlen : length s = length a + length w + length b)
    by (unfold s; rewrite !length_app; lia).
  induction n as [|n IH]; intros k Hk fuel Hfuel; (destruct fuel as [|fuel]; [lia|]);
    cbn [split_loop].
  - assert (k = length w) by lia. subst k.
    destruct (length s <=? length a + length w) eqn:E.
    + apply Nat.leb_le in E. left. rewrite <- word_substring. unfold substring.
      symmetry. apply firstn_all2. rewrite length_skipn. lia.
    + apply Nat.leb_gt in E. destruct (after_word E) as (x & Hx & Hsp).
      destruct (rmatch s re_spaces (length a + length w) [] accept) as [[e c]|] eqn:Em;
        [|exfalso; eapply sticky_spaces_space; eassumption].
      apply sticky_spaces_Some in Em; [|lia]. destruct Em as (He & _).
      rewrite Nat.min_l by lia.
      destruct (e =? length a) eqn:Ee; [apply Nat.eqb_eq in Ee; lia|].
      left. apply word_substring.
  - destruct (word_char k ltac:(lia)) as (x & Hx & Hsp).
    assert (Hq : length a + k < length s) by (apply nth_error_Some; congruence).
    destruct (length s <=? length a + k) eqn:E; [apply Nat.leb_le in E; lia|].
    rewrite (sticky_spaces_other _ _ _ Hx Hsp).
    replace (S (length a + k)) with (length a + S k) by lia.
    apply IH; lia.
Qed.

(** Before the word, every piece ends at or before the white space in front
    of it. *)
Lemma split_before_word : forall fuel p q,
  p <= q -> q <= length a -> (q = length a -> p = length a) ->
  length s - q < fuel ->
  In w (split_loop re_spaces s fuel p q).
Proof.
  assert (Hlen : length s = length a + length w + length b)
    by (unfold s; rewrite !length_app; lia).
  assert (Hpos : 0 < length w) by (destruct w; [congruence | simpl; lia]).
  induction fuel as [|fuel IH]; intros p q Hpq Hqa Hp Hfuel; [lia|].
  destruct (Nat.eq_dec q (length a)) as [->|Hne].
  - rewrite (Hp eq_refl). rewrite <- (Nat.add_0_r (length a)) at 2.
    apply (split_in_word (length w) 0); lia.
  - cbn [split_loop].
    destruct (length s <=? q) eqn:E; [apply Nat.leb_le in E; lia|].
    destruct (rmatch s re_spaces q [] accept) as [[e c]|] eqn:Em.
    + apply sticky_spaces_Some in Em; [|lia]. destruct Em as (He & Hall).
      assert (Hea : e <= length a).
      { destruct (Nat.le_gt_cases e (length a)) as [|Hgt]; [assumption|exfalso].
        destruct (Hall (length a) ltac:(lia)) as (x & Hx & Hsp).
        destruct (word_char 0 Hpos) as (y & Hy & Hy').
        rewrite Nat.add_0_r in Hy. congruence. }
      rewrite Nat.min_l by lia.
      destruct (e =? p) eqn:Ee; [apply Nat.eqb_eq in Ee; lia|].
      right. apply IH; lia.
    + apply IH; try lia. intros Hq. exfalso.
      destruct (before_word ltac:(lia)) as (x & Hx & Hsp).
      replace (length a - 1) with q in Hx by lia.
      eapply sticky_spaces_space; eassumption.
Qed.

End SplitWord.

(** A word of a string is one of the pieces [split(/\s+/)] gives. *)
Lemma split_token w s :
  w <> [] -> (forall x, In x w -> isSpace x = false) ->
  Token w s -> In w (splitRe re_spaces s).
Proof.
  intros Hw Hns (a & b & -> & Ha & Hb). unfold splitRe.
  destruct (a ++ w ++ b) as [|x t] eqn:E.
  - exfalso. apply app_eq_nil in E. destruct E as [_ E].
    apply app_eq_nil in E. destruct E. congruence.
  - rewrite <- E. apply (split_before_word a w b Hw Hns Ha Hb); lia.
Qed.

(** The words the last fallback keeps, joined, hold [Hello]. *)
Lemma meaningful_hello text :
  Contains pdf_block text ->
  Contains hello
    (join space (filter isMeaningfulWord (splitRe re_spaces (readableAscii text)))).
Proof.
  intros H. apply (Contains_join hello hello_word).
  - apply filter_In. split; [|vm_compute; reflexivity].
    apply split_token; [discriminate | apply hello_word_nospace |].
    apply readable_token. assumption.
  - exists (lit "("), (lit ")"). reflexivity.
Qed.

(** * Text of a PDF file *)

(** C9: when the decoded bytes hold the text object [BT (Hello) Tj ET], the
    extracted text holds [Hello]. *)
Theorem extractTextFromPDF_hello (data : list Byte.byte) :
  Contains pdf_block (decodeLatin1 data) ->
  Contains hello (extractTextFromPDF data).
Proof.
  intros H. unfold extractTextFromPDF. cbv zeta.
  destruct (blockTexts_hello _ H) as (d & Hd & Hh).
  assert (Hres : Contains hello
            (trim (replaceAll re_camel (fun s m => group s m 1 ++ space ++ group s m 2)
                     (replaceAll re_spaces (const_rep space)
                        (join space (blockTexts (decodeLatin1 data)
                                     ++ streamTexts (decodeLatin1 data))))))).
  { apply (cleaned_hello _ d); [|assumption]. apply in_or_app. left. assumption. }
  destruct (_ <? 200); [|assumption].
  destruct (_ <? _); [|assumption].
  apply meaningful_hello. assumption.
Qed.

Lemma extractTextFromPDF_hello_witness :
  Contains hello (extractTextFromPDF (encodeAscii "%PDF-1.4 BT (Hello) Tj ET %%EOF")).
Proof.
  apply extractTextFromPDF_hello.
  exists (lit "%PDF-1.4 "), (lit " %%EOF"). vm_compute. reflexivity.
Defined.

(** * White space at the ends and in a row *)

Lemma dropWhile_head p (s : jsstring) c t : dropWhile p s = c :: t -> p c = false.
Proof.
  induction s as [|x s IH]; simpl; [discriminate|].
  destruct (p x) eqn:E; [assumption|]. intros H. inv H. assumption.
Qed.

Lemma trim_firstn s : exists k, trim s = firstn k (trimStart s).
Proof.
  unfold trim, trimEnd. destruct (dropWhile_is_skipn isSpace (rev (trimStart s))) as (n & ->).
  rewrite skipn_rev, rev_involutive. eauto.
Qed.

Lemma trim_part s : exists a b, s = a ++ trim s ++ b.
Proof.
  destruct (trim_firstn s) as (k & ->). unfold trimStart.
  destruct (dropWhile_is_skipn isSpace s) as (n & ->).
  exists (firstn n s), (skipn k (skipn n s)).
  rewrite (firstn_skipn k), (firstn_skipn n). reflexivity.
Qed.

Lemma trim_Trimmed s : Trimmed (trim s).
Proof.
  split.
  - intros c t E. destruct (trim_firstn s) as (k & Hk). rewrite Hk in E.
    destruct (trimStart s) as [|c0 u] eqn:Eu.
    + rewrite firstn_nil in E. discriminate.
    + destruct k; [discriminate|]. simpl in E. inv E.
      apply (dropWhile_head isSpace s c u). assumption.
  - intros t c E. unfold trim, trimEnd in E.
    destruct (dropWhile isSpace (rev (trimStart s))) as [|c0 u] eqn:Eu.
    + destruct t; discriminate.
    + simpl in E. apply app_inj_tail in E. destruct E as [_ <-].
      eapply dropWhile_head. eassumption.
Qed.

Lemma Trimmed_trim s : Trimmed s -> trim s = s.
Proof.
  intros [H1 H2]. unfold trim, trimEnd, trimStart.
  assert (E1 : dropWhile isSpace s = s).
  { destruct s as [|c t]; [reflexivity|]. simpl. rewrite (H1 c t eq_refl). reflexivity. }
  rewrite E1.
  destruct (rev s) as [|c t] eqn:Er.
  - apply (f_equal (@rev _)) in Er. rewrite rev_involutive in Er. subst. reflexivity.
  - simpl. rewrite (H2 (rev t) c).
    + rewrite <- Er. apply rev_involutive.
    + rewrite <- (rev_involutive s), Er. reflexivity.
Qed.

Lemma Trimmed_nil : Trimmed [].
Proof. split; intros; [discriminate | destruct t; discriminate]. Qed.

Lemma SingleSpaced_part a s b : SingleSpaced (a ++ s ++ b) -> SingleSpaced s.
Proof.
  intros H k x y Hx Hy. apply (H (length a + k) x y).
  - rewrite nth_error_app2 by lia. replace (length a + k - length a) with k by lia.
    rewrite nth_error_app1; [assumption|]. apply nth_error_Some. congruence.
  - rewrite nth_error_app2 by lia. replace (S (length a + k) - length a) with (S k) by lia.
    rewrite nth_error_app1; [assumption|]. apply nth_error_Some. congruence.
Qed.

Lemma SingleSpaced_trim s : SingleSpaced s -> SingleSpaced (trim s).
Proof.
  intros H. destruct (trim_part s) as (a & b & E). rewrite E in H.
  eapply SingleSpaced_part. eassumption.
Qed.

Lemma SingleSpaced_nil : SingleSpaced [].
Proof. intros [|k] x y H; discriminate. Qed.

Lemma SingleSpaced_cons x s :
  SingleSpaced (x :: s)
  <-> SingleSpaced s /\ (isSpace x = true -> forall y t, s = y :: t -> isSpace y = false).
Proof.
  split.
  - intros H. split.
    + intros k a b Ha Hb. apply (H (S k) a b); assumption.
    + intros Hx y t ->. apply (H 0 x y); auto.
  - intros [Hs Hx] [|k] a b Ha Hb Hsp.
    + simpl in Ha. inv Ha. destruct s as [|y t]; [discriminate|]. simpl in Hb. inv Hb.
      eapply Hx; eauto.
    + apply (Hs k a b); assumption.
Qed.

(** Two strings put together: what must hold where they meet. *)
Lemma SingleSpaced_app a b :
  SingleSpaced a -> SingleSpaced b ->
  (forall a' x y b', a = a' ++ [x] -> b = y :: b' -> isSpace x = true -> isSpace y = false) ->
  SingleSpaced (a ++ b).
Proof.
  induction a as [|x a IH]; intros Ha Hb Hm; [assumption|].
  simpl. apply SingleSpaced_cons. apply SingleSpaced_cons in Ha. destruct Ha as [Ha Hx].
  split.
  - apply IH; auto. intros a' x' y b' -> E. apply (Hm (x :: a') x' y b'); auto.
  - intros Hsp y t E. destruct a as [|z a].
    + simpl in E. eapply (Hm [] x y t); eauto.
    + simpl in E. inv E. eapply Hx; eauto.
Qed.

Lemma PlainSpaces_trim s : PlainSpaces s -> PlainSpaces (trim s).
Proof.
  intros H x Hx. apply H. destruct (trim_part s) as (a & b & E). rewrite E.
  apply in_or_app. right. apply in_or_app. left. assumption.
Qed.

(** * The profile-only parser: what every parsed job satisfies *)

Lemma mapM_Forall2 {A B} (f : A -> result B) : forall l l',
  mapM f l = Ok l' -> Forall2 (fun a b => f a = Ok b) l l'.
Proof.
  induction l as [|a l IH]; intros l' H; simpl in H.
  - inv H. constructor.
  - destruct (f a) as [b|e] eqn:Ea; [|discriminate]. simpl in H.
    destruct (mapM f l) as [bs|e] eqn:El; [|discriminate]. simpl in H. inv H.
    constructor; auto.
Qed.

Lemma mapM_throws {A B} (f : A -> result B) x : forall l,
  In x l -> (exists e, f x = Throw e) -> exists e, mapM f l = Throw e.
Proof.
  induction l as [|a l IH]; intros Hin Hx; [destruct Hin|]. simpl.
  destruct (f a) as [b|e] eqn:Ea; [|simpl; eauto]. simpl.
  destruct Hin as [->|Hin].
  - destruct Hx as (e & He). congruence.
  - destruct (IH Hin Hx) as (e & ->). simpl. eauto.
Qed.

Lemma Forall2_right {A B} (R : A -> B -> Prop) (P : B -> Prop) l l' :
  Forall2 R l l' -> (forall a b, R a b -> P b) -> Forall P l'.
Proof. induction 1; intros H'; constructor; eauto. Qed.

Lemma Ok_inj {A} (a b : A) : Ok a = Ok b -> a = b.
Proof. intros H. inversion H. reflexivity. Qed.

Lemma bind_Ok {A B} (x : result A) (k : A -> result B) b :
  bind x k = Ok b -> exists a, x = Ok a /\ k a = Ok b.
Proof. destruct x as [a|e]; [eauto | discriminate]. Qed.

(** What the steps of a returned extraction returned. *)
Lemma extractTechnicalExperience_Ok profile d :
  extractTechnicalExperience profile = Ok d ->
  extractContactInfo profile = Ok (contact d)
  /\ match workExperienceArg profile with
     | VArray (job :: jobs) => parseProfileExperience (job :: jobs)
     | _ => Ok []
     end = Ok (experience d)
  /\ extractEducation profile = Ok (education d)
  /\ extractSkills profile = Ok (skills d)
  /\ extractCertifications profile = Ok (certifications d).
Proof.
  unfold extractTechnicalExperience. cbv zeta. fold (workExperienceArg profile).
  intros H.
  apply bind_Ok in H. destruct H as (c & Hc & H).
  apply bind_Ok in H. destruct H as (ex & Hex & H).
  apply bind_Ok in H. destruct H as (ed & Hed & H).
  apply bind_Ok in H. destruct H as (sk & Hsk & H).
  apply bind_Ok in H. destruct H as (ce & Hce & H).
  apply Ok_inj in H. subst d. cbn [contact experience education skills certifications].
  auto.
Qed.

(** The experience of a document the extraction returns: the jobs of the
    entries the parser looks at, one for one. *)
Lemma experience_of_entries profile d :
  extractTechnicalExperience profile = Ok d ->
  exists items,
    Forall2 (fun entry job => parseJob entry = Ok job) items (experience d)
    /\ (isFilledArray (workExperienceArg profile) = true ->
        workExperienceArg profile = VArray items).
Proof.
  intros H. apply extractTechnicalExperience_Ok in H. destruct H as (_ & He & _).
  destruct (workExperienceArg profile) as [| | | | |[|job jobs]|] eqn:Ew;
    try (apply Ok_inj in He; rewrite <- He; exists []; split; [constructor | discriminate]).
  exists (job :: jobs). split; [|reflexivity].
  apply mapM_Forall2. assumption.
Qed.

Lemma trim_dyn_Ok v c : trim_dyn v = Ok c -> exists s, v = VString s /\ c = trim s.
Proof. destruct v; simpl; intros H; inv H. eauto. Qed.

Lemma mapM_cleanBullet items : forall cleaned,
  mapM cleanBullet_dyn items = Ok cleaned ->
  exists bs, items = map VString bs /\ cleaned = map cleanBullet bs.
Proof.
  induction items as [|x items IH]; intros cleaned H; simpl in H.
  - inv H. exists []. auto.
  - destruct (cleanBullet_dyn x) as [b|e] eqn:Ex; [|discriminate]. cbn [bind] in H.
    destruct (mapM cleanBullet_dyn items) as [l|e]; [|discriminate]. cbn [bind] in H.
    inv H. destruct (IH _ eq_refl) as (bs & -> & ->).
    destruct x; simpl in Ex; inv Ex. exists (s :: bs). auto.
Qed.

(** What [parseJob] puts into the fields of a job. *)
Lemma parseJob_fields entry job :
  parseJob entry = Ok job ->
  (exists c, company job = trim c)
  /\ (exists t, title job = trim t)
  /\ (exists v, normalizeDates_dyn v = Ok (dates job))
  /\ (exists bs, bullets job = filter nonEmpty (map cleanBullet bs))
  /\ titleLine job = (if nonEmpty (dates job) then title job ++ lit " | " ++ dates job
                      else title job).
Proof.
  unfold parseJob. intros H.
  apply bind_Ok in H. destruct H as (c0 & _ & H).
  apply bind_Ok in H. destruct H as (c & Ec & H).
  apply bind_Ok in H. destruct H as (t & Et & H). cbv zeta in H.
  apply bind_Ok in H. destruct H as (dates1 & _ & H).
  apply bind_Ok in H. destruct H as (ds & Ed & H).
  apply bind_Ok in H. destruct H as (cleaned & Eb & H).
  apply Ok_inj in H. subst job. cbn [company title dates bullets titleLine].
  apply trim_dyn_Ok in Ec, Et. destruct Ec as (sc & _ & ->). destruct Et as (st & _ & ->).
  split; [eauto|]. split; [eauto|]. split; [eauto|]. split; [|reflexivity].
  match type of Eb with match ?b with _ => _ end = _ => destruct b; try discriminate end.
  apply mapM_cleanBullet in Eb. destruct Eb as (bs & _ & ->). eauto.
Qed.

(** What [normalizeDates] returns on a value: nothing, or the normalized
    text of the value. *)
Lemma normalizeDates_dyn_Ok v ds :
  normalizeDates_dyn v = Ok ds -> ds = [] \/ exists text, ds = normalizeDates text.
Proof.
  unfold normalizeDates_dyn. destruct (negb (truthy v)).
  - intros H. apply Ok_inj in H. auto.
  - intros H. apply bind_Ok in H. destruct H as (text & _ & H). apply Ok_inj in H. eauto.
Qed.

Lemma cleanBullet_Trimmed b : Trimmed (cleanBullet b).
Proof. apply trim_Trimmed. Qed.

Lemma nonEmpty_true (s : jsstring) : nonEmpty s = true <-> s <> [].
Proof. destruct s; simpl; split; congruence. Qed.

(** X1: every job of a returned document has a company and a title without white
    space at either end, and bullets that are not empty and have no white
    space at either end. *)
Theorem parsed_jobs_trimmed (profile : value) (d : document) :
  extractTechnicalExperience profile = Ok d ->
  Forall (fun job =>
            Trimmed (company job) /\ Trimmed (title job)
            /\ Forall (fun bullet => bullet <> [] /\ Trimmed bullet) (bullets job))
    (experience d).
Proof.
  intros H. destruct (experience_of_entries _ _ H) as (items & HF & _).
  eapply Forall2_right; [exact HF|]. intros entry job Hj. cbv beta in Hj.
  apply parseJob_fields in Hj. destruct Hj as ((c & ->) & (t & ->) & _ & (bs & ->) & _).
  split; [apply trim_Trimmed|]. split; [apply trim_Trimmed|].
  apply Forall_forall. intros b Hb. apply filter_In in Hb. destruct Hb as [Hb Hne].
  split; [apply nonEmpty_true; assumption|].
  apply in_map_iff in Hb. destruct Hb as (b0 & <- & _). apply cleanBullet_Trimmed.
Qed.

Lemma parsed_jobs_trimmed_witness :
  exists d, extractTechnicalExperience sample_profile = Ok d
            /\ Forall (fun job =>
                         Trimmed (company job) /\ Trimmed (title job)
                         /\ Forall (fun bullet => bullet <> [] /\ Trimmed bullet) (bullets job))
                 (experience d).
Proof.
  eexists. split; [vm_compute; reflexivity|].
  apply (parsed_jobs_trimmed sample_profile). vm_compute. reflexivity.
Defined.

Lemma normalizeDates_no_hyphen s : ~ In (ch "-") (normalizeDates s).
Proof.
  unfold normalizeDates. destruct s as [|c0 s0]; [intros []|].
  rewrite hyphens_replaced.
  set (u := map hyphenToDash _).
  assert (H : Forall (fun c => c <> ch "-") (replaceAll re_dash_spaced (const_rep spaced_dash) u)).
  { apply replaceAll_Forall; [simpl; lia | |].
    - apply Forall_forall. intros x Hx. unfold u in Hx. apply in_map_iff in Hx.
      destruct Hx as (y & <- & _). unfold hyphenToDash.
      destruct (eqc (ch "-") y) eqn:E; [discriminate|].
      intros ->. discriminate E.
    - intros m. unfold const_rep, spaced_dash. repeat constructor; discriminate. }
  rewrite Forall_forall in H. intros Hin. apply (H _ Hin). reflexivity.
Qed.

Lemma normalizeDates_DashSpaced s : DashSpaced (normalizeDates s).
Proof.
  unfold normalizeDates. destruct s as [|c0 s0].
  - apply no_dash_DashSpaced. intros [].
  - apply dash_replacement_spaced.
Qed.

(** X2: the dates of every job of a returned document hold no hyphen, every en
    dash in them has a space on either side, and the title line is the title,
    followed by a bar and the dates when there are dates. *)
Theorem parsed_dates_normalized (profile : value) (d : document) :
  extractTechnicalExperience profile = Ok d ->
  Forall (fun job =>
            ~ In (ch "-") (dates job) /\ DashSpaced (dates job)
            /\ titleLine job = (if nonEmpty (dates job)
                                then title job ++ lit " | " ++ dates job
                                else title job))
    (experience d).
Proof.
  intros H. destruct (experience_of_entries _ _ H) as (items & HF & _).
  eapply Forall2_right; [exact HF|]. intros entry job Hj. cbv beta in Hj.
  apply parseJob_fields in Hj. destruct Hj as (_ & _ & (v & Hd) & _ & Ht).
  apply normalizeDates_dyn_Ok in Hd.
  split; [|split; [|assumption]]; destruct Hd as [->|(text & ->)].
  - intros [].
  - apply normalizeDates_no_hyphen.
  - apply no_dash_DashSpaced. intros [].
  - apply normalizeDates_DashSpaced.
Qed.

Lemma parsed_dates_normalized_witness :
  exists d, extractTechnicalExperience sample_profile = Ok d
            /\ map dates (experience d)
               = [lit "2019" ++ spaced_dash ++ lit "03" ++ spaced_dash ++ lit "Present";
                  lit "2015" ++ spaced_dash ++ lit "2019"]
            /\ Forall (fun job =>
                         ~ In (ch "-") (dates job) /\ DashSpaced (dates job)
                         /\ titleLine job = (if nonEmpty (dates job)
                                             then title job ++ lit " | " ++ dates job
                                             else title job))
                 (experience d).
Proof.
  eexists. split; [vm_compute; reflexivity|]. split; [vm_compute; reflexivity|].
  apply (parsed_dates_normalized sample_profile). vm_compute. reflexivity.
Defined.

(** X3: the jobs of a returned document are those of the entries of the work
    experience, one for each entry and in the order of the entries. *)
Theorem experience_in_order (profile : value) (d : document) (items : list value) :
  extractTechnicalExperience profile = Ok d ->
  workExperienceArg profile = VArray items ->
  Forall2 (fun entry job => parseJob entry = Ok job) items (experience d).
Proof.
  intros H Hw. destruct (experience_of_entries _ _ H) as (items' & HF & Hi).
  destruct items as [|x items].
  - apply extractTechnicalExperience_Ok in H. destruct H as (_ & He & _).
    rewrite Hw in He. apply Ok_inj in He. rewrite <- He. constructor.
  - rewrite Hw in Hi. specialize (Hi eq_refl). inv Hi. assumption.
Qed.

Lemma experience_in_order_witness :
  exists d items,
    extractTechnicalExperience sample_profile = Ok d
    /\ workExperienceArg sample_profile = VArray items
    /\ length items = 2
    /\ Forall2 (fun entry job => parseJob entry = Ok job) items (experience d).
Proof.
  eexists _, _. split; [vm_compute; reflexivity|]. split; [vm_compute; reflexivity|].
  split; [reflexivity|].
  apply (experience_in_order sample_profile); vm_compute; reflexivity.
Defined.

(** X4: an entry of the work experience that is [null] or [undefined] makes the
    parse fail: the promise of [parseFromProfilePage] is fulfilled with
    [success: false]. *)
Theorem null_entry_fails (time : Type) (elapsed : time -> time -> time)
    (env : environment time) (profile : value) (items : list value) :
  workExperienceArg profile = VArray items ->
  In VNull items \/ In VUndefined items ->
  exists msg, parseFromProfilePage elapsed env profile = Ok (Failure msg).
Proof.
  intros Hw Hin. unfold parseFromProfilePage, extractTechnicalExperience. cbv zeta.
  fold (workExperienceArg profile). rewrite Hw.
  destruct (extractContactInfo profile) as [c|e]; [|simpl; eauto]. cbn [bind].
  assert (Hthrow : exists e, parseProfileExperience items = Throw e).
  { destruct Hin as [Hin|Hin];
      (eapply mapM_throws; [exact Hin | eexists; reflexivity]). }
  destruct items as [|x items]; [destruct Hin as [[]|[]]|].
  destruct Hthrow as (e & ->). simpl. eauto.
Qed.

Lemma null_entry_fails_witness :
  exists msg,
    parseFromProfilePage Z.sub (MkEnv Z 0%Z 1%Z [])
      (VObject [("workExperience"%string,
                 VArray [VObject [("company"%string, VString (lit "ACME"))]; VNull])])
    = Ok (Failure msg).
Proof.
  apply (null_entry_fails Z Z.sub (MkEnv Z 0%Z 1%Z [])
           (VObject [("workExperience"%string,
                      VArray [VObject [("company"%string, VString (lit "ACME"))]; VNull])])
           [VObject [("company"%string, VString (lit "ACME"))]; VNull]).
  - reflexivity.
  - left. right. left. reflexivity.
Defined.

(** * The profile-only parser: bullets given as one text *)

Lemma trim_nonspace_head c rest : isSpace c = false -> trim (c :: rest) <> [].
Proof.
  intros Hc. unfold trim. rewrite trimStart_nonspace by assumption.
  unfold trimEnd. simpl rev. rewrite dropWhile_app by assumption.
  intros H. apply (f_equal (@length _)) in H. rewrite length_rev, length_app in H.
  simpl in H. lia.
Qed.

(** A bullet of white space only is cleaned to the empty string. *)
Lemma cleanBullet_blank b : trim b = [] -> cleanBullet b = [].
Proof.
  intros H. unfold cleanBullet, replace. rewrite exec_marker_none; [assumption|].
  intros m rest ->. destruct (isMarker m) eqn:Hm; [exfalso|reflexivity].
  apply (trim_nonspace_head m rest); [|assumption]. apply marker_not_space. assumption.
Qed.

Lemma filter_cleaned l :
  filter nonEmpty (map cleanBullet (filter (fun b => nonEmpty (trim b)) l))
  = filter nonEmpty (map cleanBullet l).
Proof.
  induction l as [|b l IH]; [reflexivity|]. simpl.
  destruct (nonEmpty (trim b)) eqn:E; simpl.
  - rewrite IH. reflexivity.
  - rewrite IH. destruct (trim b) eqn:Et; [|discriminate].
    rewrite (cleanBullet_blank _ Et). reflexivity.
Qed.

Lemma mapM_cleanBullet_strings l :
  mapM cleanBullet_dyn (map VString l) = Ok (map cleanBullet l).
Proof. induction l as [|b l IH]; simpl; [reflexivity|]. rewrite IH. reflexivity. Qed.

(** X5: bullets given as one text, a bullet to a line, give the job that the
    list of its lines gives. *)
Theorem bullets_text_as_lines (s : jsstring) (rest : list (string * value)) :
  s <> [] ->
  parseJob (VObject (("bullets"%string, VString s) :: rest))
  = parseJob (VObject (("bullets"%string, VArray (map VString (split newline s))) :: rest)).
Proof.
  intros Hs. unfold parseJob. cbn [get].
  set (a := VObject (("bullets"%string, VString s) :: rest)).
  set (b := VObject (("bullets"%string, VArray (map VString (split newline s))) :: rest)).
  assert (Hk : forall k, String.eqb k "bullets" = false -> getOpt a k = getOpt b k).
  { intros k Hk. unfold a, b. simpl. rewrite Hk. reflexivity. }
  rewrite !(Hk "company"%string eq_refl), !(Hk "organization"%string eq_refl),
    !(Hk "title"%string eq_refl), !(Hk "position"%string eq_refl),
    !(Hk "role"%string eq_refl), !(Hk "dates"%string eq_refl),
    !(Hk "duration"%string eq_refl), !(Hk "startDate"%string eq_refl),
    !(Hk "endDate"%string eq_refl), !(Hk "location"%string eq_refl),
    !(Hk "achievements"%string eq_refl), !(Hk "responsibilities"%string eq_refl).
  cbn [bind].
  destruct (trim_dyn _) as [c|e]; [|reflexivity]. cbn [bind].
  destruct (trim_dyn _) as [t|e]; [|reflexivity]. cbn [bind]. cbv zeta.
  change (getOpt a "bullets") with (VString s).
  change (getOpt b "bullets") with (VArray (map VString (split newline s))).
  assert (Ha : forall x y z, or_else (or_else (or_else (VString s) x) y) z = VString s).
  { intros x y z. unfold or_else. destruct s; [congruence|]. reflexivity. }
  assert (Hb : forall l x y z, or_else (or_else (or_else (VArray l) x) y) z = VArray l)
    by reflexivity.
  rewrite Ha, Hb. rewrite !mapM_cleanBullet_strings. cbn [bind]. rewrite filter_cleaned. reflexivity.
Qed.

Lemma bullets_text_as_lines_witness :
  exists job,
    parseJob (VObject [("bullets"%string, VString sample_bullets_text);
                       ("company"%string, VString (lit "ACME"))]) = Ok job
    /\ bullets job = [lit "built x"; lit "shipped y"].
Proof.
  rewrite (bullets_text_as_lines sample_bullets_text
             [("company"%string, VString (lit "ACME"))]); [|discriminate].
  eexists. split; vm_compute; reflexivity.
Defined.

(** * The text for an applicant tracking system *)

Lemma extracted_contact profile d :
  extractTechnicalExperience profile = Ok d -> extractContactInfo profile = Ok (contact d).
Proof. intros H. apply extractTechnicalExperience_Ok in H. apply H. Qed.

Lemma joinArray_first sep s l text :
  l <> [] -> joinArray sep (VString s :: l) = Ok text ->
  exists rest, text = s ++ sep ++ rest.
Proof.
  intros Hl. unfold joinArray. cbn [mapM elementText toString bind]. intros H.
  apply bind_Ok in H. destruct H as (parts & H & Hj).
  apply bind_Ok in H. destruct H as (rest & Hrest & H).
  apply Ok_inj in H. subst parts. apply Ok_inj in Hj. subst text.
  destruct rest as [|p rest].
  - destruct l as [|y l]; [congruence|]. cbn [mapM] in Hrest.
    apply bind_Ok in Hrest. destruct Hrest as (b & _ & Hrest).
    apply bind_Ok in Hrest. destruct Hrest as (bs & _ & Hrest). discriminate Hrest.
  - eexists. reflexivity.
Qed.

(** X7: the text starts with the name in upper case, on a line of its own. *)
Theorem ats_text_first_line (toUpperCase : jsstring -> jsstring)
    (profile : value) (text : jsstring) :
  generateATSText toUpperCase profile = Ok text ->
  exists c rest,
    extractContactInfo profile = Ok c
    /\ text = toUpperCase (name c) ++ newline ++ rest.
Proof.
  unfold generateATSText. intros H.
  apply bind_Ok in H. destruct H as (d & Ed & H). cbv zeta in H.
  apply bind_Ok in H. destruct H as (contactLine & _ & H).
  apply bind_Ok in H. destruct H as (linksLine & _ & H).
  apply bind_Ok in H. destruct H as (educationLines & _ & H).
  match type of H with
  | joinArray _ ([VString ?n] ++ ?x ++ ?y ++ ?z) = _ =>
      change ([VString n] ++ x ++ y ++ z) with (VString n :: (x ++ y ++ z)) in H;
      apply joinArray_first in H
  end.
  - destruct H as (rest & Hrest). exists (contact d), rest.
    split; [apply extracted_contact; assumption | exact Hrest].
  - intros El. apply app_eq_nil in El. destruct El as [_ El].
    apply app_eq_nil in El. destruct El as [_ El]. discriminate El.
Qed.

Lemma ats_text_first_line_witness :
  exists c rest,
    extractContactInfo sample_profile = Ok c
    /\ sample_ats_text = asciiUpper (name c) ++ newline ++ rest.
Proof.
  apply (ats_text_first_line asciiUpper sample_profile sample_ats_text).
  vm_compute. reflexivity.
Defined.

(** * Phone formatting: what it keeps *)

(** The two ways [formatPhone] ends: the stripped phone is a plus sign and
    two digits or more, and the result is built from them; or the phone is
    returned as it is. *)
Lemma formatPhone_cases phone :
  (exists ds, filter keepPhoneChar phone = ch "+" :: ds
              /\ forallb isDigit ds = true /\ 2 <= length ds
              /\ formatPhone phone
                 = ch "+" :: firstn (countryLen ds) ds ++ ch " " :: skipn (countryLen ds) ds)
  \/ formatPhone phone = phone.
Proof.
  unfold formatPhone. destruct phone as [|c0 phone0]; [right; reflexivity|].
  rewrite cleaned_phone. cbv zeta.
  destruct (startsWith _ _); [|right; reflexivity].
  destruct (exec re_phone _ 0) as [m|] eqn:E; [|right; reflexivity].
  left. pose proof E as E'. apply exec_Some in E'. destruct E' as (_ & _ & _ & HR & _).
  apply Run_phone_inv in HR. destruct HR as (ds & Hs & Hd & Hlen).
  exists ds. rewrite Hs in *. repeat split; try assumption.
  rewrite exec_phone_digits in E by assumption. inv E.
  unfold group. cbn [lookup_cap m_caps Nat.eqb].
  rewrite !substring_cons, substring_from_0, substring_to_end. reflexivity.
Qed.

Lemma filter_all (g : char -> bool) (l : jsstring) : forallb g l = true -> filter g l = l.
Proof.
  induction l as [|x l IH]; simpl; [reflexivity|]. intros H.
  apply andb_true_iff in H. destruct H as [Hx Hl]. rewrite Hx, IH by assumption. reflexivity.
Qed.

Lemma filter_filter_digit l : filter isDigit (filter keepPhoneChar l) = filter isDigit l.
Proof.
  induction l as [|x l IH]; [reflexivity|]. cbn [filter]. unfold keepPhoneChar at 1.
  destruct (isDigit x) eqn:E; cbn [orb filter].
  - rewrite E, IH. reflexivity.
  - destruct (eqc (ch "+") x); cbn [filter]; [rewrite E|]; apply IH.
Qed.

Lemma forallb_keep ds : forallb isDigit ds = true -> forallb keepPhoneChar ds = true.
Proof.
  intros H. rewrite forallb_forall in *. intros x Hx. unfold keepPhoneChar.
  rewrite (H x Hx). reflexivity.
Qed.

Lemma formatPhone_digits (phone : jsstring) :
  filter isDigit (formatPhone phone) = filter isDigit phone.
Proof.
  destruct (formatPhone_cases phone) as [(ds & Hc & Hd & Hlen & ->)| ->]; [|reflexivity].
  rewrite <- (filter_filter_digit phone), Hc.
  change (ch "+" :: firstn (countryLen ds) ds ++ ch " " :: skipn (countryLen ds) ds)
    with ([ch "+"] ++ firstn (countryLen ds) ds ++ [ch " "] ++ skipn (countryLen ds) ds).
  change (ch "+" :: ds) with ([ch "+"] ++ ds).
  rewrite !filter_app. simpl (filter isDigit [_]). simpl app.
  rewrite <- filter_app, firstn_skipn. reflexivity.
Qed.

(** X8: [formatPhone] never drops, adds or moves a digit: the digits of the
    result are the digits of the phone, in their order. *)
Theorem formatPhone_keeps_digits (phone : jsstring) :
  filter isDigit (formatPhone phone) = filter isDigit phone.
Proof. apply formatPhone_digits. Qed.

(** X9: formatting a formatted phone changes nothing. *)
Theorem formatPhone_idempotent (phone : jsstring) :
  formatPhone (formatPhone phone) = formatPhone phone.
Proof.
  destruct (formatPhone_cases phone) as [(ds & Hc & Hd & Hlen & E)|E];
    [|rewrite E; assumption].
  rewrite E.
  set (out := ch "+" :: firstn (countryLen ds) ds ++ ch " " :: skipn (countryLen ds) ds).
  assert (Hout : filter keepPhoneChar out = ch "+" :: ds).
  { unfold out.
    change (ch "+" :: firstn (countryLen ds) ds ++ ch " " :: skipn (countryLen ds) ds)
      with ([ch "+"] ++ firstn (countryLen ds) ds ++ [ch " "] ++ skipn (countryLen ds) ds).
    rewrite !filter_app. simpl (filter keepPhoneChar [_]). simpl app.
    rewrite <- filter_app, firstn_skipn, filter_all; [reflexivity|].
    apply forallb_keep. assumption. }
  destruct (formatPhone_cases out) as [(ds' & Hc' & _ & _ & E')|E']; [|assumption].
  rewrite Hout in Hc'. inv Hc'. assumption.
Qed.

(** * Date normalization: text without a dash *)

Lemma replaceAll_no_match r f s :
  (forall i, ~ MatchAt s r i) -> replaceAll r f s = s.
Proof.
  intros H. unfold replaceAll. cbn [replace_loop].
  destruct (exec r s 0) as [m|] eqn:E; [exfalso|reflexivity].
  apply exec_Some in E. destruct E as (_ & _ & _ & HR & _).
  apply (H (m_start m)). eexists _, _. eassumption.
Qed.

Lemma MatchAt_first_char s r i :
  MatchAt s r i -> 0 < min_len r ->
  exists x, nth_error s i = Some x /\ alphabet r x = true.
Proof.
  intros (j & c' & HR) Hm. pose proof (Run_min_len _ _ _ _ _ _ HR).
  apply (Run_alphabet _ _ _ _ _ _ HR). lia.
Qed.

(** X10: a string without hyphen and without en dash is returned as it is. *)
Theorem normalizeDates_without_dash (dateStr : jsstring) :
  ~ In (ch "-") dateStr -> ~ In en_dash dateStr -> normalizeDates dateStr = dateStr.
Proof.
  intros Hh He. unfold normalizeDates. destruct dateStr as [|c0 s0]; [reflexivity|].
  set (s := c0 :: s0) in *.
  assert (H1 : replaceAll re_two_hyphens (const_rep [en_dash]) s = s).
  { apply replaceAll_no_match. intros i HM.
    destruct (MatchAt_first_char _ _ _ HM ltac:(simpl; lia)) as (x & Hx & Ha).
    simpl in Ha. rewrite !orb_false_r in Ha. apply orb_true_iff in Ha.
    assert (x = ch "-") by (destruct Ha as [Ha|Ha]; apply N.eqb_eq in Ha; assumption).
    subst. apply Hh. eapply nth_error_In. eassumption. }
  rewrite H1.
  assert (H2 : replaceAll re_hyphen (const_rep [en_dash]) s = s).
  { apply replaceAll_no_match. intros i HM.
    destruct (MatchAt_first_char _ _ _ HM ltac:(simpl; lia)) as (x & Hx & Ha).
    simpl in Ha. apply N.eqb_eq in Ha. subst. apply Hh. eapply nth_error_In. eassumption. }
  rewrite H2.
  apply replaceAll_no_match. intros i (j & c' & HR).
  apply Run_dash_inv in HR. destruct HR as (u & _ & _ & _ & Hd & _).
  apply He. eapply nth_error_In. eassumption.
Qed.

Lemma normalizeDates_without_dash_witness :
  normalizeDates (lit "March 2020  to date") = lit "March 2020  to date".
Proof.
  apply normalizeDates_without_dash; intros H; vm_compute in H;
    repeat (destruct H as [H|H]; [discriminate H|]); destruct H.
Defined.

(** * Escapes of a PDF string *)

Lemma MatchAt_Seq_Char s p r i :
  MatchAt s (Seq (Char p) r) i -> exists x, nth_error s i = Some x /\ p x = true.
Proof.
  intros (j & c' & HR). inv HR.
  match goal with H : Run _ (Char _) _ _ _ _ |- _ => inv H end. eauto.
Qed.

Lemma no_escape_match s r f :
  ~ In backslash s -> replaceAll (Seq (Char (eqc backslash)) r) f s = s.
Proof.
  intros H. apply replaceAll_no_match. intros i HM.
  apply MatchAt_Seq_Char in HM. destruct HM as (x & Hx & Hb).
  apply N.eqb_eq in Hb. subst. apply H. eapply nth_error_In. eassumption.
Qed.

(** X11: a string without a backslash is decoded to itself. *)
Theorem decodePDFString_plain (str : jsstring) :
  ~ In backslash str -> decodePDFString str = str.
Proof.
  intros H. unfold decodePDFString, re_escape, re_octal.
  rewrite !(no_escape_match _ _ _ H). reflexivity.
Qed.

Lemma decodePDFString_plain_witness :
  decodePDFString (lit "Senior Engineer (2019)") = lit "Senior Engineer (2019)".
Proof.
  apply decodePDFString_plain. intros H. vm_compute in H.
  repeat (destruct H as [H|H]; [discriminate H|]). destruct H.
Defined.

(** A replacement that is never longer than the least match does not make
    the subject longer. *)
Lemma replaceAll_length_le r f s :
  0 < min_len r -> (forall m, length (f s m) <= min_len r) ->
  length (replaceAll r f s) <= length s.
Proof.
  intros Hne Hf.
  cut (length (replaceAll r f s) + 0 <= length s); [lia|].
  apply (replaceAll_ind r f s Hne (fun q out => length out + q <= length s)).
  - intros q Hq _. rewrite length_skipn. lia.
  - intros q m out Hq E IH. pose proof (exec_progress r s Hne _ _ E) as (H1 & H2 & H3).
    apply exec_Some in E. destruct E as (_ & _ & _ & HR & _).
    apply Run_min_len in HR. specialize (Hf m).
    rewrite !length_app, substring_length by lia. lia.
Qed.

(** X12: decoding never makes a string longer: every escape is at least two code
    units and gives one. *)
Theorem decodePDFString_length (str : jsstring) :
  length (decodePDFString str) <= length str.
Proof.
  unfold decodePDFString.
  repeat (etransitivity;
          [apply replaceAll_length_le; [simpl; lia | intros m; simpl; lia]|]).
  reflexivity.
Qed.

(** * The readability check: text without Latin letters *)

Lemma alphabet_Str l y : alphabet (Str l) y = existsb (fun p => p y) l.
Proof.
  induction l as [|p l IH]; simpl; [reflexivity|]. rewrite IH. reflexivity.
Qed.

Lemma alphabet_Alts l y : alphabet (Alts l) y = existsb (fun r => alphabet r y) l.
Proof.
  induction l as [|r l IH]; [reflexivity|]. destruct l as [|r' l].
  - simpl. rewrite orb_false_r. reflexivity.
  - change (Alts (r :: r' :: l)) with (Alt r (Alts (r' :: l))).
    cbn [alphabet existsb]. rewrite IH. reflexivity.
Qed.

Lemma ci_letter a y : isLetter (ch a) = true -> ci a y = true -> isLetter y = true.
Proof.
  unfold ci, isLetter, isLower, isUpper, in_range. intros Ha H.
  destruct ((97 <=? ch a)%N && (ch a <=? 122)%N)%bool eqn:El.
  - apply andb_true_iff in El. destruct El as [E1 E2].
    apply N.leb_le in E1, E2.
    apply orb_true_iff in H. destruct H as [H|H]; apply N.eqb_eq in H; subst y.
    + apply orb_true_iff. left. apply andb_true_iff. split; apply N.leb_le; lia.
    + apply orb_true_iff. right. apply andb_true_iff. split; apply N.leb_le; lia.
  - simpl in Ha. rewrite Ha in H. apply andb_true_iff in Ha. destruct Ha as [E1 E2].
    apply N.leb_le in E1, E2.
    apply orb_true_iff in H. destruct H as [H|H]; apply N.eqb_eq in H; subst y.
    + apply orb_true_iff. right. apply andb_true_iff. split; apply N.leb_le; lia.
    + apply orb_true_iff. left. apply andb_true_iff. split; apply N.leb_le; lia.
Qed.

Lemma alphabet_LitI w y :
  forallb (fun a => isLetter (ch a)) (list_ascii_of_string w) = true ->
  alphabet (LitI w) y = true -> isLetter y = true.
Proof.
  intros Hw H. unfold LitI in H. rewrite alphabet_Str in H.
  apply existsb_exists in H. destruct H as (p & Hp & Hy).
  apply in_map_iff in Hp. destruct Hp as (a & <- & Ha).
  rewrite forallb_forall in Hw. eapply ci_letter; [apply Hw|]; eassumption.
Qed.

Lemma common_words_letters y : alphabet re_common_words y = true -> isLetter y = true.
Proof.
  unfold re_common_words. cbn [Seqs alphabet]. rewrite orb_false_r. cbn [orb].
  rewrite alphabet_Alts. intros H. apply existsb_exists in H. destruct H as (r & Hr & Hy).
  simpl in Hr.
  repeat (destruct Hr as [<-|Hr]; [eapply alphabet_LitI; [|exact Hy]; reflexivity|]).
  destruct Hr.
Qed.

(** X13: a text without a Latin letter is never readable, whatever its length:
    none of the words the check looks for can occur in it. *)
Theorem text_without_letters_unreadable (text : jsstring) :
  (forall x, In x text -> isLetter x = false) -> isTextReadable text = false.
Proof.
  intros H. unfold isTextReadable. destruct text as [|c0 t0]; [reflexivity|].
  destruct (_ <? 100); [reflexivity|]. cbv zeta.
  assert (Ht : test re_common_words (c0 :: t0) = false).
  { unfold test. destruct (exec re_common_words (c0 :: t0) 0) as [m|] eqn:E; [|reflexivity].
    exfalso. apply exec_Some in E. destruct E as (_ & _ & _ & HR & _).
    pose proof (Run_min_len _ _ _ _ _ _ HR) as Hm. simpl in Hm.
    destruct (Run_alphabet _ _ _ _ _ _ HR (m_start m) ltac:(lia)) as (y & Hy & Ha).
    apply common_words_letters in Ha. rewrite (H y) in Ha; [discriminate|].
    eapply nth_error_In. eassumption. }
  rewrite Ht. apply andb_false_r.
Qed.

Lemma text_without_letters_unreadable_witness :
  isTextReadable (concat (repeat (lit "2019-2021: 100% ") 10)) = false.
Proof.
  apply text_without_letters_unreadable. intros x Hx.
  apply in_concat in Hx. destruct Hx as (l & Hl & Hx).
  apply repeat_spec in Hl. subst l. simpl in Hx.
  repeat (destruct Hx as [<-|Hx]; [reflexivity|]). destruct Hx.
Defined.


(** * White space collapsed by a global replacement *)

Lemma star_accept_Some (step : nat -> caps -> cont -> option (nat * caps)) fuel i c :
  star_loop step true accept fuel i c <> None.
Proof.
  destruct fuel as [|fuel]; simpl; [discriminate|].
  destruct (step i c _); discriminate.
Qed.

Lemma star_loop_greedy_S (step : nat -> caps -> cont -> option (nat * caps)) k fuel i c :
  star_loop step true k (S fuel) i c
  = match step i c (fun j c' => if i <? j then star_loop step true k fuel j c' else None) with
    | Some res => Some res
    | None => k i c
    end.
Proof. reflexivity. Qed.

(** A greedy [p*] at the end of a pattern stops only in front of a code unit
    that is not of [p], or at the end of the subject. *)
Lemma star_class_greedy s p : forall fuel i c e c',
  length s - i < fuel ->
  star_loop (rmatch s (Char p)) true accept fuel i c = Some (e, c') ->
  forall x, nth_error s e = Some x -> p x = false.
Proof.
  induction fuel as [|fuel IH]; intros i c e c' Hf H x Hx; [lia|].
  rewrite star_loop_greedy_S in H. unfold rmatch at 1 in H.
  destruct (nth_error s i) as [y|] eqn:Ey.
  - destruct (p y) eqn:Ep.
    + assert (Hs : (i <? S i) = true) by (apply Nat.ltb_lt; lia). rewrite Hs in H.
      assert (Hlt : i < length s) by (apply nth_error_Some; congruence).
      destruct (star_loop (rmatch s (Char p)) true accept fuel (S i) c) as [res|] eqn:E;
        [|exfalso; eapply star_accept_Some; eassumption].
      inv H. eapply (IH (S i)); [lia | eassumption | eassumption].
    + inv H. congruence.
  - inv H. congruence.
Qed.

Lemma exec_from_rmatch s r : forall fuel i m,
  exec_from s r fuel i = Some m ->
  rmatch s r (m_start m) [] accept = Some (m_end m, m_caps m).
Proof.
  induction fuel as [|fuel IH]; intros i m H; simpl in H;
    destruct (rmatch s r i [] accept) as [[j c]|] eqn:E.
  - inv H. assumption.
  - discriminate.
  - inv H. assumption.
  - eapply IH. eassumption.
Qed.

(** What [exec] returns is what the matcher gives where the match starts. *)
Lemma exec_rmatch s r p m :
  exec r s p = Some m -> rmatch s r (m_start m) [] accept = Some (m_end m, m_caps m).
Proof.
  unfold exec. destruct (length s <? p); [discriminate|]. apply exec_from_rmatch.
Qed.

Lemma spaces_greedy s p m :
  exec re_spaces s p = Some m ->
  forall x, nth_error s (m_end m) = Some x -> isSpace x = false.
Proof.
  intros E. apply exec_rmatch in E. unfold re_spaces, Plus, ws in E. cbn [rmatch] in E.
  destruct (nth_error s (m_start m)) as [y|]; [|discriminate].
  destruct (isSpace y); [|discriminate].
  eapply star_class_greedy; [|exact E]. lia.
Qed.

Lemma spaces2_greedy s p m :
  exec re_spaces2 s p = Some m ->
  forall x, nth_error s (m_end m) = Some x -> isSpace x = false.
Proof.
  intros E. apply exec_rmatch in E. unfold re_spaces2, ws in E. cbn [Seqs rmatch] in E.
  destruct (nth_error s (m_start m)) as [y|]; [|discriminate].
  destruct (isSpace y); [|discriminate].
  destruct (nth_error s (S (m_start m))) as [z|]; [|discriminate].
  destruct (isSpace z); [|discriminate].
  eapply star_class_greedy; [|exact E]. lia.
Qed.

Section Collapse.

Variable r : regex.
Variable s : jsstring.

Hypothesis r_nonempty : 0 < min_len r.

(** White space next to white space is matched, a match starts with white
    space, and the match [exec] returns does not stop in front of white
    space. *)
Hypothesis pair_matches : forall k x y,
  nth_error s k = Some x -> nth_error s (S k) = Some y ->
  isSpace x = true -> isSpace y = true -> MatchAt s r k.
Hypothesis match_starts : forall i j c',
  Run s r i [] j c' -> exists x, nth_error s i = Some x /\ isSpace x = true.
Hypothesis match_greedy : forall p m,
  exec r s p = Some m -> forall x, nth_error s (m_end m) = Some x -> isSpace x = false.

Lemma collapse_single : SingleSpaced (replaceAll r (const_rep space) s).
Proof.
  cut (SingleSpaced (replaceAll r (const_rep space) s)
       /\ forall y t, replaceAll r (const_rep space) s = y :: t -> isSpace y = true ->
            exists x, nth_error s 0 = Some x /\ isSpace x = true); [tauto|].
  apply (replaceAll_ind r (const_rep space) s r_nonempty
           (fun q out =>
              SingleSpaced out
              /\ forall y t, out = y :: t -> isSpace y = true ->
                   exists x, nth_error s q = Some x /\ isSpace x = true)).
  - intros q Hq E. split.
    + intros k x y Hx Hy Hsx. rewrite nth_error_skipn in Hx, Hy.
      destruct (isSpace y) eqn:Hsy; [exfalso|reflexivity].
      assert (q + S k < length s) by (apply nth_error_Some; congruence).
      apply (exec_None _ _ _ E (q + k)); [lia|].
      apply (pair_matches _ x y); auto. replace (S (q + k)) with (q + S k) by lia. assumption.
    + intros y t Ey Hy. exists y. split; [|assumption].
      rewrite <- (Nat.add_0_r q), <- nth_error_skipn, Ey. reflexivity.
  - intros q m out Hq E [IH1 IH2].
    pose proof (exec_progress r s r_nonempty _ _ E) as (H1 & H2 & H3).
    pose proof (match_greedy _ _ E) as Hg.
    apply exec_Some in E. destruct E as (_ & _ & _ & HR & Hleft).
    destruct (match_starts _ _ _ HR) as (x0 & Hx0 & Hs0).
    assert (Hout : forall y t, out = y :: t -> isSpace y = false).
    { intros y t Ey. destruct (isSpace y) eqn:Hy; [exfalso|reflexivity].
      destruct (IH2 y t Ey Hy) as (x & Hx & Hsx). rewrite (Hg x Hx) in Hsx. discriminate. }
    assert (Hgap : forall k x, q <= k < m_start m -> nth_error s k = Some x ->
                     isSpace x = true ->
                     forall y, nth_error s (S k) = Some y -> isSpace y = false).
    { intros k x Hk Hx Hsx y Hy. destruct (isSpace y) eqn:Hsy; [exfalso|reflexivity].
      apply (Hleft k Hk). apply (pair_matches _ x y); auto. }
    split.
    + apply SingleSpaced_app; [| |].
      * intros k x y Hx Hy Hsx. unfold substring in Hx, Hy.
        rewrite nth_error_firstn in Hx, Hy.
        destruct (k <? m_start m - q) eqn:Ek; [|discriminate].
        destruct (S k <? m_start m - q) eqn:Ek'; [|discriminate].
        apply Nat.ltb_lt in Ek, Ek'. rewrite nth_error_skipn in Hx, Hy.
        apply (Hgap (q + k) x ltac:(lia) Hx Hsx).
        replace (S (q + k)) with (q + S k) by lia. assumption.
      * unfold const_rep, space. simpl. apply SingleSpaced_cons. split; [assumption|].
        intros _. assumption.
      * intros a' x y b' Ea Eb Hsx. unfold const_rep, space in Eb. simpl in Eb. inv Eb.
        exfalso.
        assert (Hlen : length (substring s q (m_start m)) = length a' + 1)
          by (rewrite Ea, length_app; reflexivity).
        rewrite substring_length in Hlen by lia.
        assert (Hx : nth_error s (m_start m - 1) = Some x).
        { assert (Hn : nth_error (substring s q (m_start m)) (length a') = Some x)
            by (rewrite Ea, nth_error_app2, Nat.sub_diag by lia; reflexivity).
          unfold substring in Hn. rewrite nth_error_firstn in Hn.
          destruct (length a' <? m_start m - q); [|discriminate].
          rewrite nth_error_skipn in Hn.
          replace (m_start m - 1) with (q + length a') by lia. assumption. }
        assert (Hf : isSpace x0 = false).
        { apply (Hgap (m_start m - 1) x ltac:(lia) Hx Hsx).
          replace (S (m_start m - 1)) with (m_start m) by lia. assumption. }
        congruence.
    + intros y t Ey Hy.
      destruct (Nat.eq_dec (m_start m) q) as [Eq|Hne].
      * exists x0. rewrite <- Eq. auto.
      * exists y. split; [|assumption].
        assert (Hn : nth_error (substring s q (m_start m) ++ const_rep space s m ++ out) 0
                     = Some y) by (rewrite Ey; reflexivity).
        rewrite nth_error_app1 in Hn by (rewrite substring_length; lia).
        unfold substring in Hn. rewrite nth_error_firstn in Hn.
        destruct (0 <? m_start m - q); [|discriminate].
        rewrite nth_error_skipn, Nat.add_0_r in Hn. assumption.
Qed.

End Collapse.

Lemma Run_first_alphabet s r i c j c' :
  Run s r i c j c' -> 0 < min_len r ->
  exists x, nth_error s i = Some x /\ alphabet r x = true.
Proof.
  intros HR Hm. pose proof (Run_min_len _ _ _ _ _ _ HR).
  apply (Run_alphabet _ _ _ _ _ _ HR). lia.
Qed.

(** After [replace(/\s+/g, ' ')] no white space is next to white space, and
    the only white space is the space. *)
Lemma spaces_collapsed_single s : SingleSpaced (replaceAll re_spaces (const_rep space) s).
Proof.
  apply collapse_single.
  - simpl. lia.
  - intros k x y Hx _ Hsx _. eapply MatchAt_space; eassumption.
  - intros i j c' HR. destruct (Run_first_alphabet _ _ _ _ _ _ HR ltac:(simpl; lia))
      as (x & Hx & Ha).
    exists x. split; [assumption|]. simpl in Ha. destruct (isSpace x); auto.
  - apply spaces_greedy.
Qed.

Lemma spaces_collapsed_plain s : PlainSpaces (replaceAll re_spaces (const_rep space) s).
Proof.
  cut (Forall (fun x => isSpace x = true -> x = ch " ")
         (replaceAll re_spaces (const_rep space) s)).
  { intros H x Hx. rewrite Forall_forall in H. auto. }
  apply (replaceAll_ind re_spaces (const_rep space) s ltac:(simpl; lia)
           (fun q out => Forall (fun x => isSpace x = true -> x = ch " ") out)).
  - intros q Hq E. apply Forall_forall. intros x Hx Hsx. exfalso.
    apply In_skipn in Hx. destruct Hx as (k & Hk & Hx).
    apply (exec_None _ _ _ E k); [lia|]. eapply MatchAt_space; eassumption.
  - intros q m out Hq E IH. apply exec_Some in E. destruct E as (_ & _ & _ & _ & Hleft).
    apply Forall_app. split; [|apply Forall_app; split; [|assumption]].
    + apply Forall_forall. intros x Hx Hsx. exfalso.
      apply In_substring in Hx. destruct Hx as (k & Hk & Hx).
      apply (Hleft k Hk). eapply MatchAt_space; eassumption.
    + repeat constructor.
Qed.

Lemma Run_spaces2_inv s i j c' :
  Run s re_spaces2 i [] j c' ->
  exists x, nth_error s i = Some x /\ isSpace x = true.
Proof.
  unfold re_spaces2. cbn [Seqs]. intros H. inv H.
  match goal with H : Run _ ws _ _ _ _ |- _ => inv H end. eauto.
Qed.

Lemma MatchAt_spaces2 s k x y :
  nth_error s k = Some x -> nth_error s (S k) = Some y ->
  isSpace x = true -> isSpace y = true -> MatchAt s re_spaces2 k.
Proof.
  intros Hx Hy Hsx Hsy. exists (S (S k)), []. unfold re_spaces2. cbn [Seqs].
  eapply R_Seq; [econstructor; eassumption|].
  eapply R_Seq; [econstructor; eassumption | apply R_Star0].
Qed.

Lemma spaces2_collapsed_single s : SingleSpaced (replaceAll re_spaces2 (const_rep space) s).
Proof.
  apply collapse_single.
  - simpl. lia.
  - apply MatchAt_spaces2.
  - apply Run_spaces2_inv.
  - apply spaces2_greedy.
Qed.

(** * Location cleaning: the white space of the result *)

Lemma cleanLocation_white_space (location : jsstring) :
  Trimmed (cleanLocation location) /\ SingleSpaced (cleanLocation location).
Proof.
  unfold cleanLocation. destruct location as [|c0 l0].
  - split; [apply Trimmed_nil | apply SingleSpaced_nil].
  - split; [apply trim_Trimmed|]. apply SingleSpaced_trim.
    change (lit " ") with space. apply spaces2_collapsed_single.
Qed.

(** X14: a cleaned location has no white space at either end and no white space
    next to white space. *)
Theorem cleanLocation_spacing (location : jsstring) :
  Trimmed (cleanLocation location) /\ SingleSpaced (cleanLocation location).
Proof. apply cleanLocation_white_space. Qed.

(** * Printable text with its white space collapsed *)

Lemma readableAscii_chars s x :
  In x (readableAscii s) -> in_range 32%N 126%N x = true.
Proof.
  intros Hx. unfold readableAscii in Hx.
  destruct (trim_part (replaceAll re_spaces (const_rep space)
                         (replaceAll re_nonprintable (const_rep space) s))) as (a & b & E).
  assert (Hin : In x (replaceAll re_spaces (const_rep space)
                        (replaceAll re_nonprintable (const_rep space) s))).
  { rewrite E. apply in_or_app. right. apply in_or_app. left. assumption. }
  clear E Hx.
  assert (Hp : isPrintable x = true).
  { revert x Hin. apply Forall_forall. apply replaceAll_Forall; [simpl; lia | |].
    - rewrite nonprintable_map. apply Forall_forall. intros x Hx.
      apply in_map_iff in Hx. destruct Hx as (y & <- & _).
      destruct (isPrintable y) eqn:Ey; simpl; [assumption | reflexivity].
    - intros m. repeat constructor. }
  destruct (isSpace x) eqn:Hs.
  - rewrite (spaces_collapsed_plain _ x Hin Hs). reflexivity.
  - unfold isPrintable in Hp. unfold isSpace in Hs.
    apply orb_true_iff in Hp. destruct Hp as [Hp|Hp].
    + apply orb_true_iff in Hp. destruct Hp as [Hp|Hp]; [assumption|].
      apply N.eqb_eq in Hp. subst. discriminate Hs.
    + apply N.eqb_eq in Hp. subst. discriminate Hs.
Qed.

Lemma readableAscii_spacing s :
  Trimmed (readableAscii s) /\ SingleSpaced (readableAscii s).
Proof.
  unfold readableAscii. split; [apply trim_Trimmed|].
  apply SingleSpaced_trim. apply spaces_collapsed_single.
Qed.

(** X15: the text taken from a legacy [.doc] file holds printable ASCII only, no
    line break among it, with no space at either end and no two spaces in a
    row. *)
Theorem doc_text_printable (readZipEntry : list Byte.byte -> zipEntry)
    (uint8Array : list Byte.byte) :
  let text := textContent readZipEntry (lit "doc") uint8Array in
  (forall x, In x text -> in_range 32%N 126%N x = true)
  /\ Trimmed text /\ SingleSpaced text.
Proof.
  cbv zeta. change (textContent readZipEntry (lit "doc") uint8Array)
    with (readableAscii (decodeLatin1 uint8Array)).
  split; [intros x; apply readableAscii_chars | apply readableAscii_spacing].
Qed.

(** * Text of a PDF file: the white space of the result *)

Lemma Spaced_head s o : Spaced s o -> forall y t, o = y :: t -> exists t', s = y :: t'.
Proof. induction 1; intros y t E; inv E; eauto. Qed.

Lemma lower_not_space c : isLower c = true -> isSpace c = false.
Proof.
  unfold isLower, in_range. intros H. apply andb_true_iff in H. destruct H as [H1 H2].
  apply N.leb_le in H1, H2. unfold isSpace, in_range, eqc.
  repeat (apply orb_false_iff; split);
    try (apply andb_false_iff; (left; apply N.leb_gt; lia) || (right; apply N.leb_gt; lia));
    apply N.eqb_neq; lia.
Qed.

Lemma upper_not_space c : isUpper c = true -> isSpace c = false.
Proof.
  unfold isUpper, in_range. intros H. apply andb_true_iff in H. destruct H as [H1 H2].
  apply N.leb_le in H1, H2. unfold isSpace, in_range, eqc.
  repeat (apply orb_false_iff; split);
    try (apply andb_false_iff; (left; apply N.leb_gt; lia) || (right; apply N.leb_gt; lia));
    apply N.eqb_neq; lia.
Qed.

Lemma Spaced_single s o : Spaced s o -> SingleSpaced s -> SingleSpaced o.
Proof.
  induction 1 as [|c s o H IH|c1 c2 s o Hl Hu H IH]; intros Hs.
  - assumption.
  - apply SingleSpaced_cons in Hs. destruct Hs as [Hs Hc].
    apply SingleSpaced_cons. split; [auto|].
    intros Hsp y t E. destruct (Spaced_head _ _ H y t E) as (t' & E'). eauto.
  - apply SingleSpaced_cons in Hs. destruct Hs as [Hs _].
    apply SingleSpaced_cons in Hs. destruct Hs as [Hs Hc].
    apply SingleSpaced_cons. split.
    + apply SingleSpaced_cons. split.
      * apply SingleSpaced_cons. split; [auto|].
        intros Hsp. rewrite (upper_not_space _ Hu) in Hsp. discriminate.
      * intros _ y t E. inv E. apply upper_not_space. assumption.
    + intros Hsp. rewrite (lower_not_space _ Hl) in Hsp. discriminate.
Qed.

Lemma Spaced_plain s o : Spaced s o -> PlainSpaces s -> PlainSpaces o.
Proof.
  induction 1 as [|c s o H IH|c1 c2 s o Hl Hu H IH]; intros Hs x Hx Hsp.
  - destruct Hx.
  - destruct Hx as [<-|Hx]; [apply Hs; simpl; auto|].
    apply IH; auto. intros y Hy. apply Hs. simpl; auto.
  - destruct Hx as [<-|[<-|[<-|Hx]]].
    + apply Hs; simpl; auto.
    + reflexivity.
    + apply Hs; simpl; auto.
    + apply IH; auto. intros y Hy. apply Hs. simpl; auto.
Qed.

(** Words without white space, joined by single spaces. *)
Lemma join_words l :
  Forall (fun w => w <> [] /\ forall x, In x w -> isSpace x = false) l ->
  Trimmed (join space l) /\ SingleSpaced (join space l) /\ PlainSpaces (join space l).
Proof.
  assert (Hword : forall w, (forall x, In x w -> isSpace x = false) ->
            Trimmed w /\ SingleSpaced w /\ PlainSpaces w).
  { intros w Hw. split; [split|split].
    - intros c t ->. apply Hw. simpl; auto.
    - intros t c ->. apply Hw. apply in_or_app. right. simpl; auto.
    - intros k x y Hx _ Hsp. rewrite (Hw x) in Hsp; [discriminate|].
      eapply nth_error_In; eassumption.
    - intros x Hx Hsp. rewrite (Hw x Hx) in Hsp. discriminate. }
  induction 1 as [|w l [Hne Hw] Hl IH].
  - split; [apply Trimmed_nil|]. split; [apply SingleSpaced_nil | intros x []].
  - destruct l as [|w' l]; [simpl; auto|].
    change (join space (w :: w' :: l)) with (w ++ space ++ join space (w' :: l)).
    destruct IH as ([IH1 IH1'] & IH2 & IH3). destruct (Hword w Hw) as ([Hw1 Hw1'] & Hw2 & Hw3).
    split; [split|split].
    + intros c t E. destruct w as [|c' w]; [congruence|]. simpl in E. inv E.
      apply Hw. simpl; auto.
    + intros t c E. rewrite !app_assoc in E.
      destruct (join space (w' :: l)) as [|j0 j] eqn:Ej.
      { exfalso. inv Hl. match goal with H : _ /\ _ |- _ => destruct H as [Hn' _] end.
        destruct w' as [|c' w'']; [congruence|].
        destruct l; simpl in Ej; [discriminate|]. discriminate. }
      destruct (exists_last (l := j0 :: j) ltac:(discriminate)) as (j' & z & Ez).
      rewrite Ez, app_assoc in E. apply app_inj_tail in E. destruct E as [_ <-].
      apply (IH1' j' z). assumption.
    + apply SingleSpaced_app; [assumption | |].
      * change (space ++ join space (w' :: l)) with (ch " " :: join space (w' :: l)).
        apply SingleSpaced_cons. split; [assumption|]. intros _ y t E.
        apply (IH1 y t). assumption.
      * intros a' x y b' -> _ Hsp. rewrite (Hw x) in Hsp; [discriminate|].
        apply in_or_app. right. simpl; auto.
    + intros x Hx Hsp. apply in_app_or in Hx. destruct Hx as [Hx|Hx]; [auto|].
      apply in_app_or in Hx. destruct Hx as [Hx|Hx]; [|auto].
      simpl in Hx. destruct Hx as [<-|[]]. reflexivity.
Qed.

(** The pieces [split(/\s+/)] gives hold no white space. *)
Lemma split_loop_pieces s : forall fuel p q,
  p <= q -> length s - q < fuel ->
  (forall k x, p <= k < q -> nth_error s k = Some x -> isSpace x = false) ->
  forall piece x, In piece (split_loop re_spaces s fuel p q) -> In x piece -> isSpace x = false.
Proof.
  induction fuel as [|fuel IH]; intros p q Hpq Hf Hr piece x Hp Hx; [lia|].
  cbn [split_loop] in Hp.
  destruct (length s <=? q) eqn:E.
  - apply Nat.leb_le in E. destruct Hp as [<-|[]].
    apply In_skipn in Hx. destruct Hx as (k & Hk & Hx). apply (Hr k x); [lia | assumption].
  - apply Nat.leb_gt in E.
    destruct (rmatch s re_spaces q [] accept) as [[e c]|] eqn:Em.
    + apply sticky_spaces_Some in Em; [|lia]. destruct Em as (He & _).
      rewrite Nat.min_l in Hp by lia.
      destruct (e =? p) eqn:Ee; [apply Nat.eqb_eq in Ee; lia|].
      destruct Hp as [<-|Hp].
      * apply In_substring in Hx. destruct Hx as (k & Hk & Hx). apply (Hr k x); assumption.
      * apply (IH e e ltac:(lia) ltac:(lia)) with (piece := piece); auto. intros; lia.
    + apply (IH p (S q) ltac:(lia) ltac:(lia)) with (piece := piece); auto.
      intros k y Hk Hy. destruct (Nat.eq_dec k q) as [->|Hne]; [|apply (Hr k y); [lia|auto]].
      destruct (isSpace y) eqn:Hs; [exfalso|reflexivity].
      eapply sticky_spaces_space; eassumption.
Qed.

Lemma split_pieces s piece x :
  In piece (splitRe re_spaces s) -> In x piece -> isSpace x = false.
Proof.
  unfold splitRe. destruct s as [|c0 s0].
  - destruct (rmatch [] re_spaces 0 [] accept); intros H Hx; [destruct H|].
    destruct H as [<-|[]]. destruct Hx.
  - apply split_loop_pieces; [lia | simpl; lia | intros; lia].
Qed.

(** X16: the text of a PDF file has no white space at either end, and the only
    white space in it is the single space between two words. *)
Theorem extractTextFromPDF_spacing (data : list Byte.byte) :
  Trimmed (extractTextFromPDF data)
  /\ SingleSpaced (extractTextFromPDF data)
  /\ PlainSpaces (extractTextFromPDF data).
Proof.
  unfold extractTextFromPDF. cbv zeta.
  set (joined := join space _).
  assert (Hres : let result := trim (replaceAll re_camel
                                       (fun s m => group s m 1 ++ space ++ group s m 2)
                                       (replaceAll re_spaces (const_rep space) joined)) in
                 Trimmed result /\ SingleSpaced result /\ PlainSpaces result).
  { cbv zeta. split; [apply trim_Trimmed|]. split.
    - apply SingleSpaced_trim. eapply Spaced_single; [apply camel_spaced|].
      apply spaces_collapsed_single.
    - apply PlainSpaces_trim. eapply Spaced_plain; [apply camel_spaced|].
      apply spaces_collapsed_plain. }
  cbv zeta in Hres.
  destruct (_ <? 200); [|assumption].
  destruct (_ <? _); [|assumption].
  apply join_words. apply Forall_forall. intros w Hw. apply filter_In in Hw.
  destruct Hw as [Hw Hm]. split.
  - unfold isMeaningfulWord in Hm. apply andb_true_iff in Hm. destruct Hm as [Hm _].
    apply Nat.leb_le in Hm. intros ->. simpl in Hm. lia.
  - intros x Hx. eapply split_pieces; eassumption.
Qed.

(** * Text of a DOCX file *)

Lemma execAll_Run r s :
  0 < min_len r ->
  Forall (fun m => Run s r (m_start m) [] (m_end m) (m_caps m)) (execAll r s).
Proof.
  intros Hne.
  apply (execAll_ind r s Hne
           (fun _ l => Forall (fun m => Run s r (m_start m) [] (m_end m) (m_caps m)) l)).
  - intros. constructor.
  - intros q m l _ E IH. constructor; [|assumption].
    apply exec_Some in E. tauto.
Qed.

(** A match of [paraTagRegex] taken apart. *)
Lemma Run_paraTag_inv s i j c' :
  Run s paraTagRegex i [] j c' ->
  exists g e,
    At (lit "<w:t") s i
    /\ i + 4 <= g
    /\ (forall k, i + 4 <= k < g -> exists x, nth_error s k = Some x /\ notGt x = true)
    /\ nth_error s g = Some (ch ">")
    /\ S g <= e
    /\ (forall k, S g <= k < e -> exists x, nth_error s k = Some x /\ notLt x = true)
    /\ At (lit "</w:t>") s e
    /\ j = e + 6
    /\ c' = [(1, (S g, e))].
Proof.
  unfold paraTagRegex. simpl Seqs. intros H. inv H.
  match goal with H : Run _ (Lit _) _ _ _ _ |- _ =>
    apply Run_Lit_inv in H; destruct H as (-> & -> & Hopen) end.
  match goal with H : Run _ (Seq (StarG _) _) _ _ _ _ |- _ => inv H end.
  match goal with H : Run _ (StarG (Char notGt)) _ _ _ _ |- _ =>
    apply Run_star_class_inv in H; destruct H as (Hle1 & -> & Hattr) end.
  match goal with H : Run _ (Seq (C _) _) _ _ _ _ |- _ => inv H end.
  match goal with H : Run _ (C _) _ _ _ _ |- _ =>
    apply Run_C_inv in H; destruct H as (-> & -> & Hgt) end.
  match goal with H : Run _ (Seq (Group _ _) _) _ _ _ _ |- _ => inv H end.
  match goal with H : Run _ (Group _ _) _ _ _ _ |- _ => inv H end.
  match goal with H : Run _ (StarG (Char notLt)) _ _ _ _ |- _ =>
    apply Run_star_class_inv in H; destruct H as (Hle2 & -> & Htext) end.
  match goal with H : Run _ (Lit _) _ _ _ _ |- _ =>
    apply Run_Lit_inv in H; destruct H as (-> & -> & Hclose) end.
  eexists _, _. repeat split; try eassumption.
Qed.

Lemma paraTexts_no_lt para text x : In text (paraTexts para) -> In x text -> notLt x = true.
Proof.
  unfold paraTexts. intros Ht Hx. apply in_flat_map in Ht. destruct Ht as (m & Hm & Ht).
  cbv zeta in Ht. destruct (nonEmpty (group para m 1)); [|destruct Ht].
  destruct Ht as [<-|[]].
  pose proof (execAll_Run paraTagRegex para ltac:(simpl; lia)) as HF.
  rewrite Forall_forall in HF. specialize (HF m Hm). apply Run_paraTag_inv in HF.
  destruct HF as (g & e & _ & _ & _ & _ & _ & Htext & _ & _ & Hc).
  unfold group in Hx. rewrite Hc in Hx. simpl in Hx.
  apply In_substring in Hx. destruct Hx as (k & Hk & Hx).
  destruct (Htext k Hk) as (y & Hy & Hn). congruence.
Qed.

Lemma fullText_chars documentXml x :
  In x (fullText documentXml) -> notLt x = true.
Proof.
  unfold fullText. intros H. apply in_flat_map in H. destruct H as (para & _ & H).
  cbv zeta in H. destruct (0 <? length (paraTexts para)); [|destruct H].
  apply in_app_or in H. destruct H as [H|H].
  - apply in_concat in H. destruct H as (text & Ht & Hx). eapply paraTexts_no_lt; eassumption.
  - destruct H as [<-|[]]. reflexivity.
Qed.

(** X17: the text taken from a DOCX file never holds the sign [<]: no tag of the
    document gets into it.  When the archive cannot be read, or holds no
    [word/document.xml], the text is empty. *)
Theorem docx_text_no_markup (readZipEntry : list Byte.byte -> zipEntry)
    (data : list Byte.byte) :
  ~ In (ch "<") (extractTextFromDOCX readZipEntry data)
  /\ (readZipEntry data = ZipError \/ readZipEntry data = ZipMissing ->
      extractTextFromDOCX readZipEntry data = []).
Proof.
  unfold extractTextFromDOCX. split.
  - destruct (readZipEntry data) as [| |xml]; try (intros []).
    destruct (nonEmpty xml); [|intros []]. intros H.
    destruct (trim_part (fullText xml)) as (a & b & E).
    assert (Hin : In (ch "<") (fullText xml)).
    { rewrite E. apply in_or_app. right. apply in_or_app. left. assumption. }
    apply fullText_chars in Hin. discriminate Hin.
  - intros [-> | ->]; reflexivity.
Qed.

(** ** A body of one-run paragraphs *)

Lemma split_at_text sep0 sep (text rest : jsstring) : forall cur,
  (forall x, In x text -> N.eqb sep0 x = false) ->
  split_at (sep0 :: sep) (text ++ rest) 0 cur
  = split_at (sep0 :: sep) rest 0 (rev text ++ cur).
Proof.
  induction text as [|x text IH]; intros cur H; [reflexivity|].
  simpl app. cbn [split_at startsWith]. rewrite (H x) by (simpl; auto). cbn [andb].
  rewrite IH by (intros y Hy; apply H; simpl; auto).
  simpl rev. rewrite <- app_assoc. reflexivity.
Qed.

Lemma split_paragraph text rest :
  (forall x, In x text -> notLt x = true) ->
  split (lit "</w:p>") (docxParagraph text ++ rest)
  = docxRun text :: split (lit "</w:p>") rest.
Proof.
  intros H. unfold split, docxParagraph, docxRun. rewrite <- !app_assoc.
  change (split_at (lit "</w:p>")
            (lit "<w:p><w:r><w:t>" ++ text ++ lit "</w:t></w:r>" ++ lit "</w:p>" ++ rest) 0 [])
    with (split_at (ch "<" :: lit "/w:p>")
            (text ++ lit "</w:t></w:r>" ++ lit "</w:p>" ++ rest) 0 (rev (lit "<w:p><w:r><w:t>"))).
  rewrite split_at_text.
  - change (split_at (ch "<" :: lit "/w:p>") (lit "</w:t></w:r>" ++ lit "</w:p>" ++ rest) 0
              (rev text ++ rev (lit "<w:p><w:r><w:t>")))
      with (rev (rev (lit "</w:t></w:r>") ++ rev text ++ rev (lit "<w:p><w:r><w:t>"))
            :: split_at (lit "</w:p>") rest 0 []).
    f_equal. rewrite !rev_app_distr, !rev_involutive, <- app_assoc. reflexivity.
  - intros x Hx. apply H in Hx. unfold notLt, eqc in Hx.
    apply negb_true_iff in Hx. rewrite N.eqb_sym. assumption.
Qed.

Lemma split_body texts :
  Forall (fun text => forall x, In x text -> notLt x = true) texts ->
  split (lit "</w:p>") (docxBody texts) = map docxRun texts ++ [[]].
Proof.
  induction 1 as [|text texts Ht _ IH]; [reflexivity|].
  change (docxBody (text :: texts)) with (docxParagraph text ++ docxBody texts).
  rewrite split_paragraph by assumption. rewrite IH. reflexivity.
Qed.

Lemma no_tag_in_close k :
  nth_error (lit "</w:t></w:r>") k = Some (ch "<") ->
  nth_error (lit "</w:t></w:r>") (S k) = Some (ch "w") -> False.
Proof.
  do 12 (destruct k as [|k]; [simpl; intros H0 H1; try discriminate H0; discriminate H1|]).
  intros H0. destruct k; discriminate H0.
Qed.

Section OneRun.

Variable text : jsstring.
Hypothesis text_plain : forall x, In x text -> notLt x = true.

Let s := docxRun text.

Lemma run_length : length s = 27 + length text.
Proof. unfold s, docxRun. rewrite !length_app. simpl. lia. Qed.

Lemma run_text k : nth_error s (15 + k) = nth_error (text ++ lit "</w:t></w:r>") k.
Proof. reflexivity. Qed.

Lemma run_text_in k x :
  15 <= k < 15 + length text -> nth_error s k = Some x -> notLt x = true.
Proof.
  intros Hk Hx. replace k with (15 + (k - 15)) in Hx by lia. rewrite run_text in Hx.
  rewrite nth_error_app1 in Hx by lia. apply text_plain. eapply nth_error_In. eassumption.
Qed.

Lemma run_close k : nth_error s (15 + length text + k) = nth_error (lit "</w:t></w:r>") k.
Proof.
  rewrite <- Nat.add_assoc, run_text, nth_error_app2 by lia.
  replace (length text + k - length text) with k by lia. reflexivity.
Qed.

Lemma run_match_at : MatchAt s paraTagRegex 10.
Proof.
  unfold MatchAt, paraTagRegex. simpl Seqs. eexists _, _.
  eapply R_Seq.
  { apply (Run_Lit s "<w:t" 10). intros k x Hk.
    do 4 (destruct k as [|k]; [exact Hk|]). destruct k; discriminate. }
  eapply R_Seq; [apply R_Star0|].
  eapply R_Seq.
  { econstructor; [reflexivity | reflexivity]. }
  eapply R_Seq.
  { apply R_Group. apply (Run_star_class true notLt s _ (length text)). intros k Hk.
    assert (Hn : nth_error text k <> None) by (apply nth_error_Some; assumption).
    destruct (nth_error text k) as [x|] eqn:Ex; [|congruence].
    exists x. split.
    - match goal with |- nth_error s ?e = _ => replace e with (15 + k) by (simpl; lia) end.
      rewrite run_text, nth_error_app1 by lia. assumption.
    - apply text_plain. eapply nth_error_In. eassumption. }
  apply (Run_Lit s "</w:t>"). intros k x Hk.
  match goal with |- nth_error s ?e = _ =>
    replace e with (15 + length text + k) by (simpl; lia) end.
  rewrite run_close.
  do 6 (destruct k as [|k]; [exact Hk|]). destruct k; discriminate.
Qed.

(** The only match of the pattern in the paragraph: the run, with its text as
    group 1. *)
Lemma run_match i j c' :
  Run s paraTagRegex i [] j c' ->
  i = 10 /\ j = 21 + length text /\ c' = [(1, (15, 15 + length text))].
Proof.
  intros HR. apply Run_paraTag_inv in HR.
  destruct HR as (g & e & Hopen & Hg & Hattr & Hgt & He & Htext & Hclose & -> & ->).
  assert (Hi : i = 10).
  { pose proof (Hopen 0 _ eq_refl) as H0. pose proof (Hopen 1 _ eq_refl) as H1.
    pose proof (Hopen 3 _ eq_refl) as H3. rewrite Nat.add_0_r in H0.
    destruct (Nat.le_gt_cases 15 i) as [Hge|Hsmall].
    - exfalso. destruct (Nat.lt_ge_cases i (15 + length text)) as [Hlt|Hge'].
      + pose proof (run_text_in i _ ltac:(lia) H0) as Hx. discriminate Hx.
      + replace i with (15 + length text + (i - (15 + length text))) in H0 by lia.
        replace (i + 1) with (15 + length text + S (i - (15 + length text))) in H1 by lia.
        rewrite run_close in H0, H1. exact (no_tag_in_close _ H0 H1).
    - do 15 (destruct i as [|i]; [try reflexivity; simpl in H0, H3; try discriminate H0;
                                   try discriminate H3|]).
      lia. }
  subst i.
  assert (Hg14 : g = 14).
  { destruct (Nat.eq_dec g 14) as [|Hne]; [assumption|exfalso].
    destruct (Hattr 14 ltac:(lia)) as (x & Hx & Hn). simpl in Hx. inv Hx. discriminate Hn. }
  subst g.
  assert (He' : e = 15 + length text).
  { pose proof (Hclose 0 _ eq_refl) as H0. rewrite Nat.add_0_r in H0.
    destruct (Nat.lt_trichotomy e (15 + length text)) as [Hlt|[Heq|Hgt']]; [|assumption|].
    - exfalso. pose proof (run_text_in e _ ltac:(lia) H0) as Hx. discriminate Hx.
    - exfalso. destruct (Htext (15 + length text) ltac:(lia)) as (x & Hx & Hn).
      rewrite <- (Nat.add_0_r (15 + length text)) in Hx. rewrite run_close in Hx.
      simpl in Hx. inv Hx. discriminate Hn. }
  subst e. split; [reflexivity|]. split; [lia | reflexivity].
Qed.

Lemma run_execAll :
  execAll paraTagRegex s = [MkMatch 10 (21 + length text) [(1, (15, 15 + length text))]].
Proof.
  apply (execAll_ind paraTagRegex s ltac:(simpl; lia)
           (fun q l => (q <= 10 ->
                        l = [MkMatch 10 (21 + length text) [(1, (15, 15 + length text))]])
                       /\ (10 < q -> l = []))); [| |lia].
  - intros q Hq E. split; [|reflexivity]. intros Hq10. exfalso.
    apply (exec_None _ _ _ E 10); [rewrite run_length; lia | apply run_match_at].
  - intros q m l Hq E [IH1 IH2]. pose proof E as E'. apply exec_Some in E'.
    destruct E' as (Hs & _ & _ & HR & _). destruct m as [i j c']. simpl in *.
    apply run_match in HR. destruct HR as (-> & -> & ->).
    split; [|intros; lia]. intros _. rewrite IH2 by lia. reflexivity.
Qed.

Lemma run_paraTexts : paraTexts s = if nonEmpty text then [text] else [].
Proof.
  unfold paraTexts. rewrite run_execAll. cbn [flat_map]. cbv zeta. rewrite app_nil_r.
  assert (Hg : group s (MkMatch 10 (21 + length text) [(1, (15, 15 + length text))]) 1 = text).
  { unfold group. cbn [m_caps lookup_cap Nat.eqb].
    apply At_substring_eq.
    - intros k x Hk. rewrite run_text, nth_error_app1; [assumption|].
      apply nth_error_Some. congruence.
    - rewrite run_length. lia. }
  rewrite Hg. reflexivity.
Qed.

End OneRun.

Lemma fullText_body texts :
  Forall (fun text => forall x, In x text -> notLt x = true) texts ->
  fullText (docxBody texts) = concat (map (fun text => text ++ newline) (filter nonEmpty texts)).
Proof.
  intros H. unfold fullText. rewrite split_body by assumption.
  rewrite flat_map_app.
  match goal with |- _ ++ flat_map ?f ?l = _ => change (flat_map f l) with (@nil char) end.
  rewrite app_nil_r.
  induction H as [|text texts Ht _ IH]; [reflexivity|].
  cbn [map flat_map filter]. rewrite IH. cbv zeta. rewrite (run_paraTexts text Ht).
  destruct (nonEmpty text); [|reflexivity].
  cbn [length Nat.ltb Nat.leb concat map]. rewrite app_nil_r. reflexivity.
Qed.

(** X18: what is read back from a document body of one-run paragraphs whose
    texts hold no [<]: the texts that are not empty, a line each, trimmed at
    both ends. *)
Theorem docx_body_read_back (readZipEntry : list Byte.byte -> zipEntry)
    (data : list Byte.byte) (texts : list jsstring) :
  readZipEntry data = ZipText (docxBody texts) ->
  Forall (fun text => ~ In (ch "<") text) texts ->
  extractTextFromDOCX readZipEntry data
  = trim (concat (map (fun text => text ++ newline) (filter nonEmpty texts))).
Proof.
  intros Hz Ht. unfold extractTextFromDOCX. rewrite Hz.
  assert (Hp : Forall (fun text => forall x, In x text -> notLt x = true) texts).
  { eapply Forall_impl; [|exact Ht]. intros text Hn x Hx. unfold notLt, eqc.
    apply negb_true_iff. apply N.eqb_neq. intros ->. auto. }
  destruct texts as [|t0 texts']; [reflexivity|].
  change (nonEmpty (docxBody (t0 :: texts'))) with true. cbv iota.
  rewrite fullText_body by assumption. reflexivity.
Qed.

Lemma docx_body_read_back_witness :
  extractTextFromDOCX (fun _ => ZipText (docxBody [lit "Ada Lovelace"; []; lit "Analyst, 1843 "]))
    []
  = lit "Ada Lovelace" ++ newline ++ lit "Analyst, 1843".
Proof.
  rewrite (docx_body_read_back _ [] [lit "Ada Lovelace"; []; lit "Analyst, 1843 "] eq_refl).
  - vm_compute. reflexivity.
  - repeat constructor; intros H; vm_compute in H;
      repeat (destruct H as [H|H]; [discriminate H|]); destruct H.
Defined.

(** * The CV upload handler: what the model is given *)

(** X19: the snippet of the debug payload never has more than 500 code units, and
    is taken from the text only when the text is readable. *)
Theorem snippet_bounded (text : jsstring) :
  length (createReadableSnippet text) <= 500
  /\ (isTextReadable text = false ->
      createReadableSnippet text = noTextMessage
      \/ createReadableSnippet text = unreadableMessage).
Proof.
  unfold createReadableSnippet. destruct (negb (nonEmpty text)).
  - split; [vm_compute; lia | auto].
  - destruct (isTextReadable text); simpl negb; cbv iota.
    + split; [|discriminate]. unfold substring. rewrite length_firstn. lia.
    + split; [vm_compute; lia | auto].
Qed.

Lemma snippet_bounded_witness :
  createReadableSnippet (lit "%PDF-1.4 binary") = noTextMessage
  \/ createReadableSnippet (lit "%PDF-1.4 binary") = unreadableMessage.
Proof. apply (snippet_bounded (lit "%PDF-1.4 binary")). reflexivity. Defined.

Lemma slice_shorter s a b : length (slice s a b) <= length s.
Proof.
  unfold slice. rewrite length_firstn, length_skipn. lia.
Qed.

Lemma trim_shorter s : length (trim s) <= length s.
Proof.
  destruct (trim_part s) as (a & b & E). rewrite E at 2. rewrite !length_app. lia.
Qed.

Section HandlerFacts.

Variable toUpperCase : jsstring -> jsstring.

Lemma focused_shorter text :
  length (getWorkExperienceFocusedText toUpperCase text) <= length text.
Proof.
  unfold getWorkExperienceFocusedText. cbv zeta.
  destruct (_ =? -1)%Z; [apply slice_shorter|].
  rewrite cap_section, length_firstn.
  match goal with |- context [slice text ?a ?b] => pose proof (slice_shorter text a b) end.
  lia.
Qed.

Lemma focused_capped text :
  (Z.of_nat (length (getWorkExperienceFocusedText toUpperCase text)) <= 25000)%Z.
Proof.
  unfold getWorkExperienceFocusedText. cbv zeta.
  destruct (_ =? -1)%Z.
  - pose proof (slice_length_le text 20000 ltac:(lia)). lia.
  - rewrite cap_section, length_firstn. lia.
Qed.

(** X20: text of the file is given to the model only when it passes the
    readability check and has more than 200 code units; otherwise the model
    gets the base64 snippet. *)
Theorem text_sent_only_if_readable (textContent : jsstring) :
  usedInputType toUpperCase textContent <> Base64Snippet ->
  isTextReadable textContent = true /\ 200 < length textContent.
Proof.
  unfold usedInputType, focusedWorkExpText. cbv zeta.
  destruct (nonEmpty textContent && isTextReadable textContent)%bool eqn:E.
  - apply andb_true_iff in E. destruct E as [_ Er]. rewrite Er.
    destruct (nonEmpty _ && (200 <? _))%bool eqn:E1.
    + intros _. split; [reflexivity|].
      apply andb_true_iff in E1. destruct E1 as [_ E1]. apply Nat.ltb_lt in E1.
      pose proof (trim_shorter (getWorkExperienceFocusedText toUpperCase textContent)).
      pose proof (focused_shorter textContent). lia.
    + simpl andb. destruct (200 <? length (trim textContent)) eqn:E2.
      * intros _. split; [reflexivity|]. apply Nat.ltb_lt in E2.
        pose proof (trim_shorter textContent). lia.
      * intros H. exfalso. apply H. reflexivity.
  - simpl. intros H. exfalso. apply H. reflexivity.
Qed.

(** X21: whatever the file holds, what is put into the prompt is bounded: at most
    25000 code units of focused text, 30000 of extracted text or 40000 of
    base64 text, with their headings at most 40093 code units. *)
Theorem model_input_bounded (textContent fileExtension base64Content : jsstring) :
  (Z.of_nat (length (inputForModel toUpperCase textContent (mimeType fileExtension)
                       base64Content)) <= 40093)%Z.
Proof.
  unfold inputForModel. destruct (usedInputType toUpperCase textContent).
  - rewrite !length_app. unfold focusedWorkExpText.
    destruct (_ && _)%bool; [|simpl; lia].
    pose proof (focused_capped textContent). simpl length. lia.
  - rewrite !length_app. unfold substring. rewrite length_firstn. simpl length at 1 2. lia.
  - rewrite !length_app. unfold substring. rewrite length_firstn.
    assert (Hm : length (mimeType fileExtension) <= 71).
    { unfold mimeType. destruct (eqs _ _); [vm_compute; lia|].
      destruct (eqs _ _); vm_compute; lia. }
    simpl length at 1 3 4. lia.
Qed.

End HandlerFacts.

Lemma text_sent_only_if_readable_witness :
  isTextReadable (concat (repeat (lit "Work experience: engineer at a company. ") 10)) = true
  /\ 200 < length (concat (repeat (lit "Work experience: engineer at a company. ") 10)).
Proof.
  apply (text_sent_only_if_readable asciiUpper). vm_compute. discriminate.
Defined.

(** * The answer of the model: the code fence *)

Lemma trim_fenced mid : trim (fence ++ mid ++ fence) = fence ++ mid ++ fence.
Proof.
  apply Trimmed_trim. split.
  - intros c t E. inv E. reflexivity.
  - intros t c E. rewrite !app_assoc in E.
    change fence with ([backtick; backtick] ++ [backtick]) in E at 2.
    rewrite app_assoc in E. apply app_inj_tail in E. destruct E as [_ <-]. reflexivity.
Qed.

Lemma trim_fencedJson json : trim (fencedJson json) = fencedJson json.
Proof.
  unfold fencedJson.
  replace (fence ++ lit "json" ++ newline ++ json ++ newline ++ fence)
    with (fence ++ (lit "json" ++ newline ++ json ++ newline) ++ fence)
    by (rewrite <- !app_assoc; reflexivity).
  apply trim_fenced.
Qed.

Lemma trim_fencedPlain json : trim (fencedPlain json) = fencedPlain json.
Proof.
  unfold fencedPlain.
  replace (fence ++ newline ++ json ++ newline ++ fence)
    with (fence ++ (newline ++ json ++ newline) ++ fence)
    by (rewrite <- !app_assoc; reflexivity).
  apply trim_fenced.
Qed.

(** A match of the closing pattern ends at the end of the subject and starts
    three or four code units before it. *)
Lemma Run_fence_close_inv s i j c' :
  Run s re_fence_close i [] j c' ->
  j = length s /\ (i + 3 = length s \/ i + 4 = length s).
Proof.
  unfold re_fence_close, Opt, nl. cbn [Seqs Str map fence]. intros H.
  repeat match goal with
         | H : Run _ (Seq _ _) _ _ _ _ |- _ => inv H
         | H : Run _ (Alt _ _) _ _ _ _ |- _ => inv H
         | H : Run _ (Char _) _ _ _ _ |- _ => inv H
         | H : Run _ Empty _ _ _ _ |- _ => inv H
         | H : Run _ Eol _ _ _ _ |- _ => inv H
         end; split; try reflexivity; lia.
Qed.

Lemma MatchAt_fence_close json :
  MatchAt (json ++ newline ++ fence) re_fence_close (length json).
Proof.
  set (s := json ++ newline ++ fence).
  assert (Hn : forall k, nth_error s (length json + k) = nth_error (newline ++ fence) k).
  { intros k. unfold s. rewrite nth_error_app2 by lia. f_equal. lia. }
  assert (Hlen : length s = length json + 4) by (unfold s; rewrite length_app; reflexivity).
  exists (length s), []. unfold re_fence_close. cbn [Seqs].
  eapply R_Seq.
  { apply R_AltL. apply (R_Char s (eqc 10%N) (length json) [] 10%N); [|reflexivity].
    rewrite <- (Nat.add_0_r (length json)), Hn. reflexivity. }
  eapply R_Seq; [|apply R_Eol].
  replace (length s) with (S (length json) + length (map eqc fence)) by (simpl; lia).
  apply Run_Str. intros k p Hk.
  replace (S (length json) + k) with (length json + S k) by lia. rewrite Hn.
  do 3 (destruct k as [|k]; [inv Hk; eexists; split; [reflexivity | apply N.eqb_refl]|]).
  destruct k; discriminate.
Qed.

(** The closing fence, with the line break before it, is taken off. *)
Lemma fence_closed json :
  replace re_fence_close (const_rep []) (json ++ newline ++ fence) = json.
Proof.
  assert (Hlen : length (json ++ newline ++ fence) = length json + 4)
    by (rewrite length_app; reflexivity).
  unfold replace.
  destruct (exec_finds (json ++ newline ++ fence) re_fence_close 0 (length json)
              ltac:(rewrite Hlen; lia) (MatchAt_fence_close json)) as (m & E & Hs).
  rewrite E. apply exec_Some in E. destruct E as (_ & _ & _ & HR & _).
  apply Run_fence_close_inv in HR. rewrite Hlen in HR. destruct HR as (He & Hi).
  assert (Hstart : m_start m = length json) by lia.
  rewrite Hstart, He. unfold const_rep. simpl app at 2.
  rewrite firstn_app, firstn_all, Nat.sub_diag. simpl firstn.
  rewrite skipn_all2 by lia. rewrite !app_nil_r. reflexivity.
Qed.

Lemma fence_json_opened rest :
  replace re_fence_json (const_rep []) (fence ++ lit "json" ++ newline ++ rest) = rest.
Proof. reflexivity. Qed.

Lemma fence_opened rest :
  replace re_fence_open (const_rep []) (fence ++ newline ++ rest) = rest.
Proof. reflexivity. Qed.

(** X22: the first pass takes an answer out of its code fence, with the language
    tag or without it, whatever the answer is. *)
Theorem fenced_answer_unwrapped (json : jsstring) :
  cleanedText (fencedJson json) = json /\ cleanedText (fencedPlain json) = json.
Proof.
  split.
  - unfold cleanedText. cbv zeta. rewrite trim_fencedJson.
    change (startsWith (fence ++ lit "json") (fencedJson json)) with true. cbv iota.
    unfold fencedJson. rewrite fence_json_opened. apply fence_closed.
  - unfold cleanedText. cbv zeta. rewrite trim_fencedPlain.
    change (startsWith (fence ++ lit "json") (fencedPlain json)) with false.
    change (startsWith fence (fencedPlain json)) with true. cbv iota.
    unfold fencedPlain. rewrite fence_opened. apply fence_closed.
Qed.

(** X23: the focused pass does the same for an answer that does not itself start
    with a fence; its second step is not skipped after the first. *)
Theorem fenced_focused_answer_unwrapped (json : jsstring) :
  startsWith fence json = false ->
  cleaned (fencedJson json) = json /\ cleaned (fencedPlain json) = json.
Proof.
  intros Hj. split.
  - unfold cleaned. cbv zeta. rewrite trim_fencedJson.
    change (startsWith (fence ++ lit "json") (fencedJson json)) with true. cbv iota.
    unfold fencedJson. rewrite fence_json_opened, fence_closed, Hj. reflexivity.
  - unfold cleaned. cbv zeta. rewrite trim_fencedPlain.
    change (startsWith (fence ++ lit "json") (fencedPlain json)) with false. cbv iota.
    change (startsWith fence (fencedPlain json)) with true. cbv iota.
    unfold fencedPlain. rewrite fence_opened. apply fence_closed.
Qed.

Lemma fenced_focused_answer_unwrapped_witness :
  cleaned (fencedJson sample_answer) = sample_answer
  /\ cleaned (fencedPlain sample_answer) = sample_answer.
Proof. apply fenced_focused_answer_unwrapped. reflexivity. Defined.

(** * The extension of the file *)

Lemma split_at_single d rest : forall cur,
  ~ In d rest -> split_at [d] rest 0 cur = [rev cur ++ rest].
Proof.
  induction rest as [|x rest IH]; intros cur H.
  - simpl. rewrite app_nil_r. reflexivity.
  - cbn [split_at startsWith]. destruct (N.eqb d x) eqn:E.
    + apply N.eqb_eq in E. subst. exfalso. apply H. simpl; auto.
    + cbn [andb]. rewrite IH by (intros Hin; apply H; simpl; auto).
      simpl rev. rewrite <- app_assoc. reflexivity.
Qed.

Lemma split_at_nonempty sep s : forall skip cur, split_at sep s skip cur <> [].
Proof.
  induction s as [|x s IH]; intros skip cur; [discriminate|].
  cbn [split_at]. destruct skip; [|apply IH].
  destruct (startsWith sep (x :: s)); [discriminate | apply IH].
Qed.

Lemma last_cons {A} (x : A) l d : l <> [] -> last (x :: l) d = last l d.
Proof. destruct l; [congruence | reflexivity]. Qed.

Lemma last_split_single d base rest : forall cur,
  ~ In d rest -> last (split_at [d] (base ++ d :: rest) 0 cur) [] = rest.
Proof.
  induction base as [|x base IH]; intros cur H.
  - simpl app. cbn [split_at startsWith]. rewrite N.eqb_refl. cbn [andb length Nat.sub].
    rewrite last_cons by apply split_at_nonempty.
    rewrite split_at_single by assumption. reflexivity.
  - simpl app. cbn [split_at startsWith]. destruct (N.eqb d x); cbn [andb length Nat.sub].
    + rewrite last_cons by apply split_at_nonempty. apply IH. assumption.
    + apply IH. assumption.
Qed.

(** X24: the extension is what follows the last dot of the path, in lower case,
    whatever stands before that dot. *)
Theorem fileExtension_after_last_dot (toLowerCase : jsstring -> jsstring)
    (base ext : jsstring) :
  ~ In (ch ".") ext -> toLowerCase ext <> [] ->
  fileExtension toLowerCase (base ++ lit "." ++ ext) = toLowerCase ext.
Proof.
  intros Hdot Hne. unfold fileExtension, split. cbv zeta.
  change (lit ".") with [ch "."]. change ([ch "."] ++ ext) with (ch "." :: ext).
  rewrite last_split_single by assumption.
  destruct (toLowerCase ext); [congruence | reflexivity].
Qed.

Lemma fileExtension_after_last_dot_witness :
  fileExtension asciiLower (lit "user-1/cv.final" ++ lit "." ++ lit "PDF") = lit "pdf".
Proof.
  apply (fileExtension_after_last_dot asciiLower (lit "user-1/cv.final") (lit "PDF")).
  - intros H. vm_compute in H. repeat (destruct H as [H|H]; [discriminate H|]). destruct H.
  - discriminate.
Defined.

(** * The contact of a returned document *)

Lemma extractContactInfo_fields profile c :
  extractContactInfo profile = Ok c ->
  (exists n, name c = trim n)
  /\ formatPhone_dyn (phoneArg profile) = Ok (phone c)
  /\ cleanLocation_dyn (locationArg profile) = Ok (location c).
Proof.
  unfold extractContactInfo. fold (phoneArg profile) (locationArg profile). cbv zeta.
  intros H.
  apply bind_Ok in H. destruct H as (first & _ & H).
  apply bind_Ok in H. destruct H as (last & _ & H).
  apply bind_Ok in H. destruct H as (p & Hp & H).
  apply bind_Ok in H. destruct H as (l & Hl & H).
  apply Ok_inj in H. subst c. cbn [name phone location]. eauto.
Qed.

(** X25: the contact of a document: the name has no white space at either end;
    the phone has the digits of the profile's phone, in their order; the
    location has no white space at either end and none next to white space. *)
Theorem contact_fields_clean (profile : value) (c : contactInfo) :
  extractContactInfo profile = Ok c ->
  Trimmed (name c)
  /\ (forall p, getOpt profile "phone" = VString p ->
        filter isDigit (phone c) = filter isDigit p)
  /\ Trimmed (location c) /\ SingleSpaced (location c).
Proof.
  intros H. apply extractContactInfo_fields in H. destruct H as ((n & Hn) & Hp & Hl).
  split; [rewrite Hn; apply trim_Trimmed|]. split.
  - intros p Ep. unfold phoneArg in Hp. rewrite Ep in Hp.
    destruct p as [|p0 p']; [inv Hp; reflexivity|].
    change (formatPhone_dyn (or_else (VString (p0 :: p')) empty))
      with (Ok (formatPhone (p0 :: p'))) in Hp.
    apply Ok_inj in Hp. rewrite <- Hp. apply formatPhone_digits.
  - unfold cleanLocation_dyn in Hl. destruct (negb (truthy (locationArg profile))).
    + inv Hl. split; [apply Trimmed_nil | apply SingleSpaced_nil].
    + destruct (locationArg profile); try discriminate. inv Hl.
      apply cleanLocation_white_space.
Qed.

Lemma contact_fields_clean_witness :
  exists c,
    extractContactInfo sample_profile = Ok c
    /\ phone c = lit "+442 079460958" /\ location c = lit "London"
    /\ Trimmed (name c)
    /\ (forall p, getOpt sample_profile "phone" = VString p ->
          filter isDigit (phone c) = filter isDigit p)
    /\ Trimmed (location c) /\ SingleSpaced (location c).
Proof.
  eexists. split; [vm_compute; reflexivity|].
  split; [vm_compute; reflexivity|]. split; [vm_compute; reflexivity|].
  apply (contact_fields_clean sample_profile). vm_compute. reflexivity.
Defined.

(** * Work-experience focusing: a part of the text *)

Lemma Contains_firstn_skipn (s : jsstring) n m : Contains (firstn n (skipn m s)) s.
Proof.
  exists (firstn m s), (skipn n (skipn m s)).
  rewrite (firstn_skipn n), (firstn_skipn m). reflexivity.
Qed.

Lemma Contains_slice s a b : Contains (slice s a b) s.
Proof. unfold slice. apply Contains_firstn_skipn. Qed.

(** X26: the focused text is a part of the text in one piece, whatever
    [toUpperCase] does to the text. *)
Theorem focused_text_is_part (toUpperCase : jsstring -> jsstring) (text : jsstring) :
  Contains (getWorkExperienceFocusedText toUpperCase text) text.
Proof.
  unfold getWorkExperienceFocusedText. cbv zeta.
  destruct (_ =? -1)%Z; [apply Contains_slice|].
  destruct (_ <? _)%Z; [|apply Contains_slice].
  eapply Contains_trans; apply Contains_slice.
Qed.

(** * The provider that parses the CV *)

Lemma truthy_and_then a b : truthy (and_then a b) = (truthy a && truthy b)%bool.
Proof. unfold and_then. destruct (truthy a) eqn:E; [reflexivity | assumption]. Qed.

Lemma chooseProvider_cases profileData envKey :
  let kimi := (isString "kimi" (getOpt profileData "preferred_ai_provider")
               && truthy (getOpt profileData "kimi_enabled")
               && truthy (getOpt profileData "kimi_api_key"))%bool in
  let openaiKey := or_else (getOpt profileData "openai_api_key") envKey in
  chooseProvider profileData envKey
  = if kimi then
      inl (MkProvider (getOpt profileData "kimi_api_key")
             (lit "https://api.moonshot.ai/v1/chat/completions")
             (lit "kimi-k2-0711-preview"))
    else if truthy openaiKey then
      inl (MkProvider openaiKey (lit "https://api.openai.com/v1/chat/completions")
             (lit "gpt-4o-mini"))
    else inr noKeyMessage.
Proof.
  cbv zeta. unfold chooseProvider. cbv zeta. rewrite !truthy_and_then.
  change (truthy (VBool ?b)) with b.
  destruct (isString "kimi" _); destruct (truthy (getOpt profileData "kimi_enabled"));
    destruct (truthy (getOpt profileData "kimi_api_key")); reflexivity.
Qed.

(** X27: the key that is sent is never empty nor missing: without one the handler
    throws.  Kimi is chosen only for a user whose preferred provider is
    [kimi] and who has Kimi enabled; for every other user OpenAI is called
    whenever a key for it exists, whether the user has OpenAI enabled or not. *)
Theorem provider_choice (profileData envKey : value) :
  (forall p, chooseProvider profileData envKey = inl p -> truthy (apiKey p) = true)
  /\ (forall p, chooseProvider profileData envKey = inl p ->
        model p = lit "kimi-k2-0711-preview" ->
        isString "kimi" (getOpt profileData "preferred_ai_provider") = true
        /\ truthy (getOpt profileData "kimi_enabled") = true)
  /\ (forall fields enabled,
        chooseProvider (VObject (("openai_enabled"%string, enabled) :: fields)) envKey
        = chooseProvider (VObject fields) envKey).
Proof.
  pose proof (chooseProvider_cases profileData envKey) as Hc. cbv zeta in Hc.
  split; [|split].
  - intros p Hp. rewrite Hc in Hp.
    destruct (_ && _ && _)%bool eqn:E.
    + inv Hp. simpl. apply andb_true_iff in E. tauto.
    + destruct (truthy (or_else _ envKey)) eqn:Eo; inv Hp. assumption.
  - intros p Hp Hm. rewrite Hc in Hp.
    destruct (_ && _ && _)%bool eqn:E.
    + apply andb_true_iff in E. destruct E as [E _]. apply andb_true_iff in E. assumption.
    + destruct (truthy (or_else _ envKey)); inv Hp. vm_compute in Hm. discriminate Hm.
  - intros fields enabled. reflexivity.
Qed.

Lemma provider_choice_witness :
  exists p,
    chooseProvider sample_user_row VUndefined = inl p
    /\ model p = lit "gpt-4o-mini" /\ truthy (apiKey p) = true.
Proof.
  destruct (chooseProvider sample_user_row VUndefined) as [p|msg] eqn:E;
    [|vm_compute in E; discriminate E].
  exists p. split; [reflexivity|]. split.
  - vm_compute in E. inv E. reflexivity.
  - apply (proj1 (provider_choice sample_user_row VUndefined)). assumption.
Defined.

(** * Date normalization: the last replacement as one pass *)

Lemma dash_not_space : isSpace en_dash = false.
Proof. reflexivity. Qed.

Lemma eqc_dash_space c : isSpace c = true -> eqc en_dash c = false.
Proof.
  intros H. destruct (eqc en_dash c) eqn:E; [|reflexivity].
  apply N.eqb_eq in E. subst. discriminate H.
Qed.

Lemma spaceDashes_no_dash x : forall pending,
  ~ In en_dash x -> spaceDashes pending x = rev pending ++ x.
Proof.
  induction x as [|c x IH]; intros pending H; simpl.
  - rewrite app_nil_r. reflexivity.
  - destruct (eqc en_dash c) eqn:E.
    + apply N.eqb_eq in E. subst. exfalso. apply H. simpl; auto.
    + assert (Hx : ~ In en_dash x) by (intros Hin; apply H; simpl; auto).
      destruct (isSpace c).
      * rewrite IH by assumption. simpl. rewrite <- app_assoc. reflexivity.
      * rewrite IH by assumption. reflexivity.
Qed.

(** A gap without a dash that does not end in white space is copied. *)
Lemma spaceDashes_gap gap rest :
  ~ In en_dash gap ->
  (forall g c, gap = g ++ [c] -> isSpace c = false) ->
  forall pending, spaceDashes pending (gap ++ rest)
                  = (if nonEmpty gap then rev pending else []) ++ gap
                    ++ spaceDashes (if nonEmpty gap then [] else pending) rest.
Proof.
  induction gap as [|c gap IH]; intros Hd Hl pending; [reflexivity|].
  assert (Hd' : ~ In en_dash gap) by (intros Hin; apply Hd; simpl; auto).
  assert (Hl' : forall g x, gap = g ++ [x] -> isSpace x = false).
  { intros g x ->. apply (Hl (c :: g) x). reflexivity. }
  simpl app. cbn [spaceDashes nonEmpty].
  destruct (eqc en_dash c) eqn:E.
  { apply N.eqb_eq in E. subst. exfalso. apply Hd. simpl; auto. }
  destruct (isSpace c) eqn:Hc.
  - destruct gap as [|c2 gap].
    + exfalso. rewrite (Hl [] c eq_refl) in Hc. discriminate.
    + rewrite (IH Hd' Hl'). cbn [nonEmpty rev]. rewrite <- !app_assoc. reflexivity.
  - rewrite (IH Hd' Hl'). destruct gap; cbn [nonEmpty rev app]; reflexivity.
Qed.

Lemma spaceDashes_to_dash ws1 rest : forall pending,
  Forall (fun c => isSpace c = true) ws1 ->
  spaceDashes pending (ws1 ++ en_dash :: rest) = spaced_dash ++ afterDash rest.
Proof.
  induction ws1 as [|c ws1 IH]; intros pending H.
  - reflexivity.
  - inv H. simpl app. cbn [spaceDashes]. rewrite eqc_dash_space by assumption.
    match goal with H : isSpace c = true |- _ => rewrite H end. apply IH. assumption.
Qed.

Lemma afterDash_spaces ws2 rest :
  Forall (fun c => isSpace c = true) ws2 -> afterDash (ws2 ++ rest) = afterDash rest.
Proof.
  induction 1 as [|c ws2 Hc _ IH]; [reflexivity|].
  simpl app. cbn [afterDash]. rewrite eqc_dash_space, Hc by assumption. exact IH.
Qed.

Lemma afterDash_start rest :
  (forall c t, rest = c :: t -> isSpace c = false) ->
  afterDash rest = spaceDashes [] rest.
Proof.
  intros H. destruct rest as [|c t]; [reflexivity|]. cbn [afterDash spaceDashes].
  rewrite (H c t eq_refl). reflexivity.
Qed.

Lemma dash_greedy s p m :
  exec re_dash_spaced s p = Some m ->
  forall x, nth_error s (m_end m) = Some x -> isSpace x = false.
Proof.
  intros E. apply exec_rmatch in E. unfold re_dash_spaced in E. cbn [Seqs] in E.
  cbn [rmatch] in E. apply rmatch_sound in E. destruct E as (j & c1 & _ & E).
  change (rmatch s (Seq (Char (eqc en_dash)) (StarG ws)) j c1 accept = Some (m_end m, m_caps m))
    in E.
  cbn [rmatch] in E. destruct (nth_error s j) as [y|]; [|discriminate].
  destruct (eqc en_dash y); [|discriminate].
  eapply star_class_greedy; [|exact E]. lia.
Qed.

Lemma Forall_substring_ws (s : jsstring) i j :
  (forall k, i <= k < j -> exists x, nth_error s k = Some x /\ isSpace x = true) ->
  Forall (fun c => isSpace c = true) (substring s i j).
Proof.
  intros H. apply Forall_forall. intros x Hx. apply In_substring in Hx.
  destruct Hx as (k & Hk & Hx). destruct (H k Hk) as (y & Hy & Hs). congruence.
Qed.

(** The last replacement of [normalizeDates] is the one pass. *)
Lemma dash_replacement_pass s :
  replaceAll re_dash_spaced (const_rep spaced_dash) s = spaceDashes [] s.
Proof.
  apply (replaceAll_ind re_dash_spaced (const_rep spaced_dash) s ltac:(simpl; lia)
           (fun q out => out = spaceDashes [] (skipn q s))).
  - intros q Hq E. rewrite spaceDashes_no_dash; [reflexivity|].
    intros Hin. apply In_skipn in Hin. destruct Hin as (k & Hk & Hin).
    apply (exec_None _ _ _ E k); [lia|]. apply MatchAt_dash. assumption.
  - intros q m out Hq E ->.
    pose proof (exec_progress re_dash_spaced s ltac:(simpl; lia) _ _ E) as (H1 & H2 & H3).
    pose proof (dash_greedy _ _ _ E) as Hg.
    apply exec_Some in E. destruct E as (_ & _ & _ & HR & Hleft).
    pose proof HR as HR'. apply Run_dash_inv in HR'.
    destruct HR' as (u & Hiu & Huj & Hws1 & Hd & Hws2).
    rewrite (skipn_substring s q (m_start m)) by assumption.
    rewrite (skipn_substring s (m_start m) u) by assumption.
    rewrite (skipn_cons_nth _ _ _ Hd).
    rewrite (skipn_substring s (S u) (m_end m)) by assumption.
    rewrite spaceDashes_gap.
    + destruct (nonEmpty (substring s q (m_start m))); cbn [rev app];
        rewrite spaceDashes_to_dash by (apply Forall_substring_ws; assumption);
        rewrite afterDash_spaces by (apply Forall_substring_ws; assumption);
        rewrite afterDash_start; try reflexivity;
        intros c t Ec; apply Hg; rewrite <- (Nat.add_0_r (m_end m)), <- nth_error_skipn, Ec;
        reflexivity.
    + intros Hin. apply In_substring in Hin. destruct Hin as (k & Hk & Hin).
      apply (Hleft k Hk). apply MatchAt_dash. assumption.
    + intros g c Eg. destruct (isSpace c) eqn:Hc; [exfalso|reflexivity].
      assert (Hlen : length (substring s q (m_start m)) = length g + 1)
        by (rewrite Eg, length_app; reflexivity).
      rewrite substring_length in Hlen by lia.
      assert (Hx : nth_error s (m_start m - 1) = Some c).
      { assert (Hn : nth_error (substring s q (m_start m)) (length g) = Some c)
          by (rewrite Eg, nth_error_app2, Nat.sub_diag by lia; reflexivity).
        unfold substring in Hn. rewrite nth_error_firstn in Hn.
        destruct (length g <? m_start m - q); [|discriminate].
        rewrite nth_error_skipn in Hn.
        replace (m_start m - 1) with (q + length g) by lia. assumption. }
      apply (Hleft (m_start m - 1)); [lia|].
      exists (m_end m), (m_caps m). unfold re_dash_spaced in *. cbn [Seqs] in *.
      inv HR. eapply R_Seq; [|eassumption].
      eapply R_StarS; [econstructor; eassumption | lia |].
      replace (S (m_start m - 1)) with (m_start m) by lia.
      match goal with H : Run _ (StarG ws) _ _ _ _ |- _ =>
        pose proof (Run_no_group _ _ _ _ _ _ H eq_refl); subst; exact H end.
Qed.

Lemma spaceDashes_spaces ws1 rest : forall pending,
  Forall (fun c => isSpace c = true) ws1 ->
  spaceDashes pending (ws1 ++ rest) = spaceDashes (rev ws1 ++ pending) rest.
Proof.
  induction ws1 as [|c ws1 IH]; intros pending H; [reflexivity|].
  inv H. simpl app. cbn [spaceDashes]. rewrite eqc_dash_space by assumption.
  match goal with H : isSpace c = true |- _ => rewrite H end.
  rewrite IH by assumption. simpl rev. rewrite <- app_assoc. reflexivity.
Qed.

(** The pass run over its own result changes nothing. *)
Lemma spaceDashes_twice s :
  (forall w v, Forall (fun c => isSpace c = true) w ->
     spaceDashes v (spaceDashes w s) = spaceDashes (w ++ v) s)
  /\ afterDash (afterDash s) = afterDash s.
Proof.
  induction s as [|c s [IHg IHa]].
  - split; [|reflexivity]. intros w v Hw. cbn [spaceDashes].
    rewrite <- (app_nil_r (rev w)), spaceDashes_spaces by (apply Forall_rev; assumption).
    rewrite rev_involutive. reflexivity.
  - assert (Hdash : forall pending,
              spaceDashes pending (spaced_dash ++ afterDash s) = spaced_dash ++ afterDash s).
    { intros pending. unfold spaced_dash. cbn [app spaceDashes].
      change (eqc en_dash (ch " ")) with false. change (isSpace (ch " ")) with true.
      change (eqc en_dash en_dash) with true. cbv iota.
      cbn [afterDash]. change (eqc en_dash (ch " ")) with false.
      change (isSpace (ch " ")) with true. cbv iota. rewrite IHa. reflexivity. }
    split.
    + intros w v Hw. cbn [spaceDashes]. destruct (eqc en_dash c) eqn:Ed.
      * apply Hdash.
      * destruct (isSpace c) eqn:Hc.
        -- rewrite IHg by (constructor; assumption). reflexivity.
        -- rewrite spaceDashes_spaces by (apply Forall_rev; assumption).
           rewrite rev_involutive. cbn [spaceDashes]. rewrite Ed, Hc.
           rewrite (IHg [] [] ltac:(constructor)). reflexivity.
    + cbn [afterDash]. destruct (eqc en_dash c) eqn:Ed.
      * unfold spaced_dash. cbn [app afterDash].
        change (eqc en_dash (ch " ")) with false. change (isSpace (ch " ")) with true.
        change (eqc en_dash en_dash) with true. cbv iota.
        cbn [afterDash]. change (eqc en_dash (ch " ")) with false.
        change (isSpace (ch " ")) with true. cbv iota. rewrite IHa. reflexivity.
      * destruct (isSpace c) eqn:Hc; [exact IHa|].
        cbn [afterDash]. rewrite Ed, Hc. rewrite (IHg [] [] ltac:(constructor)). reflexivity.
Qed.

Lemma hyphens_absent (s : jsstring) :
  ~ In (ch "-") s -> map hyphenToDash (pairsToDash s) = s.
Proof.
  intros H. rewrite pairsToDash_none.
  - induction s as [|c s IH]; [reflexivity|]. simpl. unfold hyphenToDash at 1.
    destruct (eqc (ch "-") c) eqn:E.
    + apply N.eqb_eq in E. subst. exfalso. apply H. simpl; auto.
    + rewrite IH; [reflexivity|]. intros Hin. apply H. simpl; auto.
  - intros k (Hk & _). apply H. eapply nth_error_In. eassumption.
Qed.

(** [normalizeDates] in its three steps, the hyphens first, the spaces last. *)
Lemma normalizeDates_passes s :
  normalizeDates s = spaceDashes [] (map hyphenToDash (pairsToDash s)).
Proof.
  unfold normalizeDates. destruct s as [|c0 s0]; [reflexivity|].
  rewrite dash_replacement_pass, hyphens_replaced, two_hyphens_replaced. reflexivity.
Qed.


(** X28: normalizing normalized dates changes nothing. *)
Theorem normalizeDates_idempotent (dateStr : jsstring) :
  normalizeDates (normalizeDates dateStr) = normalizeDates dateStr.
Proof.
  rewrite (normalizeDates_passes (normalizeDates dateStr)).
  rewrite hyphens_absent by apply normalizeDates_no_hyphen.
  rewrite normalizeDates_passes.
  apply (proj1 (spaceDashes_twice _) [] []). constructor.
Qed.

(** * A job with a start date only *)

Lemma or_else_false a b : truthy a = false -> or_else a b = b.
Proof. intros H. unfold or_else. rewrite H. reflexivity. Qed.

Lemma or_else_true a b : truthy a = true -> or_else a b = a.
Proof. intros H. unfold or_else. rewrite H. reflexivity. Qed.

(** The dates of a job: the normalized [dates] or [duration], or what is
    put together from [startDate] and [endDate]. *)
Lemma parseJob_dates entry job :
  parseJob entry = Ok job ->
  (dates1 <-
     (let dates0 := or_else (or_else (getOpt entry "dates") (getOpt entry "duration")) empty in
      if (negb (truthy dates0)
          && truthy (or_else (getOpt entry "startDate") (getOpt entry "endDate")))%bool
      then
        let start := or_else (getOpt entry "startDate") empty in
        let end_ := or_else (getOpt entry "endDate") (VString (lit "Present")) in
        if truthy start
        then startText <- toString start ;; endText <- toString end_ ;;
             Ok (VString (startText ++ lit " - " ++ endText))
        else Ok end_
      else Ok dates0) ;;
   normalizeDates_dyn dates1) = Ok (dates job).
Proof.
  unfold parseJob. intros H.
  apply bind_Ok in H. destruct H as (c0 & _ & H).
  apply bind_Ok in H. destruct H as (c & _ & H).
  apply bind_Ok in H. destruct H as (t & _ & H). cbv zeta in H.
  apply bind_Ok in H. destruct H as (dates1 & E1 & H).
  apply bind_Ok in H. destruct H as (ds & Ed & H).
  apply bind_Ok in H. destruct H as (cleaned & _ & H).
  apply Ok_inj in H. subst job. cbn [dates]. cbv zeta. rewrite E1. exact Ed.
Qed.

Lemma pairsToDash_prefix a b :
  ~ In (ch "-") a -> pairsToDash (a ++ b) = a ++ pairsToDash b.
Proof.
  induction a as [|c a IH]; intros H; [reflexivity|].
  assert (Hc : eqc (ch "-") c = false).
  { destruct (eqc (ch "-") c) eqn:E; [|reflexivity].
    apply N.eqb_eq in E. subst. exfalso. apply H. simpl; auto. }
  assert (Ha : ~ In (ch "-") a) by (intros Hin; apply H; simpl; auto).
  specialize (IH Ha). simpl app. destruct (a ++ b) as [|c2 t] eqn:E.
  - apply app_eq_nil in E. destruct E as [-> ->]. reflexivity.
  - rewrite pairsToDash_cons2, Hc. cbn [andb]. rewrite IH. reflexivity.
Qed.

Lemma hyphenToDash_prefix a b :
  ~ In (ch "-") a -> map hyphenToDash (a ++ b) = a ++ map hyphenToDash b.
Proof.
  intros H. rewrite map_app. f_equal.
  induction a as [|c a IH]; [reflexivity|]. simpl. unfold hyphenToDash at 1.
  destruct (eqc (ch "-") c) eqn:E.
  - apply N.eqb_eq in E. subst. exfalso. apply H. simpl; auto.
  - rewrite IH; [reflexivity|]. intros Hin. apply H. simpl; auto.
Qed.

(** X29: a job that gives a start date and nothing else about its dates is dated
    from the start date to [Present]. *)
Theorem open_ended_dates (entry : value) (start : jsstring) (job : jobEntry) :
  truthy (getOpt entry "dates") = false ->
  truthy (getOpt entry "duration") = false ->
  truthy (getOpt entry "endDate") = false ->
  getOpt entry "startDate" = VString start ->
  start <> [] -> ~ In (ch "-") start -> ~ In en_dash start ->
  (forall g c, start = g ++ [c] -> isSpace c = false) ->
  parseJob entry = Ok job ->
  dates job = start ++ spaced_dash ++ lit "Present".
Proof.
  intros Hd Hu He Hs Hne Hh Hn Hl Hj. apply parseJob_dates in Hj. cbv zeta in Hj.
  rewrite Hs in Hj. rewrite (or_else_false _ _ Hd), (or_else_false _ _ Hu) in Hj.
  rewrite (or_else_false _ _ He) in Hj.
  assert (Ht : truthy (VString start) = true) by (destruct start; [congruence | reflexivity]).
  rewrite !(or_else_true _ _ Ht), Ht in Hj. cbn [truthy empty negb andb] in Hj.
  cbn [toString bind] in Hj. unfold normalizeDates_dyn in Hj.
  assert (Hx : truthy (VString (start ++ lit " - " ++ lit "Present")) = true)
    by (destruct start; [congruence | reflexivity]).
  rewrite Hx in Hj. cbn [negb toString bind] in Hj. apply Ok_inj in Hj. rewrite <- Hj.
  rewrite normalizeDates_passes, pairsToDash_prefix, hyphenToDash_prefix by assumption.
  change (map hyphenToDash (pairsToDash (lit " - " ++ lit "Present")))
    with (spaced_dash ++ lit "Present").
  rewrite spaceDashes_gap by assumption.
  destruct start; [congruence|]. reflexivity.
Qed.

Lemma open_ended_dates_witness :
  exists job,
    parseJob sample_open_job = Ok job
    /\ dates job = lit "March 2019" ++ spaced_dash ++ lit "Present".
Proof.
  eexists. split; [vm_compute; reflexivity|].
  apply (open_ended_dates sample_open_job (lit "March 2019")); try reflexivity.
  - discriminate.
  - intros H. vm_compute in H. repeat (destruct H as [H|H]; [discriminate H|]). destruct H.
  - intros H. vm_compute in H. repeat (destruct H as [H|H]; [discriminate H|]). destruct H.
  - intros g c E.
    assert (Hc : last (lit "March 2019") 0%N = c) by (rewrite E; apply last_last).
    vm_compute in Hc. subst c. reflexivity.
Defined.
